(** * Coursework agent: pacing engine and job orchestrator

    A shallow embedding of [src/typer.js] (the per-character typing
    engine) and of the agent module (job resolution, URL normalisation,
    sequential and parallel scheduling), followed by the properties
    established about them; the option merging of [src/config.js] comes
    last.

    Conventions of the embedding.
    - A JavaScript string is a [string]; each [ascii] stands for one UTF-16
      code unit in the range 0..255.  Case mapping is the one JavaScript
      performs on the ASCII letters; no other code unit of that range
      lower-cases to a key of the adjacency table, so the engine's behaviour
      on the whole range is the one modelled.
    - The engine's numbers are doubles.  [JsDouble] has binary64
      multiplication and division with their rounding, and
      [JsDouble.wpmToMsPerChar] is the base delay as the engine computes
      it; the properties of the base delay are stated there.  The
      arithmetic inside the typing loop (jitter, [Math.max], [Math.round],
      [randomDelay]) is carried out on exact rationals ([JsNum.number]),
      for a base delay that is a positive rational; there
      [Typer.wpmToMsPerChar] is the exact quotient, from which the double
      is at most one part in 2^51 away ([exact_base_delay_is_close]).
      Non-finite delays ([wpm] of 0, NaN) are outside the loop's model.
    - A locator query ([el.count()]) may be rejected by the page; a click
      that times out is caught by the engine and the next selector tried.
    - [Math.random], the caller's predicates and the browser are oracles
      read through explicit counters; everything the engine does to the
      outside world is appended to an event log.  Concurrent jobs draw
      from one [Math.random]; since its values are arbitrary, each job is
      given an oracle of its own.
    - The event loop of the parallel branch is a schedule: the list of the
      jobs it resumes, one event at a time. *)

From Stdlib Require Import List String Ascii Bool Arith ZArith NArith Lia.
From Stdlib Require Import QArith Qround Qpower Qabs Lqa SpecFloat.
Import ListNotations.

Close Scope Q_scope.
Open Scope string_scope.

(** ** JavaScript string primitives *)

Module JsString.

Definition code (c : ascii) : N := N_of_ascii c.

Definition inRange (lo hi : N) (c : ascii) : bool :=
  (N.leb lo (code c) && N.leb (code c) hi)%bool.

(** WhiteSpace and LineTerminator code units below 256:
    TAB, LF, VT, FF, CR, SPACE and NBSP. *)
Definition isWhiteSpace (c : ascii) : bool :=
  (inRange 9 13 c || N.eqb (code c) 32 || N.eqb (code c) 160)%bool.

Fixpoint trimStart (s : string) : string :=
  match s with
  | EmptyString => EmptyString
  | String c s' => if isWhiteSpace c then trimStart s' else s
  end.

Fixpoint trimEnd (s : string) : string :=
  match s with
  | EmptyString => EmptyString
  | String c s' =>
      match trimEnd s' with
      | EmptyString => if isWhiteSpace c then EmptyString else String c EmptyString
      | t => String c t
      end
  end.

(** [String.prototype.trim] *)
Definition trim (s : string) : string := trimEnd (trimStart s).

(** [s.startsWith(p)] *)
Definition startsWith (s p : string) : bool := String.prefix p s.

(** [s.includes(p)] *)
Fixpoint includes (s p : string) : bool :=
  (String.prefix p s ||
   match s with
   | EmptyString => false
   | String _ s' => includes s' p
   end)%bool.

(** [s.endsWith(p)] *)
Fixpoint endsWith (s p : string) : bool :=
  (String.eqb s p ||
   match s with
   | EmptyString => false
   | String _ s' => endsWith s' p
   end)%bool.

Definition isAsciiUpper (c : ascii) : bool := inRange 65 90 c.
Definition isAsciiLower (c : ascii) : bool := inRange 97 122 c.
Definition isDigit (c : ascii) : bool := inRange 48 57 c.

(** [c.toLowerCase()] and [c.toUpperCase()] on one code unit. *)
Definition toLowerCase (c : ascii) : ascii :=
  if isAsciiUpper c then ascii_of_N (code c + 32) else c.

Definition toUpperCase (c : ascii) : ascii :=
  if isAsciiLower c then ascii_of_N (code c - 32) else c.

Definition mapString (f : ascii -> ascii) (s : string) : string :=
  string_of_list_ascii (List.map f (list_ascii_of_string s)).

(** Longest run of characters of class [cls] at the head of [s]:
    its length and what follows it. *)
Fixpoint classRun (cls : ascii -> bool) (s : string) : nat * string :=
  match s with
  | EmptyString => (0, EmptyString)
  | String c s' =>
      if cls c then let (k, rest) := classRun cls s' in (S k, rest)
      else (0, s)
  end.

(** [/^[cls]{min,}$/.test(s)]: anchored at the start, the greedy run of
    class characters must be at least [min] long and reach the end. *)
Definition testClassAtLeast (cls : ascii -> bool) (min : nat) (s : string) : bool :=
  let (k, rest) := classRun cls s in
  (Nat.leb min k && match rest with EmptyString => true | _ => false end)%bool.

End JsString.

(** ** JavaScript numbers *)

Module JsNum.

Definition number := Q.

Definition ltb (x y : number) : bool := negb (Qle_bool y x).
Definition gtb (x y : number) : bool := ltb y x.

(** [Math.max(x, y)] *)
Definition mathMax (x y : number) : number := if Qle_bool x y then y else x.

(** [Math.floor(x)] *)
Definition mathFloor (x : number) : Z := Qfloor x.

(** [Math.round(x)]: the nearest integer, halves going up. *)
Definition mathRound (x : number) : Z := Qfloor (x + (1 # 2))%Q.

Definition ofZ (z : Z) : number := inject_Z z.
Definition ofNat (n : nat) : number := inject_Z (Z.of_nat n).

(** [x % y] for [x >= 0] and [y > 0]. *)
Definition rem (x y : number) : number := (x - y * ofZ (Qfloor (x / y)))%Q.

End JsNum.

(** ** JavaScript numbers as doubles

    Binary64 multiplication and division: a finite double is held as the
    rational it denotes, and an operation rounds its exact result to the
    nearest double, ties to the even significand, with gradual underflow,
    overflow to infinity, signed zeros and NaN. *)

Module JsDouble.

(** A double: a finite number held exactly ([Finite 0] is +0), the
    negative zero, an infinity, or NaN. *)
Inductive double :=
| Finite (q : Q)
| NegativeZero
| Infinity (negative : bool)
| NaN.

Definition pow2 (k : Z) : Q := (2 ^ k)%Q.

(** [floor(log2 a)] for [a > 0]. *)
Definition ilog2 (a : Q) : Z :=
  let k := (Z.log2 (Qnum a) - Z.log2 (Zpos (Qden a)))%Z in
  if Qle_bool (pow2 k) a then k else (k - 1)%Z.

(** The nearest integer, ties going to the even one. *)
Definition roundHalfEven (x : Q) : Z :=
  let f := Qfloor x in
  match Qcompare (x - inject_Z f) (1 # 2) with
  | Lt => f
  | Gt => (f + 1)%Z
  | Eq => if Z.even f then f else (f + 1)%Z
  end.

(** The exponent of the unit in the last place of a 53-bit significand
    for [a > 0], not below that of the subnormal numbers. *)
Definition ulpExponent (a : Q) : Z := Z.max (ilog2 a - 52) (-1074).

(** [a > 0] rounded to the nearest multiple of its unit in the last place. *)
Definition nearest (a : Q) : Q :=
  (inject_Z (roundHalfEven (a / pow2 (ulpExponent a))) * pow2 (ulpExponent a))%Q.

Definition signed (negative : bool) (a : Q) : double :=
  if Qle_bool a 0 then (if negative then NegativeZero else Finite 0)
  else Finite (if negative then (- a)%Q else a).

(** The double nearest to the number of sign [negative] and magnitude
    [a >= 0]: round to nearest, ties to even, overflow to infinity. *)
Definition roundMagnitude (negative : bool) (a : Q) : double :=
  if Qle_bool a 0 then signed negative 0
  else if Qle_bool (pow2 1024) (nearest a) then Infinity negative
  else signed negative (Qred (nearest a)).

Definition isNegative (x : double) : bool :=
  match x with
  | Finite q => negb (Qle_bool 0 q)
  | NegativeZero => true
  | Infinity negative => negative
  | NaN => false
  end.

(** The magnitude of a finite double, [None] for the others. *)
Definition magnitude (x : double) : option Q :=
  match x with
  | Finite q => Some (Qabs q)
  | NegativeZero => Some 0%Q
  | _ => None
  end.

Definition isZero (a : Q) : bool := Qeq_bool a 0.

(** [x * y] *)
Definition mul (x y : double) : double :=
  match x, y with
  | NaN, _ | _, NaN => NaN
  | _, _ =>
      let negative := xorb (isNegative x) (isNegative y) in
      match magnitude x, magnitude y with
      | Some a, Some b => roundMagnitude negative (a * b)
      | Some a, None | None, Some a => if isZero a then NaN else Infinity negative
      | None, None => Infinity negative
      end
  end.

(** [x / y] *)
Definition div (x y : double) : double :=
  match x, y with
  | NaN, _ | _, NaN => NaN
  | _, _ =>
      let negative := xorb (isNegative x) (isNegative y) in
      match magnitude x, magnitude y with
      | Some a, Some b =>
          if isZero b then (if isZero a then NaN else Infinity negative)
          else roundMagnitude negative (a / b)
      | Some _, None => signed negative 0
      | None, Some _ => Infinity negative
      | None, None => NaN
      end
  end.

(** An integer literal small enough to be a double. *)
Definition ofZ (z : Z) : double := Finite (inject_Z z).

Definition finiteValue (x : double) : option Q :=
  match x with
  | Finite q => Some q
  | NegativeZero => Some 0%Q
  | _ => None
  end.

(** [x <= y] *)
Definition leb (x y : double) : bool :=
  match x, y with
  | NaN, _ | _, NaN => false
  | Infinity true, _ => true
  | _, Infinity false => true
  | Infinity false, _ => false
  | _, Infinity true => false
  | _, _ =>
      match finiteValue x, finiteValue y with
      | Some p, Some q => Qle_bool p q
      | _, _ => false
      end
  end.

(** [x < y] *)
Definition ltb (x y : double) : bool :=
  match x, y with
  | NaN, _ | _, NaN => false
  | _, Infinity true => false
  | Infinity true, _ => true
  | Infinity false, _ => false
  | _, Infinity false => true
  | _, _ =>
      match finiteValue x, finiteValue y with
      | Some p, Some q => negb (Qle_bool q p)
      | _, _ => false
      end
  end.

(** A value that is a double: rounding leaves it as it is. *)
Definition representable (x : double) : bool :=
  match x with
  | Finite q =>
      match roundMagnitude (isNegative x) (Qabs q) with
      | Finite r => Qeq_bool q r
      | _ => false
      end
  | _ => true
  end.

Definition wpmToMsPerChar (wpm : double) : double :=
  let charsPerMinute := mul wpm (ofZ 6) in
  div (ofZ 60000) charsPerMinute.

End JsDouble.

(** ** typer.js *)

Module Typer.
Import JsString JsNum.
Local Open Scope list_scope.

(** A property lookup [table[key] ?? undefined] on an object literal whose
    keys are single characters. *)
Fixpoint lookup {V : Type} (key : ascii) (table : list (ascii * V)) : option V :=
  match table with
  | [] => None
  | (k, v) :: rest => if Ascii.eqb key k then Some v else lookup key rest
  end.

Definition newline : ascii := "010"%char.

Definition pauses : list (ascii * number) :=
  [ ("."%char, 400%Q); ("!"%char, 350%Q); ("?"%char, 380%Q);
    (","%char, 120%Q); (";"%char, 180%Q); (":"%char, 150%Q);
    (newline, 200%Q) ].

Definition punctuationDelay (char : ascii) : number :=
  match lookup char pauses with
  | Some ms => ms
  | None => 0%Q
  end.

(** The base delay as an exact quotient; [JsDouble.wpmToMsPerChar] is the
    function on doubles. *)
Definition wpmToMsPerChar (wpm : number) : number :=
  let charsPerMinute := (wpm * 6)%Q in
  (60000 / charsPerMinute)%Q.

Definition keys (s : string) : list ascii := list_ascii_of_string s.

Definition KEYBOARD_NEIGHBORS : list (ascii * list ascii) :=
  [ ("a"%char, keys "qswz"); ("b"%char, keys "vngh"); ("c"%char, keys "xvdf");
    ("d"%char, keys "sfer"); ("e"%char, keys "wrdf"); ("f"%char, keys "dgrt");
    ("g"%char, keys "fhty"); ("h"%char, keys "gjyu"); ("i"%char, keys "uojk");
    ("j"%char, keys "hkui"); ("k"%char, keys "jlio"); ("l"%char, keys "kop");
    ("m"%char, keys "njk"); ("n"%char, keys "bmhj"); ("o"%char, keys "ipkl");
    ("p"%char, keys "ol"); ("q"%char, keys "aws"); ("r"%char, keys "etdf");
    ("s"%char, keys "adqw"); ("t"%char, keys "ryfg"); ("u"%char, keys "yihj");
    ("v"%char, keys "cbfg"); ("w"%char, keys "qeas"); ("x"%char, keys "zcsd");
    ("y"%char, keys "tugh"); ("z"%char, keys "asx") ].

(** *** The world the engine talks to *)

Inductive Key := Backspace | Enter.

Inductive Error :=
| LocatorError         (* a locator query was rejected by the page *)
| KeyboardError        (* a keyboard operation was rejected by the page *)
| TypeError.           (* a method call on [undefined] *)

Inductive Event :=
| Click (selector : string)
| ClickTimeout (selector : string)
| Sleep (ms : number)
| KeyType (text : ascii)
| KeyPress (key : Key)
| Progress (char : ascii) (fraction : number).

(** The oracles of one run.  [random n], [shouldStop n] and [keyboardOk n]
    answer the n-th call; [pausedFor n] is the number of polls the pause
    predicate answers [true] on the n-th entry of the polling loop, [None]
    when it never clears; [locatorCount sel] is what [el.count()] resolves
    to for the selector, [None] when the query is rejected. *)
Record Env := {
  random : nat -> number;
  shouldStop : nat -> bool;
  pausedFor : nat -> option nat;
  locatorCount : string -> option nat;
  clickOk : string -> bool;
  keyboardOk : nat -> bool
}.

Record Counters := {
  nRandom : nat;
  nStop : nat;
  nPause : nat;
  nKey : nat
}.

Definition start : Counters :=
  {| nRandom := 0; nStop := 0; nPause := 0; nKey := 0 |}.

Inductive Outcome (A : Type) :=
| Returned (a : A)
| Threw (e : Error)
| Hung.
Arguments Returned {A} a.
Arguments Threw {A} e.
Arguments Hung {A}.

(** A computation reads the oracles, advances the counters and emits
    events; a throw or a hang keeps what was emitted before it. *)
Definition M (A : Type) : Type := Env -> Counters -> Outcome A * Counters * list Event.

Definition ret {A} (a : A) : M A := fun _ c => (Returned a, c, []).

Definition bind {A B} (m : M A) (f : A -> M B) : M B :=
  fun env c =>
    match m env c with
    | (Returned a, c1, ev1) =>
        match f a env c1 with
        | (r, c2, ev2) => (r, c2, ev1 ++ ev2)
        end
    | (Threw e, c1, ev1) => (Threw e, c1, ev1)
    | (Hung, c1, ev1) => (Hung, c1, ev1)
    end.

Declare Scope js_scope.
Delimit Scope js_scope with js.
Notation "x <- m ;; k" := (bind m (fun x => k))
  (at level 61, m at next level, right associativity) : js_scope.
Notation "m ;; k" := (bind m (fun _ => k))
  (at level 61, right associativity) : js_scope.
Open Scope js_scope.

Definition emit (e : Event) : M unit := fun _ c => (Returned tt, c, [e]).

Definition throw {A} (e : Error) : M A := fun _ c => (Threw e, c, []).

Definition when (b : bool) (m : M unit) : M unit := if b then m else ret tt.

(** [Math.random()] *)
Definition mathRandom : M number :=
  fun env c =>
    (Returned (random env (nRandom c)),
     {| nRandom := S (nRandom c); nStop := nStop c; nPause := nPause c; nKey := nKey c |},
     []).

(** [await sleep(ms)] *)
Definition sleep (ms : number) : M unit := emit (Sleep ms).

Definition keyboard (e : Event) : M unit :=
  fun env c =>
    let c' := {| nRandom := nRandom c; nStop := nStop c; nPause := nPause c; nKey := S (nKey c) |} in
    if keyboardOk env (nKey c) then (Returned tt, c', [e]) else (Threw KeyboardError, c', []).

(** [await page.keyboard.type(char)] *)
Definition keyboardType (char : ascii) : M unit := keyboard (KeyType char).

(** [await page.keyboard.press(key)] *)
Definition keyboardPress (key : Key) : M unit := keyboard (KeyPress key).

(** [shouldStop()] *)
Definition callShouldStop : M bool :=
  fun env c =>
    (Returned (shouldStop env (nStop c)),
     {| nRandom := nRandom c; nStop := S (nStop c); nPause := nPause c; nKey := nKey c |},
     []).

(** [while (isPaused()) await sleep(200);] *)
Definition waitWhilePaused : M unit :=
  fun env c =>
    let c' := {| nRandom := nRandom c; nStop := nStop c; nPause := S (nPause c); nKey := nKey c |} in
    match pausedFor env (nPause c) with
    | Some polls => (Returned tt, c', repeat (Sleep 200%Q) polls)
    | None => (Hung, c', [])
    end.

(** [onProgress(char, fraction)] *)
Definition onProgress (char : ascii) (fraction : number) : M unit :=
  emit (Progress char fraction).

Definition randomDelay (minMs maxMs : number) : M number :=
  let range := (maxMs - minMs + 1)%Q in
  r <- mathRandom ;;
  ret (ofZ (mathFloor (r * range)%Q) + minMs)%Q.

Record Options := {
  wpm : number;
  wpmVariance : number;
  simulateTypos : bool;
  typoChance : number;
  punctuationPauses : bool;
  breakEveryChars : number;
  breakDurationMs : number
}.

Definition defaults : Options :=
  {| wpm := 45%Q; wpmVariance := 10%Q; simulateTypos := false;
     typoChance := (2 # 100)%Q; punctuationPauses := true;
     breakEveryChars := 0%Q; breakDurationMs := 5000%Q |}.

Definition focusSelectors : list string := [".kix-appview-editor"; "#canvas"; "body"].

(** [for (const sel of focusSelectors)]: the count is awaited outside the
    [try], so its rejection leaves the function; a click that times out is
    caught and the next selector is tried. *)
Fixpoint focusDoc (selectors : list string) : M unit :=
  match selectors with
  | [] => ret tt
  | sel :: rest =>
      fun env =>
        match locatorCount env sel with
        | None => throw LocatorError env
        | Some count =>
            (if Nat.ltb 0 count then
               if clickOk env sel then (emit (Click sel) ;; sleep 400%Q)
               else (emit (ClickTimeout sel) ;; focusDoc rest)
             else focusDoc rest) env
        end
  end.

(** [array[index]], [undefined] out of range. *)
Definition at_index {A} (l : list A) (index : Z) : option A :=
  if Z.ltb index 0 then None else nth_error l (Z.to_nat index).

(** The body of [if (Math.random() < typoChance)]: wrong key, Backspace. *)
Definition typo (char : ascii) (delay : number) : M unit :=
  let lower := toLowerCase char in
  match lookup lower KEYBOARD_NEIGHBORS with
  | Some neighbors =>
      if negb (Ascii.eqb char newline) then
        r <- mathRandom ;;
        let wrongChar := at_index neighbors (mathFloor (r * ofNat (List.length neighbors))%Q) in
        let upper := (Ascii.eqb char (toUpperCase char) && negb (Ascii.eqb char (toLowerCase char)))%bool in
        sleep delay ;;
        match wrongChar with
        | Some w => keyboardType (if upper then toUpperCase w else w)
        | None => throw TypeError
        end ;;
        d1 <- randomDelay 80%Q 200%Q ;;
        sleep d1 ;;
        keyboardPress Backspace ;;
        d2 <- randomDelay 50%Q 120%Q ;;
        sleep d2
      else ret tt
  | None => ret tt
  end.

(** One pass through the loop body for [text[i]], after the stop check. *)
Definition typeChar (o : Options) (len : nat) (baseMsPerChar : number)
  (i : nat) (char : ascii) : M unit :=
  waitWhilePaused ;;
  r <- mathRandom ;;
  let variance := ((r - (1 # 2)) * 2 * wpmVariance o)%Q in
  let delay := mathMax 30%Q (baseMsPerChar + variance * (baseMsPerChar / 20))%Q in
  (if (simulateTypos o && gtb (typoChance o) 0%Q)%bool then
     roll <- mathRandom ;;
     when (ltb roll (typoChance o)) (typo char delay)
   else ret tt) ;;
  sleep (ofZ (mathRound delay)) ;;
  (if Ascii.eqb char newline then keyboardPress Enter else keyboardType char) ;;
  onProgress char (ofNat (i + 1) / ofNat len)%Q ;;
  when (punctuationPauses o && gtb (punctuationDelay char) 0%Q)%bool
    (j <- randomDelay 0%Q 200%Q ;;
     sleep (punctuationDelay char + j)%Q) ;;
  when (gtb (breakEveryChars o) 0%Q
        && Qeq_bool (rem (ofNat (i + 1)) (breakEveryChars o)) 0%Q
        && ltb (ofNat i) (ofNat len - 1)%Q)%bool
    (sleep (breakDurationMs o)) ;;
  d <- randomDelay 0%Q 25%Q ;;
  sleep d.

(** [for (let i = ...; i < text.length; i++)], entered at index [i] with
    [rest] the characters from [i] on.  The loop returns the index it was
    left at: [text.length] when it ran to the end, the index of the
    character not typed when the stop predicate answered [true]. *)
Fixpoint typeLoop (o : Options) (len : nat) (baseMsPerChar : number)
  (i : nat) (rest : string) : M nat :=
  match rest with
  | EmptyString => ret i
  | String char rest' =>
      stop <- callShouldStop ;;
      if stop then ret i
      else
        typeChar o len baseMsPerChar i char ;;
        typeLoop o len baseMsPerChar (S i) rest'
  end.

Definition typeWithHumanSpeed (text : string) (o : Options) : M nat :=
  let baseMsPerChar := wpmToMsPerChar (wpm o) in
  focusDoc focusSelectors ;;
  typeLoop o (String.length text) baseMsPerChar 0 text.

(** *** Reading a log *)

Definition isKeyboard (e : Event) : bool :=
  match e with
  | KeyType _ | KeyPress _ => true
  | _ => false
  end.

(** The keyboard operations of a log, in order. *)
Definition keystrokes (log : list Event) : list Event := filter isKeyboard log.

Definition isProgress (e : Event) : bool :=
  match e with
  | Progress _ _ => true
  | _ => false
  end.

Definition progressReports (log : list Event) : list Event := filter isProgress log.

Definition isDeletion (e : Event) : bool :=
  match e with
  | KeyPress Backspace => true
  | _ => false
  end.

(** What the editing surface holds after a key operation: a typed
    character and Enter append, Backspace removes the last character. *)
Definition applyKey (doc : list ascii) (e : Event) : list ascii :=
  match e with
  | KeyType c => doc ++ [c]
  | KeyPress Enter => doc ++ [newline]
  | KeyPress Backspace => removelast doc
  | _ => doc
  end.

Definition document (log : list Event) : list ascii := fold_left applyKey log [].

(** The operation that delivers [char]: Enter for a line break, the
    character itself otherwise. *)
Definition emission (char : ascii) : Event :=
  if Ascii.eqb char newline then KeyPress Enter else KeyType char.

End Typer.

(** ** The agent module *)

Module Agent.
Import JsString JsNum.

Definition docPrefix : string := "https://docs.google.com/document/d/".
Definition docMarker : string := "docs.google.com/document".

(** The character class [[a-zA-Z0-9_-]]. *)
Definition idChar (c : ascii) : bool :=
  (isAsciiLower c || isAsciiUpper c || isDigit c
   || Ascii.eqb c "_" || Ascii.eqb c "-")%bool.

Definition normalizeDocUrl (url : string) : string :=
  let u := trim url in
  if startsWith u docPrefix then u
  else if includes u docMarker then u
  else if testClassAtLeast idChar 20 u then docPrefix ++ u ++ "/edit"
  else u.

(** *** Content resolution *)

(** The file system as [loadEssay] sees it: [resolvePath] is
    [isAbsolute(p) ? p : resolve(process.cwd(), p)], [readFile] is [None]
    when reading throws. *)
Record FileSystem := {
  resolvePath : string -> string;
  readFile : string -> option string
}.

Definition isEmpty (s : string) : bool :=
  match s with
  | EmptyString => true
  | _ => false
  end.

(** [/\.(txt|md|docx?)$/i.test(s)] *)
Definition hasTextExtension (s : string) : bool :=
  let l := mapString toLowerCase s in
  (endsWith l ".txt" || endsWith l ".md" || endsWith l ".doc" || endsWith l ".docx")%bool.

Definition lineFeed : string := String Typer.newline EmptyString.

(** [essay] is [None] when the argument is not a string. *)
Definition loadEssay (fs : FileSystem) (essay : option string) : string :=
  match essay with
  | None => ""
  | Some e =>
      if isEmpty e then ""
      else
        let trimmed := trim e in
        let mightBePath :=
          (negb (includes trimmed lineFeed)
           && (includes trimmed "/" || includes trimmed "\" || hasTextExtension trimmed))%bool in
        if mightBePath then
          match readFile fs (resolvePath fs trimmed) with
          | Some data => trim data
          | None => trimmed
          end
        else trimmed
  end.

(** A job descriptor; a field is [None] when it is absent (or, for the two
    content fields, not a string). *)
Record Job := {
  essayContent : option string;
  essay : option string;
  essayPath : option string;
  docUrl : string;
  wpm : option number;
  wpmVariance : option number;
  simulateTypos : option bool;
  typoChance : option number;
  punctuationPauses : option bool;
  breakEveryChars : option number;
  breakDurationMs : option number
}.

(** [{ ...j, essay, docUrl }] *)
Definition withContent (j : Job) (text url : string) : Job :=
  {| essayContent := essayContent j; essay := Some text; essayPath := essayPath j;
     docUrl := url;
     wpm := wpm j; wpmVariance := wpmVariance j; simulateTypos := simulateTypos j;
     typoChance := typoChance j; punctuationPauses := punctuationPauses j;
     breakEveryChars := breakEveryChars j; breakDurationMs := breakDurationMs j |}.

Inductive Error :=
| NoEssayContent
| NewPageFailed
| NavigationFailed
| Injection (e : Typer.Error).

Inductive Event :=
| ConsoleWarn (msg : string)
| ConsoleError (msg : string)
| ConsoleLog (msg : string)
| JobStart (job : nat) (charCount : nat)
| NewPage (job : nat)
| Goto (job : nat) (url : string)
| OnPage (job : nat) (e : Typer.Event)
| JobComplete (job : nat) (err : option Error)
| ClosePage (job : nat).

(** The content [runAgent] resolves for descriptor [j]. *)
Definition resolveContent (fs : FileSystem) (j : Job) : string :=
  match essayContent j with
  | Some text => trim text
  | None =>
      match essay j with
      | Some e => loadEssay fs (Some e)
      | None => ""
      end
  end.

(** The first loop of [runAgent]: the warnings printed and [resolvedJobs]. *)
Fixpoint resolveJobs (fs : FileSystem) (jobs : list Job) : list Event * list Job :=
  match jobs with
  | [] => ([], [])
  | j :: rest =>
      let text := resolveContent fs j in
      let (warnings, resolved) := resolveJobs fs rest in
      if isEmpty text then
        (ConsoleWarn ("Skipping job (no content): " ++ docUrl j) :: warnings, resolved)
      else
        (warnings, withContent j text (normalizeDocUrl (docUrl j)) :: resolved)
  end.

(** *** One job *)

(** How a promise ends: fulfilled, rejected, or never settled. *)
Inductive Settlement :=
| Fulfilled
| Rejected (e : Error)
| Pending.

(** What the browser does to one job: whether the tab opens and the
    document loads, and the page the typing engine then drives. *)
Record JobWorld := {
  newPageOk : bool;
  gotoOk : bool;
  loadStateOk : bool;
  page : Typer.Env
}.

Definition orElse {A} (x : option A) (d : A) : A :=
  match x with
  | Some v => v
  | None => d
  end.

Definition typingOptions (job : Job) : Typer.Options :=
  {| Typer.wpm := orElse (wpm job) 45%Q;
     Typer.wpmVariance := orElse (wpmVariance job) 10%Q;
     Typer.simulateTypos := orElse (simulateTypos job) false;
     Typer.typoChance := orElse (typoChance job) (2 # 100)%Q;
     Typer.punctuationPauses := orElse (punctuationPauses job) true;
     Typer.breakEveryChars := orElse (breakEveryChars job) 0%Q;
     Typer.breakDurationMs := orElse (breakDurationMs job) 5000%Q |}.

(** The engine's environment inside [runJob]: the flags of the local
    [state] object are never set, so neither predicate ever answers [true]. *)
Definition typingEnv (w : JobWorld) : Typer.Env :=
  {| Typer.random := Typer.random (page w);
     Typer.shouldStop := fun _ => false;
     Typer.pausedFor := fun _ => Some 0;
     Typer.locatorCount := Typer.locatorCount (page w);
     Typer.clickOk := Typer.clickOk (page w);
     Typer.keyboardOk := Typer.keyboardOk (page w) |}.

(** [x || y] on strings: [x] unless it is absent or empty. *)
Definition orString (x y : option string) : option string :=
  match x with
  | Some s => if isEmpty s then y else x
  | None => y
  end.

(** [job.essay || (await loadEssay(job.essayPath || job.essay))] *)
Definition jobEssay (fs : FileSystem) (job : Job) : string :=
  match essay job with
  | Some e => if isEmpty e then loadEssay fs (orString (essayPath job) (essay job)) else e
  | None => loadEssay fs (orString (essayPath job) (essay job))
  end.

(** The [finally] block of [runJob]. *)
Definition closeTab (closeTabOnComplete : bool) (k : nat) : list Event :=
  if closeTabOnComplete then [ClosePage k] else [].

(** [runJob] up to [context.newPage()]: for a job that carries its
    content, as every resolved job does, this is what happens inside the
    call before it first suspends. *)
Definition jobPrologue (fs : FileSystem) (k : nat) (job : Job) : list Event :=
  let text := jobEssay fs job in
  if isEmpty text then [] else [JobStart k (String.length text)].

(** The rest of [runJob], from [context.newPage()] on. *)
Definition jobBody (fs : FileSystem) (w : JobWorld) (closeTabOnComplete : bool)
  (k : nat) (job : Job) : list Event * Settlement :=
  let url := normalizeDocUrl (docUrl job) in
  let text := jobEssay fs job in
  if isEmpty text then ([], Rejected NoEssayContent)
  else if negb (newPageOk w) then ([], Rejected NewPageFailed)
  else if negb (gotoOk w && loadStateOk w) then
    ((NewPage k :: Goto k url :: JobComplete k (Some NavigationFailed)
        :: closeTab closeTabOnComplete k)%list,
     Rejected NavigationFailed)
  else
    let opened := [NewPage k; Goto k url; OnPage k (Typer.Sleep 2000%Q)] in
    match Typer.typeWithHumanSpeed text (typingOptions job) (typingEnv w) Typer.start with
    | (Typer.Returned _, _, log) =>
        ((opened ++ map (OnPage k) log
            ++ JobComplete k None :: closeTab closeTabOnComplete k)%list,
         Fulfilled)
    | (Typer.Threw e, _, log) =>
        ((opened ++ map (OnPage k) log
            ++ JobComplete k (Some (Injection e)) :: closeTab closeTabOnComplete k)%list,
         Rejected (Injection e))
    | (Typer.Hung, _, log) =>
        ((opened ++ map (OnPage k) log)%list, Pending)
    end.

Definition runJob (fs : FileSystem) (w : JobWorld) (closeTabOnComplete : bool)
  (k : nat) (job : Job) : list Event * Settlement :=
  let (body, result) := jobBody fs w closeTabOnComplete k job in
  ((jobPrologue fs k job ++ body)%list, result).

(** *** Scheduling *)

Definition allFinished : Event :=
  ConsoleLog "All jobs finished. Close the browser when done, or it will stay open.".

(** [for (const job of resolvedJobs) await runJob(...)], from job [k] on:
    a rejection leaves the loop, a job that never settles blocks it. *)
Fixpoint runSequential (fs : FileSystem) (world : nat -> JobWorld)
  (closeTabOnComplete : bool) (k : nat) (jobs : list Job) : list Event * Settlement :=
  match jobs with
  | [] => ([], Fulfilled)
  | job :: rest =>
      match runJob fs (world k) closeTabOnComplete k job with
      | (log, Fulfilled) =>
          let (log', result) := runSequential fs world closeTabOnComplete (S k) rest in
          ((log ++ log')%list, result)
      | (log, result) => (log, result)
      end
  end.

(** A started [runJob] call: the events it has still to perform, how its
    promise will end, and whether it has ended. *)
Record Task := {
  remaining : list Event;
  result : Settlement;
  settled : bool
}.

(** The parallel branch at some instant: the started calls, the state of
    [Promise.all] ([None] while it is pending) and the log so far. *)
Record Pool := {
  tasks : list Task;
  batch : option Settlement;
  journal : list Event
}.

Fixpoint replaceAt {A} (k : nat) (x : A) (l : list A) : list A :=
  match l, k with
  | [], _ => []
  | _ :: l', O => x :: l'
  | y :: l', S k' => y :: replaceAt k' x l'
  end.

Definition isFulfilled (t : Task) : bool :=
  match result t with
  | Fulfilled => settled t
  | _ => false
  end.

(** The event loop resumes task [k] once: it performs its next event, or,
    having none left, settles its promise; the first rejection rejects
    [Promise.all], the last fulfilment fulfils it, and [runAgent]'s
    [finally] block runs at that moment. *)
Definition tick (p : Pool) (k : nat) : Pool :=
  match nth_error (tasks p) k with
  | None => p
  | Some t =>
      match remaining t with
      | (e :: rest)%list =>
          {| tasks := replaceAt k {| remaining := rest; result := result t; settled := settled t |} (tasks p);
             batch := batch p;
             journal := (journal p ++ [e])%list |}
      | [] =>
          if settled t then p
          else
            let ts := replaceAt k {| remaining := []; result := result t; settled := true |} (tasks p) in
            match result t, batch p with
            | Pending, _ => p
            | Rejected e, None =>
                {| tasks := ts; batch := Some (Rejected e); journal := (journal p ++ [allFinished])%list |}
            | Fulfilled, None =>
                if forallb isFulfilled ts then
                  {| tasks := ts; batch := Some Fulfilled; journal := (journal p ++ [allFinished])%list |}
                else {| tasks := ts; batch := None; journal := journal p |}
            | _, Some b => {| tasks := ts; batch := Some b; journal := journal p |}
            end
      end
  end.

(** [resolvedJobs.map((job) => runJob(...))], from job [k] on: every call
    runs to its first suspension before the next one starts. *)
Fixpoint startAll (fs : FileSystem) (world : nat -> JobWorld)
  (closeTabOnComplete : bool) (k : nat) (jobs : list Job) : list Event * list Task :=
  match jobs with
  | [] => ([], [])
  | job :: rest =>
      let (body, r) := jobBody fs (world k) closeTabOnComplete k job in
      let (log, ts) := startAll fs world closeTabOnComplete (S k) rest in
      ((jobPrologue fs k job ++ log)%list,
       {| remaining := body; result := r; settled := false |} :: ts)
  end.

(** The parallel branch under a schedule: the list of task indices the
    event loop resumes, in order. *)
Definition runParallel (fs : FileSystem) (world : nat -> JobWorld)
  (closeTabOnComplete : bool) (schedule : list nat) (jobs : list Job) : Pool :=
  let (log, ts) := startAll fs world closeTabOnComplete 0 jobs in
  fold_left tick schedule {| tasks := ts; batch := None; journal := log |}.

Record RunOptions := {
  sequential : bool;
  closeTabOnComplete : bool
}.

(** [runAgent(jobs, options)]: the log and how the returned promise ends.
    [schedule] is the order in which the event loop resumes the jobs of the
    parallel branch.  The browser is taken to launch; the choice of the
    executable and its console message are left out. *)
Definition runAgent (fs : FileSystem) (world : nat -> JobWorld)
  (schedule : list nat) (jobs : list Job) (options : RunOptions) : list Event * Settlement :=
  let (warnings, resolvedJobs) := resolveJobs fs jobs in
  match resolvedJobs with
  | [] => ((warnings ++ [ConsoleError "No valid jobs to run."])%list, Fulfilled)
  | _ =>
      if sequential options then
        let close := (Nat.ltb 1 (List.length resolvedJobs) && closeTabOnComplete options)%bool in
        match runSequential fs world close 0 resolvedJobs with
        | (log, Pending) => ((warnings ++ log)%list, Pending)
        | (log, r) => ((warnings ++ log ++ [allFinished])%list, r)
        end
      else
        let p := runParallel fs world (closeTabOnComplete options) schedule resolvedJobs in
        ((warnings ++ journal p)%list, orElse (batch p) Pending)
  end.

(** The events of job [k] in a log. *)
Definition jobOf (e : Event) : option nat :=
  match e with
  | JobStart k _ | NewPage k | Goto k _ | OnPage k _ | JobComplete k _ | ClosePage k => Some k
  | _ => None
  end.

Definition isJob (k : nat) (e : Event) : bool :=
  match jobOf e with
  | Some j => Nat.eqb j k
  | None => false
  end.

Definition eventsOf (k : nat) (log : list Event) : list Event := filter (isJob k) log.

End Agent.

(** * Properties *)

Import JsString JsNum.

(** ** Pacing: punctuation pauses *)

Section Pacing.
Import Typer.
Local Open Scope Q_scope.

Definition sentenceEnders : list ascii := ["."%char; "!"%char; "?"%char].
Definition clauseSeparators : list ascii := [","%char; ";"%char; ":"%char].
Definition pauseTable : list ascii := (sentenceEnders ++ clauseSeparators ++ [newline])%list.

Lemma punctuationDelay_cases (c : ascii) :
  In c pauseTable \/ punctuationDelay c = 0.
Proof.
  unfold punctuationDelay, pauses, lookup.
  repeat match goal with
  | |- context [Ascii.eqb c ?k] =>
      destruct (Ascii.eqb_spec c k) as [-> | _];
      [left; simpl; tauto |]
  end.
  now right.
Qed.

(** C2, as the table has it: every sentence-ender pauses longer than the
    line break, the line break pauses longer than every clause-separator,
    every clause-separator pauses longer than nothing, and a character
    outside the table gets exactly 0; in particular
    punctuationDelay('.') > punctuationDelay(',') > 0. *)
Theorem punctuationDelay_ordering :
  (forall e, In e sentenceEnders -> punctuationDelay newline < punctuationDelay e) /\
  (forall s, In s clauseSeparators -> punctuationDelay s < punctuationDelay newline) /\
  (forall e s, In e sentenceEnders -> In s clauseSeparators ->
               punctuationDelay s < punctuationDelay e) /\
  (forall s, In s clauseSeparators -> 0 < punctuationDelay s) /\
  (forall c, ~ In c pauseTable -> punctuationDelay c = 0) /\
  (forall c, ~ In c pauseTable ->
     punctuationDelay "." > punctuationDelay "," /\
     punctuationDelay "," > punctuationDelay c).
Proof.
  assert (Hout : forall c, ~ In c pauseTable -> punctuationDelay c = 0).
  { intros c Hc. destruct (punctuationDelay_cases c); tauto. }
  split; [| split; [| split; [| split; [| split]]]].
  - intros e [<- | [<- | [<- | []]]]; reflexivity.
  - intros s [<- | [<- | [<- | []]]]; reflexivity.
  - intros e s [<- | [<- | [<- | []]]] [<- | [<- | [<- | []]]]; reflexivity.
  - intros s [<- | [<- | [<- | []]]]; reflexivity.
  - exact Hout.
  - intros c Hc. rewrite (Hout c Hc). split; reflexivity.
Qed.

(** The ordering read off at the full stop, the comma and the letter a. *)
Lemma punctuationDelay_ordering_witness :
  punctuationDelay "," < punctuationDelay newline
  /\ punctuationDelay newline < punctuationDelay "."
  /\ punctuationDelay "a" = 0.
Proof.
  destruct punctuationDelay_ordering as (Hend & Hsep & _ & _ & Hout & _).
  split; [| split].
  - apply Hsep. simpl. tauto.
  - apply Hend. simpl. tauto.
  - apply Hout. unfold pauseTable. simpl.
    intros [H | [H | [H | [H | [H | [H | [H | []]]]]]]]; discriminate H.
Defined.

(** C2 as stated fails at the comma: its pause (120 ms) is not longer than
    the line break's (200 ms). *)
Lemma clause_separator_shorter_than_line_break :
  In ","%char clauseSeparators
  /\ ~ (punctuationDelay "," > punctuationDelay newline).
Proof.
  split.
  - simpl. tauto.
  - intro H. vm_compute in H. discriminate H.
Qed.

End Pacing.

(** ** Base delay: rounding, monotonicity and accuracy *)

Section Rounding.
Import JsDouble.
Local Open Scope Q_scope.

Lemma pow2_pos (k : Z) : 0 < pow2 k.
Proof.
  apply Qpower_0_lt. reflexivity.
Qed.

Lemma pow2_le (k l : Z) : (k <= l)%Z -> pow2 k <= pow2 l.
Proof.
  intros H. apply Qpower_le_compat_l; [exact H | discriminate].
Qed.

Lemma pow2_lt_inv (k l : Z) : pow2 k < pow2 l -> (k < l)%Z.
Proof.
  intros H. apply (Qpower_lt_compat_l_inv 2); [exact H | reflexivity].
Qed.

Lemma pow2_plus (k l : Z) : pow2 (k + l) == pow2 k * pow2 l.
Proof.
  apply Qpower_plus. discriminate.
Qed.

Lemma pow2_Z (k : Z) : (0 <= k)%Z -> pow2 k == inject_Z (2 ^ k).
Proof.
  intros H. unfold pow2. rewrite Zpower_Qpower by exact H. reflexivity.
Qed.

Lemma pow2_split (k l : Z) : pow2 k == pow2 (k - l) * pow2 l.
Proof.
  rewrite <- pow2_plus. replace (k - l + l)%Z with k by ring. reflexivity.
Qed.

(** The integer logarithm brackets its argument. *)
Lemma ilog2_spec (a : Q) :
  0 < a -> pow2 (ilog2 a) <= a /\ a < pow2 (ilog2 a + 1).
Proof.
  intros Ha. destruct a as [n d].
  assert (Hn : (0 < n)%Z).
  { unfold Qlt in Ha. simpl in Ha. lia. }
  unfold ilog2. cbn [Qnum Qden].
  set (ln := Z.log2 n). set (ld := Z.log2 (Zpos d)).
  destruct (Z.log2_spec n Hn) as [Hn1 Hn2]. fold ln in Hn1, Hn2.
  destruct (Z.log2_spec (Zpos d) ltac:(lia)) as [Hd1 Hd2]. fold ld in Hd1, Hd2.
  assert (Hln : (0 <= ln)%Z) by apply Z.log2_nonneg.
  assert (Hld : (0 <= ld)%Z) by apply Z.log2_nonneg.
  assert (Ead : (n # d) * inject_Z (Zpos d) == inject_Z n).
  { unfold Qeq, Qmult, inject_Z. simpl. lia. }
  assert (Hdpos : 0 < inject_Z (Zpos d)) by reflexivity.
  assert (Hupper : (n # d) < pow2 (ln - ld + 1)).
  { apply (Qmult_lt_r _ _ (pow2 ld) (pow2_pos ld)).
    rewrite <- pow2_plus. replace (ln - ld + 1 + ld)%Z with (ln + 1)%Z by ring.
    apply Qle_lt_trans with ((n # d) * inject_Z (Zpos d)).
    - apply Qmult_le_l; [exact Ha |]. rewrite pow2_Z by exact Hld.
      rewrite <- Zle_Qle. exact Hd1.
    - rewrite Ead, pow2_Z by lia. rewrite <- Zlt_Qlt.
      unfold Z.succ in Hn2. exact Hn2. }
  assert (Hlower : pow2 (ln - ld - 1) <= (n # d)).
  { apply (Qmult_le_r _ _ (pow2 (ld + 1)) (pow2_pos (ld + 1))).
    rewrite <- pow2_plus. replace (ln - ld - 1 + (ld + 1))%Z with ln by ring.
    apply Qle_trans with ((n # d) * inject_Z (Zpos d)).
    - rewrite Ead, pow2_Z by lia. rewrite <- Zle_Qle. exact Hn1.
    - apply Qmult_le_l; [exact Ha |]. rewrite pow2_Z by lia.
      rewrite <- Zle_Qle. unfold Z.succ in Hd2. lia. }
  destruct (Qle_bool (pow2 (ln - ld)) (n # d)) eqn:E.
  - apply Qle_bool_iff in E. split; [exact E | exact Hupper].
  - split; [exact Hlower |].
    replace (ln - ld - 1 + 1)%Z with (ln - ld)%Z by ring.
    apply Qnot_le_lt. intros H. apply Qle_bool_iff in H. congruence.
Qed.

Lemma ilog2_monotone (a b : Q) : 0 < a -> a <= b -> (ilog2 a <= ilog2 b)%Z.
Proof.
  intros Ha Hab.
  assert (Hb : 0 < b) by (eapply Qlt_le_trans; eassumption).
  destruct (ilog2_spec a Ha) as [Ha1 _]. destruct (ilog2_spec b Hb) as [_ Hb2].
  assert (H : pow2 (ilog2 a) < pow2 (ilog2 b + 1)).
  { eapply Qle_lt_trans; [exact Ha1 |]. eapply Qle_lt_trans; eassumption. }
  apply pow2_lt_inv in H. lia.
Qed.

(** Rounding to the nearest integer, ties to even. *)
Lemma roundHalfEven_bounds (x : Q) :
  (Qfloor x <= roundHalfEven x <= Qfloor x + 1)%Z.
Proof.
  unfold roundHalfEven. destruct (Qcompare _ _); [destruct (Z.even _) | |]; lia.
Qed.

Lemma roundHalfEven_Z (n : Z) : roundHalfEven (inject_Z n) = n.
Proof.
  unfold roundHalfEven. rewrite Qfloor_Z.
  destruct (Qcompare_spec (inject_Z n - inject_Z n) (1 # 2)) as [H | H | H];
    [exfalso; lra | reflexivity | exfalso; lra].
Qed.

Lemma roundHalfEven_monotone (x y : Q) : x <= y -> (roundHalfEven x <= roundHalfEven y)%Z.
Proof.
  intros Hxy. pose proof (Qfloor_resp_le x y Hxy) as Hf.
  pose proof (roundHalfEven_bounds x) as Bx. pose proof (roundHalfEven_bounds y) as By.
  destruct (Z.eq_dec (Qfloor x) (Qfloor y)) as [E | N]; [| lia].
  unfold roundHalfEven in *. rewrite <- E in *.
  destruct (Qcompare_spec (x - inject_Z (Qfloor x)) (1 # 2)) as [Hx | Hx | Hx];
    destruct (Qcompare_spec (y - inject_Z (Qfloor x)) (1 # 2)) as [Hy | Hy | Hy];
    try lia; try (destruct (Z.even (Qfloor x)); lia);
    exfalso; lra.
Qed.

Lemma roundHalfEven_le (x : Q) (n : Z) : x <= inject_Z n -> (roundHalfEven x <= n)%Z.
Proof.
  intros H. rewrite <- (roundHalfEven_Z n). apply roundHalfEven_monotone, H.
Qed.

Lemma roundHalfEven_ge (x : Q) (n : Z) : inject_Z n <= x -> (n <= roundHalfEven x)%Z.
Proof.
  intros H. rewrite <- (roundHalfEven_Z n). apply roundHalfEven_monotone, H.
Qed.

Lemma roundHalfEven_error (x : Q) :
  x - (1 # 2) <= inject_Z (roundHalfEven x) /\ inject_Z (roundHalfEven x) <= x + (1 # 2).
Proof.
  unfold roundHalfEven.
  pose proof (Qfloor_le x) as Hlo. pose proof (Qlt_floor x) as Hhi.
  rewrite inject_Z_plus in Hhi. change (inject_Z 1) with 1 in Hhi.
  destruct (Qcompare_spec (x - inject_Z (Qfloor x)) (1 # 2)) as [H | H | H].
  - destruct (Z.even (Qfloor x)); [| rewrite inject_Z_plus; change (inject_Z 1) with 1];
      split; lra.
  - split; lra.
  - rewrite inject_Z_plus. change (inject_Z 1) with 1. split; lra.
Qed.

(** The nearest double of a positive number, exponent unbounded above. *)
Lemma nearest_nonneg (a : Q) : 0 < a -> 0 <= nearest a.
Proof.
  intros Ha. unfold nearest. apply Qmult_le_0_compat; [| apply Qlt_le_weak, pow2_pos].
  change 0 with (inject_Z 0). rewrite <- Zle_Qle. apply roundHalfEven_ge.
  apply Qlt_le_weak. apply Qlt_shift_div_l; [apply pow2_pos |].
  change (inject_Z 0) with 0. rewrite Qmult_0_l. exact Ha.
Qed.

Lemma scaled_le (a : Q) (e : Z) (n : Z) :
  a <= inject_Z n * pow2 e -> a / pow2 e <= inject_Z n.
Proof.
  intros H. apply Qle_shift_div_r; [apply pow2_pos | exact H].
Qed.

Lemma scaled_ge (a : Q) (e : Z) (n : Z) :
  inject_Z n * pow2 e <= a -> inject_Z n <= a / pow2 e.
Proof.
  intros H. apply Qle_shift_div_l; [apply pow2_pos | exact H].
Qed.

Lemma nearest_monotone (a b : Q) : 0 < a -> a <= b -> nearest a <= nearest b.
Proof.
  intros Ha Hab.
  assert (Hb : 0 < b) by (eapply Qlt_le_trans; eassumption).
  pose proof (ilog2_monotone a b Ha Hab) as Hk.
  destruct (ilog2_spec a Ha) as [_ Ha2]. destruct (ilog2_spec b Hb) as [Hb1 _].
  unfold nearest, ulpExponent.
  set (ka := ilog2 a) in *. set (kb := ilog2 b) in *.
  destruct (Z.eq_dec (Z.max (ka - 52) (-1074)) (Z.max (kb - 52) (-1074))) as [E | N].
  - rewrite E. apply Qmult_le_compat_r; [| apply Qlt_le_weak, pow2_pos].
    rewrite <- Zle_Qle. apply roundHalfEven_monotone.
    apply Qmult_le_compat_r; [exact Hab |]. apply Qlt_le_weak, Qinv_lt_0_compat, pow2_pos.
  - set (ea := Z.max (ka - 52) (-1074)) in *.
    assert (Eb : Z.max (kb - 52) (-1074) = (kb - 52)%Z) by lia.
    assert (Hlt : (ka < kb)%Z) by lia.
    rewrite Eb.
    (* the smaller one stays below 2^(max (ka+1) ea), the larger above 2^kb *)
    set (top := Z.max (ka + 1) ea).
    apply Qle_trans with (pow2 top).
    + apply Qle_trans with (inject_Z (2 ^ (top - ea)) * pow2 ea).
      * apply Qmult_le_compat_r; [| apply Qlt_le_weak, pow2_pos].
        rewrite <- Zle_Qle. apply roundHalfEven_le, scaled_le.
        rewrite <- (pow2_Z (top - ea)) by lia. rewrite <- pow2_split.
        apply Qlt_le_weak. eapply Qlt_le_trans; [exact Ha2 |]. apply pow2_le. lia.
      * rewrite <- (pow2_Z (top - ea)) by lia. rewrite <- pow2_split. apply Qle_refl.
    + apply Qle_trans with (pow2 kb); [apply pow2_le; lia |].
      apply Qle_trans with (inject_Z (2 ^ 52) * pow2 (kb - 52)).
      * rewrite <- (pow2_Z 52) by lia.
        rewrite (pow2_split kb (kb - 52)) at 1.
        replace (kb - (kb - 52))%Z with 52%Z by ring. apply Qle_refl.
      * apply Qmult_le_compat_r; [| apply Qlt_le_weak, pow2_pos].
        rewrite <- Zle_Qle. apply roundHalfEven_ge, scaled_ge.
        rewrite <- (pow2_Z 52) by lia.
        replace 52%Z with (kb - (kb - 52))%Z at 1 by ring.
        rewrite <- pow2_split. exact Hb1.
Qed.


(** Half a unit in the last place, relative to a normal number: 2^-53. *)
Definition halfUlp : Q := 1 # 9007199254740992.

Lemma halfUlp_pow2 : pow2 (-53) == halfUlp.
Proof.
  reflexivity.
Qed.

(** In the normal range rounding moves a number by at most one part in
    2^53. *)
Lemma nearest_error (a : Q) :
  pow2 (-1022) <= a ->
  (1 - halfUlp) * a <= nearest a /\ nearest a <= (1 + halfUlp) * a.
Proof.
  intros Hnormal.
  assert (Ha : 0 < a) by (eapply Qlt_le_trans; [apply (pow2_pos (-1022)) | exact Hnormal]).
  destruct (ilog2_spec a Ha) as [Hk1 Hk2].
  assert (Hk : (-1022 <= ilog2 a)%Z).
  { assert (H : pow2 (-1022) < pow2 (ilog2 a + 1)) by (eapply Qle_lt_trans; eassumption).
    apply pow2_lt_inv in H. lia. }
  unfold nearest, ulpExponent.
  replace (Z.max (ilog2 a - 52) (-1074)) with (ilog2 a - 52)%Z by lia.
  set (e := (ilog2 a - 52)%Z).
  pose proof (pow2_pos e) as He.
  destruct (roundHalfEven_error (a / pow2 e)) as [Hlo Hhi].
  set (m := inject_Z (roundHalfEven (a / pow2 e))) in *.
  assert (Ea : a / pow2 e * pow2 e == a) by (field; lra).
  assert (Hulp : (1 # 2) * pow2 e <= halfUlp * a).
  { assert (E : (1 # 2) * pow2 e == halfUlp * pow2 (ilog2 a)).
    { rewrite <- halfUlp_pow2, <- pow2_plus.
      replace (-53 + ilog2 a)%Z with (-1 + e)%Z by (unfold e; ring).
      rewrite pow2_plus. reflexivity. }
    rewrite E. apply Qmult_le_l; [reflexivity | exact Hk1]. }
  assert (Hlo' : (a / pow2 e - (1 # 2)) * pow2 e <= m * pow2 e)
    by (apply Qmult_le_compat_r; [exact Hlo | lra]).
  assert (Hhi' : m * pow2 e <= (a / pow2 e + (1 # 2)) * pow2 e)
    by (apply Qmult_le_compat_r; [exact Hhi | lra]).
  assert (E1 : (a / pow2 e - (1 # 2)) * pow2 e == a - (1 # 2) * pow2 e)
    by (rewrite <- Ea at 2; ring).
  assert (E2 : (a / pow2 e + (1 # 2)) * pow2 e == a + (1 # 2) * pow2 e)
    by (rewrite <- Ea at 2; ring).
  rewrite E1 in Hlo'. rewrite E2 in Hhi'.
  split; lra.
Qed.

(** *** The double nearest to a magnitude *)

Lemma signed_nonneg (v : Q) :
  0 <= v -> exists r, signed false v = Finite r /\ r == v.
Proof.
  intros Hv. unfold signed. destruct (Qle_bool v 0) eqn:E.
  - apply Qle_bool_iff in E. exists 0. split; [reflexivity | lra].
  - exists v. split; reflexivity.
Qed.

(** What rounding a magnitude to a positive double gives: infinity on
    overflow, the nearest multiple of the unit in the last place
    otherwise, zero for zero. *)
Lemma roundMagnitude_cases (a : Q) :
  (0 < a /\ pow2 1024 <= nearest a /\ roundMagnitude false a = Infinity false)
  \/ (exists r, roundMagnitude false a = Finite r /\ 0 <= r
                /\ (a <= 0 -> r == 0)
                /\ (0 < a -> r == nearest a /\ nearest a < pow2 1024)).
Proof.
  unfold roundMagnitude. destruct (Qle_bool a 0) eqn:Ea.
  - apply Qle_bool_iff in Ea. right. exists 0.
    split; [reflexivity |]. split; [apply Qle_refl |].
    split; [reflexivity |]. intros H. lra.
  - assert (Ha : 0 < a).
    { apply Qnot_le_lt. intros H. apply Qle_bool_iff in H. congruence. }
    destruct (Qle_bool (pow2 1024) (nearest a)) eqn:Eo.
    + apply Qle_bool_iff in Eo. left. auto.
    + assert (Ho : nearest a < pow2 1024).
      { apply Qnot_le_lt. intros H. apply Qle_bool_iff in H. congruence. }
      pose proof (nearest_nonneg a Ha) as Hn.
      destruct (signed_nonneg (Qred (nearest a))) as (r & -> & Er).
      { rewrite Qred_correct. exact Hn. }
      rewrite Qred_correct in Er.
      right. exists r. split; [reflexivity |]. split; [rewrite Er; exact Hn |].
      split; [intros H; lra | intros _; split; [exact Er | exact Ho]].
Qed.

Lemma ilog2_unique (a : Q) (k : Z) :
  pow2 k <= a -> a < pow2 (k + 1) -> ilog2 a = k.
Proof.
  intros H1 H2.
  assert (Ha : 0 < a) by (eapply Qlt_le_trans; [apply (pow2_pos k) | exact H1]).
  destruct (ilog2_spec a Ha) as [L1 L2].
  assert (A : pow2 k < pow2 (ilog2 a + 1)) by (eapply Qle_lt_trans; eassumption).
  assert (B : pow2 (ilog2 a) < pow2 (k + 1)) by (eapply Qle_lt_trans; eassumption).
  apply pow2_lt_inv in A. apply pow2_lt_inv in B. lia.
Qed.

Lemma ilog2_comp (a b : Q) : 0 < a -> a == b -> ilog2 a = ilog2 b.
Proof.
  intros Ha E. destruct (ilog2_spec a Ha) as [L1 L2].
  symmetry. apply ilog2_unique; rewrite <- E; assumption.
Qed.

Lemma roundHalfEven_comp (x y : Q) : x == y -> roundHalfEven x = roundHalfEven y.
Proof.
  intros E. unfold roundHalfEven. rewrite (Qfloor_comp x y E).
  assert (Ec : Qcompare (x - inject_Z (Qfloor y)) (1 # 2)
               = Qcompare (y - inject_Z (Qfloor y)) (1 # 2)).
  { apply Qcompare_comp; [rewrite E |]; reflexivity. }
  rewrite Ec. reflexivity.
Qed.

Lemma nearest_comp (a b : Q) : 0 < a -> a == b -> nearest a == nearest b.
Proof.
  intros Ha E. unfold nearest, ulpExponent. rewrite (ilog2_comp a b Ha E).
  rewrite (roundHalfEven_comp (a / pow2 (Z.max (ilog2 b - 52) (-1074)))
             (b / pow2 (Z.max (ilog2 b - 52) (-1074)))).
  - reflexivity.
  - rewrite E. reflexivity.
Qed.

(** Rounding depends on the value of the magnitude only. *)
Lemma roundMagnitude_comp (negative : bool) (a b : Q) :
  a == b -> roundMagnitude negative a = roundMagnitude negative b.
Proof.
  intros E. unfold roundMagnitude.
  assert (E0 : Qle_bool a 0 = Qle_bool b 0).
  { destruct (Qle_bool a 0) eqn:A; destruct (Qle_bool b 0) eqn:B; try reflexivity.
    - apply Qle_bool_iff in A. rewrite E in A. apply Qle_bool_iff in A. congruence.
    - apply Qle_bool_iff in B. rewrite <- E in B. apply Qle_bool_iff in B. congruence. }
  rewrite <- E0. destruct (Qle_bool a 0) eqn:A; [reflexivity |].
  assert (Ha : 0 < a).
  { apply Qnot_le_lt. intros H. apply Qle_bool_iff in H. congruence. }
  pose proof (nearest_comp a b Ha E) as En.
  assert (E1 : Qle_bool (pow2 1024) (nearest a) = Qle_bool (pow2 1024) (nearest b)).
  { destruct (Qle_bool (pow2 1024) (nearest a)) eqn:X;
      destruct (Qle_bool (pow2 1024) (nearest b)) eqn:Y; try reflexivity.
    - apply Qle_bool_iff in X. rewrite En in X. apply Qle_bool_iff in X. congruence.
    - apply Qle_bool_iff in Y. rewrite <- En in Y. apply Qle_bool_iff in Y. congruence. }
  rewrite <- E1. rewrite (Qred_complete _ _ En). reflexivity.
Qed.

Lemma leb_Finite (p q : Q) : leb (Finite p) (Finite q) = Qle_bool p q.
Proof.
  reflexivity.
Qed.

Lemma roundMagnitude_monotone (a b : Q) :
  a <= b -> leb (roundMagnitude false a) (roundMagnitude false b) = true.
Proof.
  intros Hab.
  destruct (roundMagnitude_cases a) as [(Ha & Hoa & ->) | (r & -> & Hr & Hr0 & Hr1)];
    destruct (roundMagnitude_cases b) as [(Hb & Hob & ->) | (t & -> & Ht & Ht0 & Ht1)];
    try reflexivity.
  - exfalso. assert (Hb : 0 < b) by lra. destruct (Ht1 Hb) as [_ Hlt].
    pose proof (nearest_monotone a b Ha Hab). lra.
  - rewrite leb_Finite. apply Qle_bool_iff.
    destruct (Qlt_le_dec 0 a) as [Ha | Ha].
    + assert (Hb : 0 < b) by lra.
      destruct (Hr1 Ha) as [-> _]. destruct (Ht1 Hb) as [-> _].
      apply nearest_monotone; assumption.
    + rewrite (Hr0 Ha). exact Ht.
Qed.

End Rounding.

Section BaseDelay.
Import JsDouble.
Local Open Scope Q_scope.

(** A double above zero is a positive finite number or the positive
    infinity. *)
Lemma above_zero (w : double) :
  ltb (ofZ 0) w = true -> (exists q, w = Finite q /\ 0 < q) \/ w = Infinity false.
Proof.
  destruct w as [q | | [] |]; simpl; try discriminate; [| auto].
  intros H. left. exists q. split; [reflexivity |].
  apply negb_true_iff in H. apply Qnot_le_lt. intros Hq.
  apply Qle_bool_iff in Hq. unfold inject_Z in H. congruence.
Qed.

Lemma isNegative_positive (q : Q) : 0 <= q -> isNegative (Finite q) = false.
Proof.
  intros H. simpl. apply Qle_bool_iff in H. rewrite H. reflexivity.
Qed.

Lemma isZero_iff (a : Q) : isZero a = true <-> a == 0.
Proof.
  apply Qeq_bool_iff.
Qed.

Lemma isZero_false (a : Q) : 0 < a -> isZero a = false.
Proof.
  intros H. destruct (isZero a) eqn:E; [| reflexivity].
  apply isZero_iff in E. lra.
Qed.

(** The characters per minute of a positive rate. *)
Lemma charsPerMinute_positive (q : Q) :
  0 < q -> mul (Finite q) (ofZ 6) = roundMagnitude false (q * 6).
Proof.
  intros Hq. unfold mul, ofZ. cbn [magnitude].
  rewrite (isNegative_positive q) by lra.
  rewrite (isNegative_positive (inject_Z 6)) by discriminate.
  cbn [xorb]. apply roundMagnitude_comp.
  rewrite (Qabs_pos q) by lra. reflexivity.
Qed.

(** The delay for a number of characters per minute that is not negative. *)
Lemma delay_of_infinity : div (ofZ 60000) (Infinity false) = Finite 0.
Proof.
  reflexivity.
Qed.

Lemma delay_of_zero (r : Q) : r == 0 -> div (ofZ 60000) (Finite r) = Infinity false.
Proof.
  intros E. unfold div, ofZ. cbn [magnitude].
  rewrite (isNegative_positive r) by lra.
  assert (Ez : isZero (Qabs r) = true) by (apply isZero_iff; rewrite E; reflexivity).
  rewrite Ez. reflexivity.
Qed.

Lemma delay_of_positive (r : Q) :
  0 < r -> div (ofZ 60000) (Finite r) = roundMagnitude false (60000 / r).
Proof.
  intros Hr. unfold div, ofZ. cbn [magnitude].
  rewrite (isNegative_positive r) by lra.
  rewrite (isNegative_positive (inject_Z 60000)) by discriminate.
  rewrite (isZero_false (Qabs r)) by (rewrite Qabs_pos; lra).
  cbn [xorb]. apply roundMagnitude_comp.
  rewrite (Qabs_pos r) by lra. reflexivity.
Qed.

Lemma zero_below_rounded (a : Q) : leb (Finite 0) (roundMagnitude false a) = true.
Proof.
  destruct (roundMagnitude_cases a) as [(_ & _ & ->) | (r & -> & Hr & _)]; [reflexivity |].
  rewrite leb_Finite. apply Qle_bool_iff, Hr.
Qed.

Lemma rounded_below_infinity (a : Q) : leb (roundMagnitude false a) (Infinity false) = true.
Proof.
  destruct (roundMagnitude_cases a) as [(_ & _ & ->) | (r & -> & _)]; reflexivity.
Qed.

Lemma quotient_antitone (k r t : Q) : 0 < k -> 0 < r -> r <= t -> k / t <= k / r.
Proof.
  intros Hk Hr Hrt. apply Qle_shift_div_r; [lra |].
  apply Qle_trans with (k / r * r).
  - assert (E : k / r * r == k) by (field; lra). rewrite E. apply Qle_refl.
  - apply Qmult_le_l; [| exact Hrt].
    apply Qlt_shift_div_l; [exact Hr |]. rewrite Qmult_0_l. exact Hk.
Qed.

(** The delay does not grow with the characters per minute. *)
Lemma delay_antitone (a b : Q) :
  a <= b ->
  leb (div (ofZ 60000) (roundMagnitude false b)) (div (ofZ 60000) (roundMagnitude false a))
  = true.
Proof.
  intros Hab. pose proof (roundMagnitude_monotone a b Hab) as Hle.
  destruct (roundMagnitude_cases a) as [(Ha & Hoa & Ea) | (r & Ea & Hr & Hr0 & Hr1)];
    destruct (roundMagnitude_cases b) as [(Hb & Hob & Eb) | (t & Eb & Ht & Ht0 & Ht1)];
    rewrite Ea, Eb in *.
  - reflexivity.
  - discriminate Hle.
  - rewrite delay_of_infinity.
    destruct (Qlt_le_dec 0 r) as [Hpos | Hzero].
    + rewrite (delay_of_positive r Hpos). apply zero_below_rounded.
    + rewrite (delay_of_zero r) by lra. reflexivity.
  - rewrite leb_Finite in Hle. apply Qle_bool_iff in Hle.
    destruct (Qlt_le_dec 0 r) as [Hpos | Hzero].
    + assert (Htpos : 0 < t) by lra.
      rewrite (delay_of_positive r Hpos), (delay_of_positive t Htpos).
      apply roundMagnitude_monotone.
      apply quotient_antitone; [reflexivity | exact Hpos | exact Hle].
    + rewrite (delay_of_zero r) by lra.
      destruct (Qlt_le_dec 0 t) as [Htpos | Htzero].
      * rewrite (delay_of_positive t Htpos). apply rounded_below_infinity.
      * rewrite (delay_of_zero t) by lra. reflexivity.
Qed.

Lemma ltb_Finite (p q : Q) : ltb (Finite p) (Finite q) = true <-> p < q.
Proof.
  simpl. rewrite negb_true_iff. split.
  - intros H. apply Qnot_le_lt. intros Hle. apply Qle_bool_iff in Hle. congruence.
  - intros H. destruct (Qle_bool q p) eqn:E; [| reflexivity].
    apply Qle_bool_iff in E. lra.
Qed.

Theorem wpmToMsPerChar_monotone (wpm1 wpm2 : double) :
  ltb (ofZ 0) wpm1 = true -> ltb wpm1 wpm2 = true ->
  leb (wpmToMsPerChar wpm2) (wpmToMsPerChar wpm1) = true.
Proof.
  intros H1 H12. unfold wpmToMsPerChar.
  destruct (above_zero wpm1 H1) as [(q1 & -> & Hq1) | ->];
    [| destruct wpm2 as [q2 | | [] |]; discriminate H12].
  rewrite (charsPerMinute_positive q1 Hq1).
  destruct wpm2 as [q2 | | [] |]; try discriminate H12.
  - apply ltb_Finite in H12.
    rewrite (charsPerMinute_positive q2) by lra.
    apply delay_antitone. lra.
  - exfalso. simpl in H12. apply negb_true_iff in H12.
    assert (Hq : Qle_bool 0 q1 = true) by (apply Qle_bool_iff; lra). congruence.
  - change (mul (Infinity false) (ofZ 6)) with (Infinity false).
    rewrite delay_of_infinity.
    destruct (roundMagnitude_cases (q1 * 6)) as [(_ & _ & ->) | (r & -> & Hr & _)].
    + reflexivity.
    + destruct (Qlt_le_dec 0 r) as [Hpos | Hzero].
      * rewrite (delay_of_positive r Hpos). apply zero_below_rounded.
      * rewrite (delay_of_zero r) by lra. reflexivity.
Qed.

(** A magnitude in the normal range that rounding keeps below the
    overflow threshold gives a finite double within one part in 2^53. *)
Lemma rounded_normal (x : Q) :
  pow2 (-1022) <= x -> (1 + halfUlp) * x < pow2 1024 ->
  exists r, roundMagnitude false x = Finite r
            /\ (1 - halfUlp) * x <= r /\ r <= (1 + halfUlp) * x.
Proof.
  intros Hnormal Hbelow.
  assert (Hx : 0 < x) by (eapply Qlt_le_trans; [apply (pow2_pos (-1022)) | exact Hnormal]).
  destruct (nearest_error x Hnormal) as [Hlo Hhi].
  destruct (roundMagnitude_cases x) as [(_ & Hover & _) | (r & E & _ & _ & Hr)].
  - exfalso. lra.
  - destruct (Hr Hx) as [Er _]. exists r. split; [exact E |]. split; lra.
Qed.

(** The least relative distance of two rates that is sure to separate
    their delays: 2^-50. *)
Definition gap : Q := 1 # 1125899906842624.

Lemma quotient_strict (k a b r t : Q) :
  0 < k -> 0 < r -> 0 < t -> a * r < b * t -> a * (k / t) < b * (k / r).
Proof.
  intros Hk Hr Ht H.
  assert (E1 : a * (k / t) == (a * r) * (k / (r * t))) by (field; lra).
  assert (E2 : b * (k / r) == (b * t) * (k / (r * t))) by (field; lra).
  rewrite E1, E2. apply Qmult_lt_compat_r; [| exact H].
  apply Qlt_shift_div_l.
  - apply Qmult_lt_0_compat; assumption.
  - rewrite Qmult_0_l. exact Hk.
Qed.

Lemma quotient_le (k a b r t : Q) :
  0 < k -> 0 < r -> 0 < t -> a * r <= b * t -> a * (k / t) <= b * (k / r).
Proof.
  intros Hk Hr Ht H.
  assert (E1 : a * (k / t) == (a * r) * (k / (r * t))) by (field; lra).
  assert (E2 : b * (k / r) == (b * t) * (k / (r * t))) by (field; lra).
  rewrite E1, E2. apply Qmult_le_compat_r; [exact H |].
  apply Qlt_le_weak, Qlt_shift_div_l.
  - apply Qmult_lt_0_compat; assumption.
  - rewrite Qmult_0_l. exact Hk.
Qed.

(** For a rate between 2^-1000 and 2^1000 neither operation leaves the
    normal range: the characters per minute [r] and the delay [s] are
    each within one part in 2^53 of what they round. *)
Lemma wpmToMsPerChar_rounding (q : Q) :
  pow2 (-1000) <= q -> q <= pow2 1000 ->
  exists r s,
    0 < r /\ (1 - halfUlp) * (q * 6) <= r /\ r <= (1 + halfUlp) * (q * 6)
    /\ wpmToMsPerChar (Finite q) = Finite s
    /\ (1 - halfUlp) * (60000 / r) <= s /\ s <= (1 + halfUlp) * (60000 / r).
Proof.
  intros Hlow Hhigh.
  pose proof (pow2_pos 1000) as HP. pose proof (pow2_pos (-1000)) as HL.
  assert (F1 : pow2 1024 == 16777216 * pow2 1000)
    by (change 1024%Z with (24 + 1000)%Z; rewrite pow2_plus; reflexivity).
  assert (F2 : pow2 (-1022) == (1 # 4194304) * pow2 (-1000))
    by (change (-1022)%Z with (-22 + -1000)%Z; rewrite pow2_plus; reflexivity).
  assert (F3 : pow2 1000 * pow2 (-1000) == 1)
    by (rewrite <- pow2_plus; reflexivity).
  set (P := pow2 1000) in *. set (L := pow2 (-1000)) in *.
  assert (Hq : 0 < q) by lra.
  unfold wpmToMsPerChar.
  rewrite (charsPerMinute_positive q) by lra.
  destruct (rounded_normal (q * 6)) as (r & -> & Hrlo & Hrhi);
    [rewrite F2; lra | rewrite F1; unfold halfUlp; lra |].
  exists r.
  assert (Hr : 0 < r) by (unfold halfUlp in Hrlo; lra).
  assert (Hlo : 3 * L <= r) by (unfold halfUlp in Hrlo; lra).
  assert (Hhi : r <= 7 * P) by (unfold halfUlp in Hrhi; lra).
  rewrite (delay_of_positive r Hr).
  destruct (rounded_normal (60000 / r)) as (s & -> & Hslo & Hshi).
  - apply Qle_shift_div_l; [exact Hr |]. rewrite F2.
    apply Qle_trans with ((1 # 4194304) * L * (7 * P)).
    + apply Qmult_le_l; [lra | exact Hhi].
    + assert (E : (1 # 4194304) * L * (7 * P) == (7 # 4194304) * (P * L)) by ring.
      rewrite E, F3. discriminate.
  - assert (Hbound : 60000 / r <= 20000 * P).
    { apply Qle_shift_div_r; [exact Hr |].
      apply Qle_trans with (20000 * P * (3 * L)).
      - assert (E : 20000 * P * (3 * L) == 60000 * (P * L)) by ring.
        rewrite E, F3. discriminate.
      - apply Qmult_le_l; [lra | exact Hlo]. }
    rewrite F1. unfold halfUlp. lra.
  - exists s. repeat split; assumption.
Qed.

(** Two rates in that range a factor [1 + gap] apart have different
    delays. *)
Lemma wpmToMsPerChar_separates (q1 q2 : Q) :
  pow2 (-1000) <= q1 -> q2 <= pow2 1000 -> (1 + gap) * q1 <= q2 ->
  ltb (wpmToMsPerChar (Finite q2)) (wpmToMsPerChar (Finite q1)) = true.
Proof.
  intros Hlow Hhigh Hgap.
  pose proof (pow2_pos (-1000)) as HL.
  assert (Hq12 : q1 <= q2) by (unfold gap in Hgap; lra).
  destruct (wpmToMsPerChar_rounding q1) as (r1 & s1 & Hr1 & Hr1lo & Hr1hi & -> & Hs1lo & _);
    [lra | lra |].
  destruct (wpmToMsPerChar_rounding q2) as (r2 & s2 & Hr2 & Hr2lo & Hr2hi & -> & _ & Hs2hi);
    [lra | lra |].
  apply ltb_Finite.
  eapply Qle_lt_trans; [exact Hs2hi |]. eapply Qlt_le_trans; [| exact Hs1lo].
  apply quotient_strict; [reflexivity | exact Hr1 | exact Hr2 |].
  unfold halfUlp, gap in *. lra.
Qed.

(** The distance of the delay from the exact quotient: one part in 2^51. *)
Definition tolerance : Q := 1 # 2251799813685248.

Lemma wpmToMsPerChar_accurate (q : Q) :
  pow2 (-1000) <= q -> q <= pow2 1000 ->
  exists s, wpmToMsPerChar (Finite q) = Finite s
            /\ (1 - tolerance) * (60000 / (q * 6)) <= s
            /\ s <= (1 + tolerance) * (60000 / (q * 6)).
Proof.
  intros Hlow Hhigh.
  pose proof (pow2_pos (-1000)) as HL.
  destruct (wpmToMsPerChar_rounding q Hlow Hhigh)
    as (r & s & Hr & Hrlo & Hrhi & E & Hslo & Hshi).
  assert (Hq6 : 0 < q * 6) by lra.
  exists s. split; [exact E |]. split.
  - eapply Qle_trans; [| exact Hslo].
    apply quotient_le; [reflexivity | exact Hr | exact Hq6 |].
    unfold halfUlp, tolerance in *. lra.
  - eapply Qle_trans; [exact Hshi |].
    apply quotient_le; [reflexivity | exact Hq6 | exact Hr |].
    unfold halfUlp, tolerance in *. lra.
Qed.

(** A whole number below 2^53 is a double. *)
Lemma nearest_integer (z : Z) :
  (0 < z < 2 ^ 53)%Z -> nearest (inject_Z z) == inject_Z z.
Proof.
  intros [Hpos Hsmall].
  destruct (Z.log2_spec z Hpos) as [Hk1 Hk2].
  assert (Hk0 : (0 <= Z.log2 z)%Z) by apply Z.log2_nonneg.
  assert (Hk : (Z.log2 z < 53)%Z) by (apply Z.log2_lt_pow2; assumption).
  assert (Elog : ilog2 (inject_Z z) = Z.log2 z).
  { apply ilog2_unique.
    - rewrite pow2_Z by exact Hk0. rewrite <- Zle_Qle. exact Hk1.
    - rewrite pow2_Z by lia. rewrite <- Zlt_Qlt. unfold Z.succ in Hk2. exact Hk2. }
  unfold nearest, ulpExponent. rewrite Elog.
  replace (Z.max (Z.log2 z - 52) (-1074)) with (Z.log2 z - 52)%Z by lia.
  set (k := Z.log2 z) in *.
  assert (Eback : pow2 (52 - k) * pow2 (k - 52) == 1).
  { rewrite <- pow2_plus. replace (52 - k + (k - 52))%Z with 0%Z by ring. reflexivity. }
  assert (Einv : / pow2 (k - 52) == pow2 (52 - k)).
  { pose proof (pow2_pos (k - 52)).
    apply (Qmult_inj_r _ _ (pow2 (k - 52))); [lra |].
    rewrite Eback, Qmult_comm. apply Qmult_inv_r. lra. }
  assert (Ewhole : inject_Z (z * 2 ^ (52 - k)) == inject_Z z * pow2 (52 - k)).
  { rewrite inject_Z_mult. rewrite (pow2_Z (52 - k)) by lia. reflexivity. }
  assert (Escaled : inject_Z z / pow2 (k - 52) == inject_Z (z * 2 ^ (52 - k))).
  { rewrite Ewhole. unfold Qdiv. rewrite Einv. reflexivity. }
  rewrite (roundHalfEven_comp _ _ Escaled), roundHalfEven_Z.
  rewrite Ewhole, <- Qmult_assoc, Eback. ring.
Qed.

(** For a whole-number rate up to 2^50 the characters per minute are
    exact, so the delay is the double nearest to the exact quotient. *)
Lemma wpmToMsPerChar_whole (n : Z) :
  (1 <= n <= 2 ^ 50)%Z ->
  wpmToMsPerChar (ofZ n) = roundMagnitude false (60000 / (inject_Z n * 6)).
Proof.
  intros Hn. unfold wpmToMsPerChar. change (ofZ n) with (Finite (inject_Z n)).
  assert (Hq : 0 < inject_Z n) by (change 0 with (inject_Z 0); rewrite <- Zlt_Qlt; lia).
  rewrite (charsPerMinute_positive (inject_Z n) Hq).
  assert (E6 : inject_Z n * 6 == inject_Z (n * 6)) by (rewrite inject_Z_mult; reflexivity).
  rewrite (roundMagnitude_comp false _ _ E6).
  assert (Hexact : nearest (inject_Z (n * 6)) == inject_Z (n * 6)).
  { apply nearest_integer. change (2 ^ 53)%Z with (2 ^ 50 * 8)%Z. lia. }
  assert (Hpos : 0 < inject_Z (n * 6))
    by (change 0 with (inject_Z 0); rewrite <- Zlt_Qlt; lia).
  destruct (roundMagnitude_cases (inject_Z (n * 6))) as [(_ & Hover & _) | (r & -> & _ & _ & Hr)].
  - exfalso. rewrite Hexact in Hover.
    assert (Hlt : inject_Z (n * 6) < pow2 1024).
    { rewrite (pow2_Z 1024) by lia. rewrite <- Zlt_Qlt.
      apply Z.lt_le_trans with (2 ^ 53)%Z.
      - change (2 ^ 53)%Z with (2 ^ 50 * 8)%Z. lia.
      - apply Z.pow_le_mono_r; lia. }
    lra.
  - destruct (Hr Hpos) as [Er _]. rewrite Hexact in Er.
    assert (Hrpos : 0 < r) by lra.
    rewrite (delay_of_positive r Hrpos). apply roundMagnitude_comp.
    rewrite Er, <- E6. reflexivity.
Qed.

Lemma wpmToMsPerChar_whole_strict (n m : Z) :
  (1 <= n)%Z -> (n < m)%Z -> (m <= 2 ^ 50)%Z ->
  ltb (wpmToMsPerChar (ofZ m)) (wpmToMsPerChar (ofZ n)) = true.
Proof.
  intros Hn Hnm Hm. unfold ofZ. apply wpmToMsPerChar_separates.
  - apply Qle_trans with 1.
    + change 1 with (pow2 0). apply pow2_le. lia.
    + change 1 with (inject_Z 1). rewrite <- Zle_Qle. exact Hn.
  - apply Qle_trans with (pow2 50).
    + rewrite (pow2_Z 50) by lia. rewrite <- Zle_Qle. exact Hm.
    + apply pow2_le. lia.
  - assert (H1 : inject_Z n + 1 <= inject_Z m).
    { change 1 with (inject_Z 1). rewrite <- inject_Z_plus, <- Zle_Qle. lia. }
    assert (H2 : inject_Z n <= inject_Z (2 ^ 50)) by (rewrite <- Zle_Qle; lia).
    change (inject_Z (2 ^ 50)) with (1125899906842624 # 1) in H2.
    unfold gap. lra.
Qed.


(** The exact quotient the typing loop is run with is that close to the
    double. *)
Lemma exact_base_delay_is_close (q : Q) :
  pow2 (-1000) <= q -> q <= pow2 1000 ->
  exists s, wpmToMsPerChar (Finite q) = Finite s
            /\ (1 - tolerance) * Typer.wpmToMsPerChar q <= s
            /\ s <= (1 + tolerance) * Typer.wpmToMsPerChar q.
Proof.
  exact (wpmToMsPerChar_accurate q).
Qed.

(** A positive rate never gives a negative delay or NaN. *)
Lemma wpmToMsPerChar_nonneg (wpm : double) :
  ltb (ofZ 0) wpm = true -> leb (ofZ 0) (wpmToMsPerChar wpm) = true.
Proof.
  intros H. unfold wpmToMsPerChar.
  destruct (above_zero wpm H) as [(q & -> & Hq) | ->]; [| reflexivity].
  rewrite (charsPerMinute_positive q Hq).
  destruct (roundMagnitude_cases (q * 6)) as [(_ & _ & ->) | (r & -> & Hr & _)];
    [reflexivity |].
  destruct (Qlt_le_dec 0 r) as [Hpos | Hzero].
  - rewrite (delay_of_positive r Hpos). apply zero_below_rounded.
  - rewrite (delay_of_zero r) by lra. reflexivity.
Qed.

(** 124.25 words per minute and the next double above it. *)
Definition slower : double := Finite (497 # 4).
Definition faster : double := Finite ((497 # 4) + pow2 (-46)).

(** C5, as the engine's arithmetic has it.  The base delay is
    60000 / (wpm * 6) with the product and the quotient each rounded to the
    nearest double: for a rate between 2^-1000 and 2^1000 it is a finite
    double within one part in 2^51 of the exact quotient, and for a
    whole-number rate up to 2^50 it is the double nearest to the exact
    quotient; for every positive rate it is a double that is not negative.
    It never increases with the rate: for all doubles wpm2 > wpm1 > 0 the
    delay at wpm2 is at most the delay at wpm1.  It is strictly smaller
    whenever wpm2 >= wpm1 * (1 + 2^-50) with both rates between 2^-1000 and
    2^1000, in particular for two different whole-number rates up to 2^50. *)
Theorem wpmToMsPerChar_nonincreasing :
  (forall q, pow2 (-1000) <= q -> q <= pow2 1000 ->
     exists s, wpmToMsPerChar (Finite q) = Finite s
               /\ (1 - tolerance) * (60000 / (q * 6)) <= s
               /\ s <= (1 + tolerance) * (60000 / (q * 6))) /\
  (forall n, (1 <= n <= 2 ^ 50)%Z ->
     wpmToMsPerChar (ofZ n) = roundMagnitude false (60000 / (inject_Z n * 6))) /\
  (forall wpm, ltb (ofZ 0) wpm = true -> leb (ofZ 0) (wpmToMsPerChar wpm) = true) /\
  (forall wpm1 wpm2, ltb (ofZ 0) wpm1 = true -> ltb wpm1 wpm2 = true ->
     leb (wpmToMsPerChar wpm2) (wpmToMsPerChar wpm1) = true) /\
  (forall q1 q2, pow2 (-1000) <= q1 -> q2 <= pow2 1000 -> (1 + gap) * q1 <= q2 ->
     ltb (wpmToMsPerChar (Finite q2)) (wpmToMsPerChar (Finite q1)) = true) /\
  (forall n m, (1 <= n)%Z -> (n < m)%Z -> (m <= 2 ^ 50)%Z ->
     ltb (wpmToMsPerChar (ofZ m)) (wpmToMsPerChar (ofZ n)) = true).
Proof.
  split; [exact wpmToMsPerChar_accurate |].
  split; [exact wpmToMsPerChar_whole |].
  split; [exact wpmToMsPerChar_nonneg |].
  split; [exact wpmToMsPerChar_monotone |].
  split; [exact wpmToMsPerChar_separates | exact wpmToMsPerChar_whole_strict].
Qed.

(** 45 and 60 words per minute, and the two rates next to 124.25. *)
Lemma wpmToMsPerChar_nonincreasing_witness :
  (exists s, wpmToMsPerChar (Finite 60) = Finite s
             /\ (1 - tolerance) * (60000 / (60 * 6)) <= s
             /\ s <= (1 + tolerance) * (60000 / (60 * 6)))
  /\ wpmToMsPerChar (ofZ 60) = Finite (5864062014805333 # 35184372088832)
  /\ leb (ofZ 0) (wpmToMsPerChar slower) = true
  /\ leb (wpmToMsPerChar faster) (wpmToMsPerChar slower) = true
  /\ ltb (wpmToMsPerChar (Finite 60)) (wpmToMsPerChar (Finite 45)) = true
  /\ ltb (wpmToMsPerChar (ofZ 60)) (wpmToMsPerChar (ofZ 45)) = true.
Proof.
  destruct wpmToMsPerChar_nonincreasing as (Hvalue & Hwhole & Hsign & Hweak & Hgap & Hstrict).
  split; [| split; [| split; [| split; [| split]]]].
  - apply (Hvalue 60); vm_compute; discriminate.
  - rewrite (Hwhole 60%Z) by (vm_compute; split; discriminate). vm_compute. reflexivity.
  - apply (Hsign slower). vm_compute. reflexivity.
  - apply (Hweak slower faster); vm_compute; reflexivity.
  - apply (Hgap 45 60); vm_compute; discriminate.
  - apply (Hstrict 45%Z 60%Z); vm_compute; solve [reflexivity | discriminate].
Defined.

(** C5 as stated fails on doubles: 124.25 and 124.25 + 2^-46 are both
    doubles, the second is the higher rate, and the two delays are the
    same double, 80.482897384305829. *)
Lemma close_rates_share_a_delay :
  representable slower = true /\ representable faster = true
  /\ ltb (ofZ 0) slower = true /\ ltb slower faster = true
  /\ wpmToMsPerChar slower = Finite (707935052089175 # 8796093022208)
  /\ wpmToMsPerChar faster = Finite (707935052089175 # 8796093022208)
  /\ ltb (wpmToMsPerChar faster) (wpmToMsPerChar slower) = false.
Proof.
  repeat split; vm_compute; reflexivity.
Qed.

(** The rate 0 gives the positive infinity. *)
Lemma wpmToMsPerChar_zero : wpmToMsPerChar (ofZ 0) = Infinity false.
Proof.
  reflexivity.
Qed.

End BaseDelay.

(** ** The double arithmetic against the Standard Library's binary64 *)

Section AgainstSpecFloat.
Import JsDouble.

Definition ofSpec (f : spec_float) : double :=
  match f with
  | S754_zero negative => if negative then NegativeZero else Finite 0
  | S754_infinity negative => Infinity negative
  | S754_nan => NaN
  | S754_finite negative m e =>
      Finite (Qred ((if negative then -1 else 1) * inject_Z (Zpos m) * pow2 e))
  end.

Definition same (x y : double) : bool :=
  match x, y with
  | Finite p, Finite q => Qeq_bool p q
  | NegativeZero, NegativeZero => true
  | Infinity a, Infinity b => Bool.eqb a b
  | NaN, NaN => true
  | _, _ => false
  end.

Definition binary64 (m e : Z) : spec_float := binary_normalize 53 1024 m e false.

(** [wpmToMsPerChar] computed here and with [SFmul] and [SFdiv] gives the
    same double. *)
Definition agrees (w : spec_float) : bool :=
  same (wpmToMsPerChar (ofSpec w))
       (ofSpec (SFdiv 53 1024 (binary64 60000 0) (SFmul 53 1024 w (binary64 6 0)))).

Definition exponents : list Z :=
  [-1100; -1080; -1074; -1060; -1030; -1022; -500; -60; -46; -3; 0; 10; 500; 960; 990;
   1000; 1005; 1008; 1010; 1011; 1020]%Z.

(** The two agree on the whole rates below 2000, on odd significands
    across the exponent range (subnormal results and overflow included),
    on their negatives, and on the zeros, the infinities and NaN. *)
Lemma agrees_with_SpecFloat :
  forallb (fun n => agrees (binary64 (Z.of_nat n) 0)) (seq 0 2000) = true
  /\ forallb (fun e =>
       forallb (fun n => agrees (binary64 (Z.of_nat n * 7919 + 1) e)
                         && agrees (SFopp (binary64 (Z.of_nat n * 7919 + 1) e)))%bool
               (seq 1 4))
       exponents = true
  /\ forallb agrees [S754_zero false; S754_zero true; S754_infinity false;
                     S754_infinity true; S754_nan] = true.
Proof.
  split; [| split]; vm_compute; reflexivity.
Qed.

End AgainstSpecFloat.

(** ** Strings: trimming, prefixes and substrings *)

Section Strings.

Definition chars (s : string) : list ascii := list_ascii_of_string s.

(** A string that is empty or starts with a character that is kept. *)
Definition cleanStart (s : string) : Prop :=
  match s with
  | EmptyString => True
  | String c _ => isWhiteSpace c = false
  end.

Lemma trimStart_cleanStart (s : string) : cleanStart (trimStart s).
Proof.
  induction s as [| c s IH]; simpl; [exact I |].
  destruct (isWhiteSpace c) eqn:E; [exact IH | exact E].
Qed.

Lemma trimStart_fixed (s : string) : cleanStart s -> trimStart s = s.
Proof.
  destruct s as [| c s]; simpl; [reflexivity |].
  intros ->. reflexivity.
Qed.

Lemma trimEnd_cleanStart (s : string) : cleanStart s -> cleanStart (trimEnd s).
Proof.
  destruct s as [| c s]; simpl; [trivial |].
  intros E. rewrite E. destruct (trimEnd s); exact E.
Qed.

Lemma trimEnd_idempotent (s : string) : trimEnd (trimEnd s) = trimEnd s.
Proof.
  induction s as [| c s IH]; simpl; [reflexivity |].
  destruct (trimEnd s) as [| d t] eqn:E.
  - destruct (isWhiteSpace c) eqn:W; simpl; [reflexivity | rewrite W; reflexivity].
  - change (trimEnd (String c (String d t))) with
      (match trimEnd (String d t) with
       | EmptyString => if isWhiteSpace c then EmptyString else String c EmptyString
       | u => String c u
       end).
    rewrite IH. reflexivity.
Qed.

Lemma trim_idempotent (s : string) : trim (trim s) = trim s.
Proof.
  unfold trim.
  rewrite (trimStart_fixed (trimEnd (trimStart s))).
  - apply trimEnd_idempotent.
  - apply trimEnd_cleanStart, trimStart_cleanStart.
Qed.

Lemma trimEnd_append (s t : string) :
  trimEnd t <> EmptyString -> trimEnd (s ++ t) = s ++ trimEnd t.
Proof.
  intros Ht. induction s as [| c s IH]; simpl; [reflexivity |].
  rewrite IH. destruct (s ++ trimEnd t) eqn:E; [| reflexivity].
  destruct s; simpl in E; [contradiction | discriminate].
Qed.

Lemma prefix_append (p s : string) : String.prefix p (p ++ s) = true.
Proof.
  induction p as [| c p IH]; simpl.
  - destruct s; reflexivity.
  - destruct (ascii_dec c c) as [_ | N]; [exact IH | contradiction].
Qed.

Lemma prefix_chars (p s : string) (c : ascii) :
  String.prefix p s = true -> In c (chars p) -> In c (chars s).
Proof.
  revert s. induction p as [| a p IH]; intros s Hp Hin; [contradiction |].
  destruct s as [| b s]; simpl in Hp; [discriminate |].
  destruct (ascii_dec a b) as [-> | _]; [| discriminate].
  destruct Hin as [-> | Hin]; [left; reflexivity | right; apply IH; assumption].
Qed.

Lemma includes_chars (s p : string) (c : ascii) :
  includes s p = true -> In c (chars p) -> In c (chars s).
Proof.
  induction s as [| a s IH]; simpl; intros H Hin.
  - rewrite orb_false_r in H. destruct p; [contradiction | discriminate].
  - apply orb_true_iff in H. destruct H as [H | H].
    + exact (prefix_chars p (String a s) c H Hin).
    + right. apply IH; assumption.
Qed.

Lemma classRun_all (cls : ascii -> bool) (s : string) :
  (forall c, In c (chars s) -> cls c = true) ->
  classRun cls s = (String.length s, EmptyString).
Proof.
  induction s as [| a s IH]; simpl; intros H; [reflexivity |].
  rewrite (H a (or_introl eq_refl)), IH; [reflexivity |].
  intros c Hc. apply H. right. exact Hc.
Qed.

Lemma classRun_end (cls : ascii -> bool) (s : string) (k : nat) :
  classRun cls s = (k, EmptyString) ->
  k = String.length s /\ forall c, In c (chars s) -> cls c = true.
Proof.
  revert k. induction s as [| a s IH]; simpl; intros k H.
  - injection H as <-. split; [reflexivity | intros c []].
  - destruct (cls a) eqn:E; [| discriminate].
    destruct (classRun cls s) as [k' rest]. injection H as <- ->.
    destruct (IH k' eq_refl) as [-> Hall]. split; [reflexivity |].
    intros c [<- | Hc]; [exact E | exact (Hall c Hc)].
Qed.

Lemma testClassAtLeast_spec (cls : ascii -> bool) (min : nat) (s : string) :
  testClassAtLeast cls min s = true <->
  (min <= String.length s /\ forall c, In c (chars s) -> cls c = true).
Proof.
  unfold testClassAtLeast. split.
  - destruct (classRun cls s) as [k rest] eqn:E.
    rewrite andb_true_iff, Nat.leb_le. intros [Hk Hr].
    destruct rest; [| discriminate].
    destruct (classRun_end cls s k E) as [-> Hall]. split; assumption.
  - intros [Hlen Hall]. rewrite (classRun_all cls s Hall).
    rewrite andb_true_iff, Nat.leb_le. split; [assumption | reflexivity].
Qed.

End Strings.

(** ** Target normalisation *)

Section NormalizeDocUrl.
Import Agent.

(** A bare token: at least 20 characters, each a letter, a digit, an
    underscore or a hyphen. *)
Definition bareToken (u : string) : Prop :=
  20 <= String.length u /\
  forall c, In c (chars u) ->
    isAsciiLower c = true \/ isAsciiUpper c = true \/ isDigit c = true
    \/ c = "_"%char \/ c = "-"%char.

(** Already canonical: begins with the document prefix or mentions the
    document host and path. *)
Definition canonical (u : string) : Prop :=
  startsWith u docPrefix = true \/ includes u docMarker = true.

Lemma idChar_spec (c : ascii) :
  idChar c = true <->
  (isAsciiLower c = true \/ isAsciiUpper c = true \/ isDigit c = true
   \/ c = "_"%char \/ c = "-"%char).
Proof.
  unfold idChar. rewrite !orb_true_iff, !Ascii.eqb_eq. tauto.
Qed.

Lemma bareToken_test (u : string) :
  testClassAtLeast idChar 20 u = true <-> bareToken u.
Proof.
  rewrite testClassAtLeast_spec. unfold bareToken.
  split; intros [Hlen Hall]; (split; [exact Hlen |]);
    intros c Hc; apply idChar_spec, Hall, Hc.
Qed.

Lemma bareToken_not_canonical (u : string) : bareToken u -> ~ canonical u.
Proof.
  intros Htok Hcan.
  apply bareToken_test, testClassAtLeast_spec in Htok. destruct Htok as [_ Hall].
  assert (Hdot : In "."%char (chars u)).
  { destruct Hcan as [H | H].
    - apply (prefix_chars docPrefix u); [exact H | vm_compute; tauto].
    - apply (includes_chars u docMarker); [exact H | vm_compute; tauto]. }
  specialize (Hall _ Hdot). discriminate Hall.
Qed.

Lemma canonical_dec (u : string) : {canonical u} + {~ canonical u}.
Proof.
  unfold canonical.
  destruct (startsWith u docPrefix); [left; left; reflexivity |].
  destruct (includes u docMarker); [left; right; reflexivity |].
  right. intros [H | H]; discriminate H.
Defined.

Lemma bareToken_dec (u : string) : {bareToken u} + {~ bareToken u}.
Proof.
  destruct (testClassAtLeast idChar 20 u) eqn:E.
  - left. apply bareToken_test, E.
  - right. intros H. apply bareToken_test in H. congruence.
Defined.

Lemma normalize_canonical (url : string) :
  canonical (trim url) -> normalizeDocUrl url = trim url.
Proof.
  unfold normalizeDocUrl. intros [H | H]; rewrite H; [reflexivity |].
  destruct (startsWith (trim url) docPrefix); reflexivity.
Qed.

Lemma normalize_token (url : string) :
  bareToken (trim url) ->
  normalizeDocUrl url = (docPrefix ++ trim url ++ "/edit")%string.
Proof.
  intros Htok. pose proof (bareToken_not_canonical _ Htok) as Hn.
  unfold canonical in Hn. unfold normalizeDocUrl.
  destruct (startsWith (trim url) docPrefix); [exfalso; tauto |].
  destruct (includes (trim url) docMarker); [exfalso; tauto |].
  rewrite (proj2 (bareToken_test _) Htok). reflexivity.
Qed.

Lemma normalize_other (url : string) :
  ~ canonical (trim url) -> ~ bareToken (trim url) ->
  normalizeDocUrl url = trim url.
Proof.
  intros Hn Htok. unfold canonical in Hn. unfold normalizeDocUrl.
  destruct (startsWith (trim url) docPrefix); [reflexivity |].
  destruct (includes (trim url) docMarker); [reflexivity |].
  destruct (testClassAtLeast idChar 20 (trim url)) eqn:E; [| reflexivity].
  exfalso. apply Htok, bareToken_test, E.
Qed.

Lemma expanded_is_trimmed (u : string) :
  trim (docPrefix ++ u ++ "/edit") = (docPrefix ++ u ++ "/edit")%string.
Proof.
  unfold trim. rewrite trimStart_fixed by reflexivity.
  rewrite trimEnd_append.
  - f_equal. apply trimEnd_append. discriminate.
  - rewrite trimEnd_append by discriminate.
    destruct u; discriminate.
Qed.

(** C9: the input is trimmed; a trimmed identifier that is already
    canonical is returned as it is, a bare token is wrapped between the
    document prefix and "/edit", and anything else is returned as it is. *)
Theorem normalizeDocUrl_cases (url : string) :
  let u := trim url in
  (canonical u -> normalizeDocUrl url = u) /\
  (bareToken u -> normalizeDocUrl url = (docPrefix ++ u ++ "/edit")%string) /\
  (~ canonical u -> ~ bareToken u -> normalizeDocUrl url = u).
Proof.
  intros u. split; [| split].
  - apply normalize_canonical.
  - apply normalize_token.
  - apply normalize_other.
Qed.

(** A padded canonical URL, a padded 20-character token, and a short word. *)
Lemma normalizeDocUrl_cases_witness :
  normalizeDocUrl "  https://docs.google.com/document/d/abc/edit  "
    = "https://docs.google.com/document/d/abc/edit"
  /\ normalizeDocUrl " 1a2b3c4d5e6f7g8h9i0j "
    = "https://docs.google.com/document/d/1a2b3c4d5e6f7g8h9i0j/edit"
  /\ normalizeDocUrl " my essay " = "my essay".
Proof.
  split; [| split].
  - apply (proj1 (normalizeDocUrl_cases
             "  https://docs.google.com/document/d/abc/edit  ")).
    left. reflexivity.
  - apply (proj1 (proj2 (normalizeDocUrl_cases " 1a2b3c4d5e6f7g8h9i0j "))).
    apply bareToken_test. reflexivity.
  - apply (proj2 (proj2 (normalizeDocUrl_cases " my essay "))).
    + intros [H | H]; discriminate H.
    + intros H. apply bareToken_test in H. discriminate H.
Defined.

(** C10: normalising twice is normalising once; the URL built from a bare
    token begins with the document prefix and is therefore kept by a second
    normalisation. *)
Theorem normalizeDocUrl_idempotent (url : string) :
  normalizeDocUrl (normalizeDocUrl url) = normalizeDocUrl url
  /\ (bareToken (trim url) ->
      startsWith (normalizeDocUrl url) docPrefix = true).
Proof.
  split.
  - destruct (canonical_dec (trim url)) as [Hc | Hc].
    + rewrite (normalize_canonical url Hc).
      rewrite normalize_canonical; rewrite trim_idempotent; [reflexivity | exact Hc].
    + destruct (bareToken_dec (trim url)) as [Ht | Ht].
      * rewrite (normalize_token url Ht).
        rewrite normalize_canonical; rewrite expanded_is_trimmed; [reflexivity |].
        left. apply prefix_append.
      * rewrite (normalize_other url Hc Ht).
        rewrite normalize_other; rewrite trim_idempotent; [reflexivity | exact Hc | exact Ht].
  - intros Htok. rewrite (normalize_token url Htok). apply prefix_append.
Qed.

(** A padded 20-character token: expanded once, kept afterwards. *)
Lemma normalizeDocUrl_idempotent_witness :
  normalizeDocUrl (normalizeDocUrl " 1a2b3c4d5e6f7g8h9i0j ")
    = normalizeDocUrl " 1a2b3c4d5e6f7g8h9i0j "
  /\ startsWith (normalizeDocUrl " 1a2b3c4d5e6f7g8h9i0j ") docPrefix = true.
Proof.
  split.
  - apply (proj1 (normalizeDocUrl_idempotent " 1a2b3c4d5e6f7g8h9i0j ")).
  - apply (proj2 (normalizeDocUrl_idempotent " 1a2b3c4d5e6f7g8h9i0j ")).
    apply bareToken_test. reflexivity.
Defined.

End NormalizeDocUrl.

(** ** The typing engine: one character *)

Section TypingOneCharacter.
Import Typer.
Local Open Scope list_scope.

(** *** Taking a computation apart *)

Lemma bind_inv {A B} (m : M A) (f : A -> M B) env c r c2 log :
  bind m f env c = (r, c2, log) ->
  (exists a c1 l1 l2,
      m env c = (Returned a, c1, l1) /\ f a env c1 = (r, c2, l2) /\ log = l1 ++ l2)
  \/ (exists e, m env c = (Threw e, c2, log) /\ r = Threw e)
  \/ (m env c = (Hung, c2, log) /\ r = Hung).
Proof.
  unfold bind. destruct (m env c) as [[[a | e |] c1] l1].
  - destruct (f a env c1) as [[r' c2'] l2] eqn:E. intros H. injection H as <- <- <-.
    left. exists a, c1, l1, l2. auto.
  - intros H. injection H as <- <- <-. right. left. exists e. auto.
  - intros H. injection H as <- <- <-. right. right. auto.
Qed.

Lemma bind_returned {A B} (m : M A) (f : A -> M B) env c (b : B) c2 log :
  bind m f env c = (Returned b, c2, log) ->
  exists a c1 l1 l2,
    m env c = (Returned a, c1, l1) /\ f a env c1 = (Returned b, c2, l2) /\ log = l1 ++ l2.
Proof.
  intros H. apply bind_inv in H. destruct H as [H | [(e & _ & H) | [_ H]]];
    [exact H | discriminate H | discriminate H].
Qed.

Lemma bind_run {A B} (m : M A) (f : A -> M B) env c a c1 l1 :
  m env c = (Returned a, c1, l1) ->
  bind m f env c = (let '(r, c2, l2) := f a env c1 in (r, c2, l1 ++ l2)).
Proof.
  intros H. unfold bind. rewrite H. reflexivity.
Qed.

Definition isSleep (e : Event) : bool :=
  match e with
  | Sleep _ => true
  | _ => false
  end.

(** A stretch of the log in which the engine only waits. *)
Definition waiting (log : list Event) : Prop := forallb isSleep log = true.

Lemma waiting_app (l1 l2 : list Event) : waiting l1 -> waiting l2 -> waiting (l1 ++ l2).
Proof.
  unfold waiting. rewrite forallb_app. intros -> ->. reflexivity.
Qed.

Lemma waiting_repeat (ms : number) (n : nat) : waiting (repeat (Sleep ms) n).
Proof.
  induction n; [reflexivity | exact IHn].
Qed.

Lemma waiting_keystrokes (l : list Event) : waiting l -> keystrokes l = [].
Proof.
  unfold waiting. induction l as [| e l IH]; [reflexivity |].
  simpl. destruct e; simpl; try discriminate; exact IH.
Qed.

Lemma waiting_progressReports (l : list Event) : waiting l -> progressReports l = [].
Proof.
  unfold waiting. induction l as [| e l IH]; [reflexivity |].
  simpl. destruct e; simpl; try discriminate; exact IH.
Qed.

Lemma keystrokes_app (l1 l2 : list Event) :
  keystrokes (l1 ++ l2) = keystrokes l1 ++ keystrokes l2.
Proof.
  apply filter_app.
Qed.

Lemma progressReports_app (l1 l2 : list Event) :
  progressReports (l1 ++ l2) = progressReports l1 ++ progressReports l2.
Proof.
  apply filter_app.
Qed.

(** *** The primitives *)

Lemma randomDelay_inv lo hi env c r c1 l :
  randomDelay lo hi env c = (r, c1, l) -> l = [] /\ exists d, r = Returned d.
Proof.
  unfold randomDelay, bind, mathRandom, ret. simpl.
  intros H. injection H as <- <- <-. split; [reflexivity | eauto].
Qed.

Lemma keyboard_inv e env c r c1 l :
  keyboard e env c = (r, c1, l) ->
  (r = Returned tt /\ l = [e]) \/ (r = Threw KeyboardError /\ l = []).
Proof.
  unfold keyboard. destruct (keyboardOk env (nKey c)); intros H;
    injection H as <- <- <-; auto.
Qed.

Lemma waitWhilePaused_inv env c r c1 l :
  waitWhilePaused env c = (r, c1, l) -> waiting l.
Proof.
  unfold waitWhilePaused. destruct (pausedFor env (nPause c)); intros H;
    injection H as <- <- <-; [apply waiting_repeat | reflexivity].
Qed.

(** *** The wrong key and its correction *)

(** The case of the wrong key follows the case of the original. *)
Definition matchCase (char w : ascii) : ascii :=
  if isAsciiUpper char then toUpperCase w else w.

(** A character the typo branch acts on: its lower-case form has
    neighbours and it is not the line break. *)
Definition perturbable (char : ascii) : Prop :=
  lookup (toLowerCase char) KEYBOARD_NEIGHBORS <> None /\ char <> newline.

Definition slip (char : ascii) (keys : list Event) : Prop :=
  exists neighbors w,
    lookup (toLowerCase char) KEYBOARD_NEIGHBORS = Some neighbors
    /\ In w neighbors
    /\ keys = [KeyType (matchCase char w); KeyPress Backspace].

Lemma upper_test (char : ascii) :
  (Ascii.eqb char (toUpperCase char) && negb (Ascii.eqb char (toLowerCase char)))%bool
  = isAsciiUpper char.
Proof.
  destruct char as [[] [] [] [] [] [] [] []]; reflexivity.
Qed.

Lemma at_index_In {A} (l : list A) (z : Z) (x : A) : at_index l z = Some x -> In x l.
Proof.
  unfold at_index. destruct (Z.ltb z 0); [discriminate |]. apply nth_error_In.
Qed.

Lemma typo_plain char delay env c :
  ~ perturbable char -> typo char delay env c = (Returned tt, c, []).
Proof.
  unfold perturbable, typo. intros Hn.
  destruct (lookup (toLowerCase char) KEYBOARD_NEIGHBORS) eqn:E; [| reflexivity].
  destruct (Ascii.eqb_spec char newline) as [-> | Hne]; [reflexivity |].
  exfalso. apply Hn. split; [discriminate | exact Hne].
Qed.

Lemma typo_returned char delay env c c1 l :
  perturbable char ->
  typo char delay env c = (Returned tt, c1, l) ->
  progressReports l = [] /\ slip char (keystrokes l).
Proof.
  unfold perturbable, typo. intros [Hl Hne].
  destruct (lookup (toLowerCase char) KEYBOARD_NEIGHBORS) as [ns |] eqn:E; [| contradiction].
  destruct (Ascii.eqb_spec char newline) as [-> | _]; [contradiction |]. simpl negb. cbv iota.
  intros H.
  apply bind_returned in H. destruct H as (r & c2 & l1 & l2 & Hr & H & ->).
  unfold mathRandom in Hr. injection Hr as <- <- <-. simpl app.
  apply bind_returned in H. destruct H as ([] & c3 & l1 & l2' & Hs & H & ->).
  unfold sleep, emit in Hs. injection Hs as <- <-.
  apply bind_returned in H. destruct H as ([] & c4 & l1 & l3 & Hk & H & ->).
  destruct (at_index ns _) as [w |] eqn:Ew; [| discriminate Hk].
  apply keyboard_inv in Hk. destruct Hk as [[_ ->] | [Hk _]]; [| discriminate Hk].
  apply bind_returned in H. destruct H as (d1 & c5 & l1 & l4 & Hd & H & ->).
  apply randomDelay_inv in Hd. destruct Hd as [-> _].
  apply bind_returned in H. destruct H as ([] & c6 & l1 & l5 & Hs & H & ->).
  unfold sleep, emit in Hs. injection Hs as <- <-.
  apply bind_returned in H. destruct H as ([] & c7 & l1 & l6 & Hk & H & ->).
  apply keyboard_inv in Hk. destruct Hk as [[_ ->] | [Hk _]]; [| discriminate Hk].
  apply bind_returned in H. destruct H as (d2 & c8 & l1 & l7 & Hd & H & ->).
  apply randomDelay_inv in Hd. destruct Hd as [-> _].
  unfold sleep, emit in H. injection H as <- <-.
  rewrite upper_test. split; [reflexivity |].
  exists ns, w. split; [exact E | split; [exact (at_index_In _ _ _ Ew) | reflexivity]].
Qed.

(** *** The loop body *)

Lemma ltb_lt (x y : number) : ltb x y = true <-> (x < y)%Q.
Proof.
  unfold ltb. rewrite negb_true_iff. split.
  - intros H. apply Qnot_le_lt. intros Hle. apply Qle_bool_iff in Hle. congruence.
  - intros H. destruct (Qle_bool y x) eqn:E; [| reflexivity].
    apply Qle_bool_iff in E. exfalso. exact (Qlt_not_le _ _ H E).
Qed.

(** The typo roll of one pass: taken only when typos are enabled with a
    positive chance. *)
Definition typoRoll (o : Options) (char : ascii) (delay : number) : M unit :=
  (if (simulateTypos o && gtb (typoChance o) 0%Q)%bool then
     roll <- mathRandom ;;
     when (ltb roll (typoChance o)) (typo char delay)
   else ret tt).

(** The pass from the pacing delay on: the character is delivered, its
    progress reported, and the pauses that follow are taken. *)
Definition deliver (o : Options) (len i : nat) (char : ascii) (delay : number) : M unit :=
  sleep (ofZ (mathRound delay)) ;;
  (if Ascii.eqb char newline then keyboardPress Enter else keyboardType char) ;;
  onProgress char (ofNat (i + 1) / ofNat len)%Q ;;
  when (punctuationPauses o && gtb (punctuationDelay char) 0%Q)%bool
    (j <- randomDelay 0%Q 200%Q ;;
     sleep (punctuationDelay char + j)%Q) ;;
  when (gtb (breakEveryChars o) 0%Q
        && Qeq_bool (rem (ofNat (i + 1)) (breakEveryChars o)) 0%Q
        && ltb (ofNat i) (ofNat len - 1)%Q)%bool
    (sleep (breakDurationMs o)) ;;
  d <- randomDelay 0%Q 25%Q ;;
  sleep d.

Definition jitteredDelay (o : Options) (baseMsPerChar r : number) : number :=
  let variance := ((r - (1 # 2)) * 2 * wpmVariance o)%Q in
  mathMax 30%Q (baseMsPerChar + variance * (baseMsPerChar / 20))%Q.

Lemma typeChar_unfold o len base i char :
  typeChar o len base i char =
  (waitWhilePaused ;;
   r <- mathRandom ;;
   typoRoll o char (jitteredDelay o base r) ;;
   deliver o len i char (jitteredDelay o base r)).
Proof.
  reflexivity.
Qed.

(** The fraction reported after the character at index [i] of [len]. *)
Definition fractionAt (len i : nat) : number := (ofNat (i + 1) / ofNat len)%Q.

Lemma key_inv char env c r c1 l :
  (if Ascii.eqb char newline then keyboardPress Enter else keyboardType char) env c
    = (r, c1, l) ->
  (r = Returned tt /\ l = [emission char]) \/ (r = Threw KeyboardError /\ l = []).
Proof.
  unfold emission, keyboardPress, keyboardType.
  destruct (Ascii.eqb char newline); apply keyboard_inv.
Qed.

Lemma pauses_after_inv o len i char env c r c1 l :
  (when (punctuationPauses o && gtb (punctuationDelay char) 0%Q)%bool
     (j <- randomDelay 0%Q 200%Q ;;
      sleep (punctuationDelay char + j)%Q) ;;
   when (gtb (breakEveryChars o) 0%Q
         && Qeq_bool (rem (ofNat (i + 1)) (breakEveryChars o)) 0%Q
         && ltb (ofNat i) (ofNat len - 1)%Q)%bool
     (sleep (breakDurationMs o)) ;;
   d <- randomDelay 0%Q 25%Q ;;
   sleep d) env c = (r, c1, l) ->
  r = Returned tt /\ waiting l.
Proof.
  unfold when, bind, randomDelay, mathRandom, sleep, emit, ret.
  destruct (punctuationPauses o && gtb (punctuationDelay char) 0%Q)%bool;
    destruct (gtb (breakEveryChars o) 0%Q
              && Qeq_bool (rem (ofNat (i + 1)) (breakEveryChars o)) 0%Q
              && ltb (ofNat i) (ofNat len - 1)%Q)%bool;
    simpl; intros H; injection H as <- <- <-; split; reflexivity.
Qed.

(** Delivery either fails at the keyboard, having only waited, or returns
    with the character delivered, its progress reported right after it,
    and nothing but waiting afterwards. *)
Lemma deliver_inv o len i char delay env c r c1 l :
  deliver o len i char delay env c = (r, c1, l) ->
  (r = Threw KeyboardError /\ waiting l)
  \/ (r = Returned tt /\ exists after,
        waiting after /\
        l = Sleep (ofZ (mathRound delay)) :: emission char
              :: Progress char (fractionAt len i) :: after).
Proof.
  unfold deliver. intros H.
  apply bind_inv in H.
  destruct H as [([] & c2 & l1 & l2 & Hs & H & ->) | [(e & H & _) | [H _]]];
    [| discriminate H | discriminate H].
  unfold sleep, emit in Hs. injection Hs as <- <-.
  apply bind_inv in H.
  destruct H as [([] & c3 & l1 & l3 & Hk & H & ->) | [(e & Hk & ->) | [Hk _]]].
  - apply key_inv in Hk. destruct Hk as [[_ ->] | [Hk _]]; [| discriminate Hk].
    apply bind_inv in H.
    destruct H as [([] & c4 & l1 & l4 & Hp & H & ->) | [(e & H & _) | [H _]]];
      [| discriminate H | discriminate H].
    unfold onProgress, emit in Hp. injection Hp as <- <-.
    apply pauses_after_inv in H. destruct H as [-> Hw].
    right. split; [reflexivity |]. exists l4. split; [exact Hw | reflexivity].
  - apply key_inv in Hk. destruct Hk as [[Hk _] | [Hk ->]]; [discriminate Hk |].
    injection Hk as ->. left. split; reflexivity.
  - apply key_inv in Hk. destruct Hk as [[Hk _] | [Hk _]]; discriminate Hk.
Qed.

(** When the typo branch cannot fire, the roll leaves no trace. *)
Lemma typoRoll_plain o char delay env c r c1 l :
  simulateTypos o = false \/ ~ (0 < typoChance o)%Q \/ ~ perturbable char ->
  typoRoll o char delay env c = (r, c1, l) ->
  r = Returned tt /\ l = [].
Proof.
  unfold typoRoll. intros Hoff.
  destruct (simulateTypos o && gtb (typoChance o) 0%Q)%bool eqn:E.
  - apply andb_true_iff in E. destruct E as [Es Eg]. apply ltb_lt in Eg.
    destruct Hoff as [Hoff | [Hoff | Hoff]]; [congruence | contradiction |].
    unfold bind, mathRandom, when.
    destruct (ltb _ (typoChance o)).
    + rewrite (typo_plain char delay env _ Hoff). simpl.
      intros H. injection H as <- <- <-. split; reflexivity.
    + simpl. intros H. injection H as <- <- <-. split; reflexivity.
  - intros H. injection H as <- <- <-. split; reflexivity.
Qed.

(** A roll that returns left either no trace or, for a perturbable
    character with typos enabled, one wrong key and its Backspace. *)
Lemma typoRoll_returned o char delay env c c1 l :
  typoRoll o char delay env c = (Returned tt, c1, l) ->
  progressReports l = [] /\
  (keystrokes l = []
   \/ (simulateTypos o = true /\ (0 < typoChance o)%Q /\ perturbable char
       /\ slip char (keystrokes l))).
Proof.
  unfold typoRoll.
  destruct (simulateTypos o && gtb (typoChance o) 0%Q)%bool eqn:E.
  - apply andb_true_iff in E. destruct E as [Es Eg]. apply ltb_lt in Eg.
    intros H. apply bind_returned in H. destruct H as (roll & c2 & l1 & l2 & Hr & H & ->).
    unfold mathRandom in Hr. injection Hr as <- <- <-. simpl app.
    unfold when in H. destruct (ltb _ (typoChance o)).
    + destruct (lookup (toLowerCase char) KEYBOARD_NEIGHBORS) as [ns |] eqn:El;
        [destruct (Ascii.eqb_spec char newline) as [-> | Hne] |].
      * unfold typo in H. rewrite El in H. simpl in H. injection H as <- <-. auto.
      * assert (Hp : perturbable char) by (split; [congruence | exact Hne]).
        destruct (typo_returned _ _ _ _ _ _ Hp H) as [Hpr Hslip]. split; [exact Hpr |].
        right. auto.
      * unfold typo in H. rewrite El in H. injection H as <- <-. auto.
    + injection H as <- <-. auto.
  - intros H. injection H as <- <-. auto.
Qed.

(** With typos enabled and every roll below the chance, a perturbable
    character always gets its wrong key. *)
Lemma typoRoll_certain o char delay env c c1 l :
  simulateTypos o = true -> (0 < typoChance o)%Q ->
  (forall n, (random env n < typoChance o)%Q) ->
  perturbable char ->
  typoRoll o char delay env c = (Returned tt, c1, l) ->
  slip char (keystrokes l).
Proof.
  intros Hs Hpos Hroll Hp. unfold typoRoll, gtb.
  rewrite Hs, (proj2 (ltb_lt _ _) Hpos). simpl andb. cbv iota.
  intros H. apply bind_returned in H. destruct H as (roll & c2 & l1 & l2 & Hr & H & ->).
  unfold mathRandom in Hr. injection Hr as <- <- <-. simpl app.
  rewrite (proj2 (ltb_lt _ _) (Hroll _)) in H. simpl in H.
  exact (proj2 (typo_returned _ _ _ _ _ _ Hp H)).
Qed.

End TypingOneCharacter.

(** ** The typing engine: properties kept by every step *)

Section StepInvariants.
Import Typer.
Local Open Scope list_scope.

(** Every event a computation emits, however it ends, satisfies [P]. *)
Definition emitsOnly {A} (P : Event -> bool) (m : M A) : Prop :=
  forall env c, forallb P (snd (m env c)) = true.

(** A computation never consults the stop predicate. *)
Definition keepsStop {A} (m : M A) : Prop :=
  forall env c, nStop (snd (fst (m env c))) = nStop c.

Variable P : Event -> bool.

Lemma emitsOnly_ret {A} (a : A) : emitsOnly P (ret a).
Proof. intros env c. reflexivity. Qed.

Lemma emitsOnly_throw {A} (e : Error) : emitsOnly P (@throw A e).
Proof. intros env c. reflexivity. Qed.

Lemma emitsOnly_bind {A B} (m : M A) (f : A -> M B) :
  emitsOnly P m -> (forall a, emitsOnly P (f a)) -> emitsOnly P (bind m f).
Proof.
  intros Hm Hf env c. unfold bind. specialize (Hm env c).
  destruct (m env c) as [[[a | e |] c1] l1]; simpl in *; try exact Hm.
  specialize (Hf a env c1). destruct (f a env c1) as [[r c2] l2]. simpl in *.
  rewrite forallb_app, Hm, Hf. reflexivity.
Qed.

Lemma emitsOnly_emit (e : Event) : P e = true -> emitsOnly P (emit e).
Proof. intros H env c. simpl. rewrite H. reflexivity. Qed.

Lemma emitsOnly_sleep (ms : number) : P (Sleep ms) = true -> emitsOnly P (sleep ms).
Proof. apply emitsOnly_emit. Qed.

Lemma emitsOnly_keyboard (e : Event) : P e = true -> emitsOnly P (keyboard e).
Proof.
  intros H env c. unfold keyboard. destruct (keyboardOk env (nKey c)); simpl;
    [rewrite H |]; reflexivity.
Qed.

Lemma emitsOnly_mathRandom : emitsOnly P mathRandom.
Proof. intros env c. reflexivity. Qed.

Lemma emitsOnly_randomDelay lo hi : emitsOnly P (randomDelay lo hi).
Proof. intros env c. reflexivity. Qed.

Lemma emitsOnly_when (b : bool) (m : M unit) : emitsOnly P m -> emitsOnly P (when b m).
Proof. destruct b; [trivial | intros _; apply emitsOnly_ret]. Qed.

Lemma emitsOnly_waitWhilePaused :
  P (Sleep 200%Q) = true -> emitsOnly P waitWhilePaused.
Proof.
  intros H env c. unfold waitWhilePaused.
  destruct (pausedFor env (nPause c)) as [n |]; simpl; [| reflexivity].
  induction n; simpl; [reflexivity | rewrite H; exact IHn].
Qed.

Lemma emitsOnly_typo char delay :
  (forall ms, P (Sleep ms) = true) ->
  (forall w, P (KeyType w) = true) ->
  P (KeyPress Backspace) = true ->
  emitsOnly P (typo char delay).
Proof.
  intros Hs Ht Hb. unfold typo.
  destruct (lookup (toLowerCase char) KEYBOARD_NEIGHBORS); [| apply emitsOnly_ret].
  destruct (negb (Ascii.eqb char newline)); [| apply emitsOnly_ret].
  apply emitsOnly_bind; [apply emitsOnly_mathRandom | intros r].
  apply emitsOnly_bind; [apply emitsOnly_sleep, Hs | intros _].
  apply emitsOnly_bind.
  { destruct (at_index _ _); [apply emitsOnly_keyboard, Ht | apply emitsOnly_throw]. }
  intros _. apply emitsOnly_bind; [apply emitsOnly_randomDelay | intros d1].
  apply emitsOnly_bind; [apply emitsOnly_sleep, Hs | intros _].
  apply emitsOnly_bind; [apply emitsOnly_keyboard, Hb | intros _].
  apply emitsOnly_bind; [apply emitsOnly_randomDelay | intros d2].
  apply emitsOnly_sleep, Hs.
Qed.

Lemma emitsOnly_typoRoll o char delay :
  (forall ms, P (Sleep ms) = true) ->
  (forall w, P (KeyType w) = true) ->
  P (KeyPress Backspace) = true ->
  emitsOnly P (typoRoll o char delay).
Proof.
  intros Hs Ht Hb. unfold typoRoll.
  destruct (simulateTypos o && gtb (typoChance o) 0%Q)%bool; [| apply emitsOnly_ret].
  apply emitsOnly_bind; [apply emitsOnly_mathRandom | intros roll].
  apply emitsOnly_when, emitsOnly_typo; assumption.
Qed.

Lemma emitsOnly_focusDoc selectors :
  (forall ms, P (Sleep ms) = true) ->
  (forall s, P (Click s) = true) ->
  (forall s, P (ClickTimeout s) = true) ->
  emitsOnly P (focusDoc selectors).
Proof.
  intros Hs Hc Ht. induction selectors as [| sel rest IH]; [apply emitsOnly_ret |].
  intros env c. simpl.
  destruct (locatorCount env sel) as [count |]; [| reflexivity].
  destruct (Nat.ltb 0 count); [| apply IH].
  destruct (clickOk env sel).
  - unfold bind, emit, sleep. simpl. rewrite Hc, Hs. reflexivity.
  - specialize (IH env c). unfold bind, emit. simpl.
    destruct (focusDoc rest env c) as [[r c1] l]. simpl in *. rewrite Ht. exact IH.
Qed.

End StepInvariants.

Section StopCounter.
Import Typer.
Local Open Scope list_scope.

Lemma keepsStop_ret {A} (a : A) : keepsStop (ret a).
Proof. intros env c. reflexivity. Qed.

Lemma keepsStop_throw {A} (e : Error) : keepsStop (@throw A e).
Proof. intros env c. reflexivity. Qed.

Lemma keepsStop_bind {A B} (m : M A) (f : A -> M B) :
  keepsStop m -> (forall a, keepsStop (f a)) -> keepsStop (bind m f).
Proof.
  intros Hm Hf env c. unfold bind. specialize (Hm env c).
  destruct (m env c) as [[[a | e |] c1] l1]; simpl in *; try exact Hm.
  specialize (Hf a env c1). destruct (f a env c1) as [[r c2] l2]. simpl in *.
  congruence.
Qed.

Lemma keepsStop_emit (e : Event) : keepsStop (emit e).
Proof. intros env c. reflexivity. Qed.

Lemma keepsStop_keyboard (e : Event) : keepsStop (keyboard e).
Proof. intros env c. unfold keyboard. destruct (keyboardOk env (nKey c)); reflexivity. Qed.

Lemma keepsStop_mathRandom : keepsStop mathRandom.
Proof. intros env c. reflexivity. Qed.

Lemma keepsStop_randomDelay lo hi : keepsStop (randomDelay lo hi).
Proof. intros env c. reflexivity. Qed.

Lemma keepsStop_when (b : bool) (m : M unit) : keepsStop m -> keepsStop (when b m).
Proof. destruct b; [trivial | intros _; apply keepsStop_ret]. Qed.

Lemma keepsStop_waitWhilePaused : keepsStop waitWhilePaused.
Proof.
  intros env c. unfold waitWhilePaused. destruct (pausedFor env (nPause c)); reflexivity.
Qed.

Lemma keepsStop_typo char delay : keepsStop (typo char delay).
Proof.
  unfold typo.
  destruct (lookup (toLowerCase char) KEYBOARD_NEIGHBORS); [| apply keepsStop_ret].
  destruct (negb (Ascii.eqb char newline)); [| apply keepsStop_ret].
  repeat first
    [ apply keepsStop_bind; [| intros ?]
    | apply keepsStop_mathRandom | apply keepsStop_randomDelay
    | apply keepsStop_emit | apply keepsStop_keyboard
    | destruct (at_index _ _); [apply keepsStop_keyboard | apply keepsStop_throw] ].
Qed.

Lemma keepsStop_typeChar o len base i char : keepsStop (typeChar o len base i char).
Proof.
  unfold typeChar.
  apply keepsStop_bind; [apply keepsStop_waitWhilePaused | intros _].
  apply keepsStop_bind; [apply keepsStop_mathRandom | intros r].
  apply keepsStop_bind.
  { destruct (simulateTypos o && _)%bool; [| apply keepsStop_ret].
    apply keepsStop_bind; [apply keepsStop_mathRandom | intros roll].
    apply keepsStop_when, keepsStop_typo. }
  intros _.
  apply keepsStop_bind; [apply keepsStop_emit | intros _].
  apply keepsStop_bind.
  { destruct (Ascii.eqb char newline); apply keepsStop_keyboard. }
  intros _.
  apply keepsStop_bind; [apply keepsStop_emit | intros _].
  apply keepsStop_bind.
  { apply keepsStop_when, keepsStop_bind; [apply keepsStop_randomDelay | intros j].
    apply keepsStop_emit. }
  intros _.
  apply keepsStop_bind; [apply keepsStop_when, keepsStop_emit | intros _].
  apply keepsStop_bind; [apply keepsStop_randomDelay | intros d].
  apply keepsStop_emit.
Qed.

Lemma keepsStop_focusDoc selectors : keepsStop (focusDoc selectors).
Proof.
  induction selectors as [| sel rest IH]; [apply keepsStop_ret |].
  intros env c. simpl.
  destruct (locatorCount env sel) as [count |]; [| reflexivity].
  destruct (Nat.ltb 0 count); [| apply IH].
  destruct (clickOk env sel); [reflexivity |].
  specialize (IH env c). unfold bind, emit. simpl.
  destruct (focusDoc rest env c) as [[r c1] l]. exact IH.
Qed.

End StopCounter.

(** ** The typing engine: a whole run *)

Section TypingRun.
Import Typer.
Local Open Scope list_scope.

(** The progress reports of the characters [cs], the first at index [i]. *)
Fixpoint expectedProgress (len i : nat) (cs : list ascii) : list Event :=
  match cs with
  | [] => []
  | char :: rest => Progress char (fractionAt len i) :: expectedProgress len (S i) rest
  end.

(** The log of consecutive passes over the characters [cs], the first at
    index [i]: each pass waits, does what [lead] allows before the pacing
    delay, delivers its character, reports progress at once, and waits. *)
Inductive passes (lead : ascii -> list Event -> Prop) (len : nat) :
  nat -> list ascii -> list Event -> Prop :=
| passes_nil i : passes lead len i [] []
| passes_cons i char rest w t d after log :
    waiting w -> lead char t -> waiting after ->
    passes lead len (S i) rest log ->
    passes lead len i (char :: rest)
      (w ++ t ++ Sleep d :: emission char :: Progress char (fractionAt len i)
         :: after ++ log).

(** The keyboard operations of a run, cut into one block per character. *)
Inductive keyBlocks (block : ascii -> list Event -> Prop) :
  list ascii -> list Event -> Prop :=
| keyBlocks_nil : keyBlocks block [] []
| keyBlocks_cons char rest b ks :
    block char b -> keyBlocks block rest ks ->
    keyBlocks block (char :: rest) (b ++ ks).

(** Focusing leaves the counters as they were; it returns, or it is
    rejected by the count query of one of the selectors. *)
Lemma focusDoc_inv selectors env c r c1 l :
  focusDoc selectors env c = (r, c1, l) ->
  c1 = c
  /\ (r = Returned tt
      \/ (r = Threw LocatorError
          /\ exists s, In s selectors /\ locatorCount env s = None)).
Proof.
  revert r c1 l. induction selectors as [| sel rest IH]; intros r c1 l; simpl.
  - intros H. injection H as <- <- <-. auto.
  - destruct (locatorCount env sel) as [count |] eqn:Ecount.
    + assert (Hrest : focusDoc rest env c = (r, c1, l) ->
                c1 = c
                /\ (r = Returned tt
                    \/ (r = Threw LocatorError
                        /\ exists s, (sel = s \/ In s rest) /\ locatorCount env s = None))).
      { intros H. destruct (IH _ _ _ H) as [Hc [Hr | (Hr & s & Hs & Hn)]]; [auto |].
        split; [exact Hc |]. right. split; [exact Hr |]. exists s. auto. }
      destruct (Nat.ltb 0 count); [| exact Hrest].
      destruct (clickOk env sel); unfold bind, emit, sleep; simpl.
      * intros H. injection H as <- <- <-. auto.
      * destruct (focusDoc rest env c) as [[r' c'] l'] eqn:E.
        destruct (IH _ _ _ eq_refl) as [-> Hr'].
        destruct r' as [[] | e |]; intros H; injection H as <- <- <-;
          (split; [reflexivity |]);
          destruct Hr' as [Hr' | (Hr' & s & Hs & Hn)]; try discriminate Hr'; auto.
        right. split; [exact Hr' |]. exists s. auto.
    + unfold throw. intros H. injection H as <- <- <-.
      split; [reflexivity |]. right. split; [reflexivity |]. exists sel. auto.
Qed.

Lemma focusDoc_returns selectors env c :
  (forall s, In s selectors -> locatorCount env s <> None) ->
  exists l, focusDoc selectors env c = (Returned tt, c, l).
Proof.
  intros Hcount. destruct (focusDoc selectors env c) as [[r c1] l] eqn:E.
  destruct (focusDoc_inv _ _ _ _ _ _ E) as [-> [-> | (_ & s & Hs & Hn)]]; [eauto |].
  destruct (Hcount s Hs Hn).
Qed.

Definition quietFocus (l : list Event) : Prop :=
  keystrokes l = [] /\ progressReports l = [].

Lemma focusDoc_quiet selectors env c : quietFocus (snd (focusDoc selectors env c)).
Proof.
  split.
  - pose proof (emitsOnly_focusDoc (fun e => negb (isKeyboard e)) selectors
                  (fun _ => eq_refl) (fun _ => eq_refl) (fun _ => eq_refl) env c) as H.
    unfold keystrokes. induction (snd (focusDoc selectors env c)) as [| e l IH];
      [reflexivity |].
    simpl in *. apply andb_true_iff in H. destruct H as [He Hl].
    apply negb_true_iff in He. rewrite He. exact (IH Hl).
  - pose proof (emitsOnly_focusDoc (fun e => negb (isProgress e)) selectors
                  (fun _ => eq_refl) (fun _ => eq_refl) (fun _ => eq_refl) env c) as H.
    unfold progressReports. induction (snd (focusDoc selectors env c)) as [| e l IH];
      [reflexivity |].
    simpl in *. apply andb_true_iff in H. destruct H as [He Hl].
    apply negb_true_iff in He. rewrite He. exact (IH Hl).
Qed.

(** A run is the focus attempt followed by the loop over the text, unless
    a count query is rejected, which ends the run before the loop. *)
Lemma typeWithHumanSpeed_inv text o env c r c1 log :
  typeWithHumanSpeed text o env c = (r, c1, log) ->
  exists focus body,
    quietFocus focus
    /\ ((exists l, focusDoc focusSelectors env c = (Returned tt, c, l))
         /\ typeLoop o (String.length text) (wpmToMsPerChar (wpm o)) 0 text env c
            = (r, c1, body)
        \/ (focusDoc focusSelectors env c = (Threw LocatorError, c, focus)
            /\ (r, c1, body) = (Threw LocatorError, c, [])))
    /\ log = focus ++ body.
Proof.
  unfold typeWithHumanSpeed.
  pose proof (focusDoc_quiet focusSelectors env c) as Hq.
  destruct (focusDoc focusSelectors env c) as [[r0 c0] l] eqn:Hl.
  destruct (focusDoc_inv _ _ _ _ _ _ Hl) as [-> [-> | (-> & _)]]; simpl in Hq.
  - rewrite (bind_run _ _ _ _ _ _ _ Hl).
    destruct (typeLoop _ _ _ _ _ env c) as [[r' c'] body].
    intros H. injection H as <- <- <-. exists l, body. eauto 6.
  - unfold bind. rewrite Hl. intros H. injection H as <- <- <-.
    exists l, []. rewrite app_nil_r. auto.
Qed.

(** A run that returns got through the focus attempt. *)
Lemma typeWithHumanSpeed_returned text o env c n c1 log :
  typeWithHumanSpeed text o env c = (Returned n, c1, log) ->
  exists focus body,
    quietFocus focus
    /\ typeLoop o (String.length text) (wpmToMsPerChar (wpm o)) 0 text env c
       = (Returned n, c1, body)
    /\ log = focus ++ body.
Proof.
  intros H. apply typeWithHumanSpeed_inv in H.
  destruct H as (focus & body & Hq & [[_ H] | [_ H]] & E); [eauto | discriminate H].
Qed.

(** One pass that returns. *)
Lemma typeChar_returned o len base i char env c c1 l :
  typeChar o len base i char env c = (Returned tt, c1, l) ->
  exists w t d after c2 c3,
    waiting w
    /\ typoRoll o char d env c2 = (Returned tt, c3, t)
    /\ waiting after
    /\ l = w ++ t ++ Sleep (ofZ (mathRound d)) :: emission char
             :: Progress char (fractionAt len i) :: after.
Proof.
  rewrite typeChar_unfold. intros H.
  apply bind_returned in H. destruct H as ([] & c2 & w & l2 & Hw & H & ->).
  apply waitWhilePaused_inv in Hw.
  apply bind_returned in H. destruct H as (r & c3 & l1 & l3 & Hr & H & ->).
  unfold mathRandom in Hr. injection Hr as <- <- <-. simpl app.
  apply bind_returned in H. destruct H as ([] & c4 & t & l4 & Ht & H & ->).
  apply deliver_inv in H. destruct H as [[H _] | [_ (after & Ha & ->)]]; [discriminate H |].
  eexists w, t, _, after, _, c4. split; [exact Hw |]. split; [exact Ht |].
  split; [exact Ha | reflexivity].
Qed.

(** A run of the loop that reaches the end of the text is a sequence of
    passes, one per character. *)
Lemma typeLoop_finished (lead : ascii -> list Event -> Prop) o len base env :
  (forall char d c2 c3 t,
      typoRoll o char d env c2 = (Returned tt, c3, t) -> lead char t) ->
  forall rest i c c1 log,
    typeLoop o len base i rest env c = (Returned (i + String.length rest), c1, log) ->
    passes lead len i (chars rest) log.
Proof.
  intros Hlead rest. induction rest as [| char rest IH]; intros i c c1 log H.
  - simpl in H. injection H as _ _ <-. constructor.
  - simpl in H.
    apply bind_returned in H. destruct H as (stop & c2 & l1 & l2 & Hs & H & ->).
    unfold callShouldStop in Hs. injection Hs as <- <- <-. simpl app.
    destruct (shouldStop env (nStop c)).
    + injection H as H _ _. simpl in H. lia.
    + apply bind_returned in H. destruct H as ([] & c3 & l3 & l4 & Hc & H & ->).
      apply typeChar_returned in Hc.
      destruct Hc as (w & t & d & after & c4 & c5 & Hw & Ht & Ha & ->).
      replace (i + S (String.length rest)) with (S i + String.length rest) in H by lia.
      apply IH in H.
      replace ((w ++ t ++ Sleep (ofZ (mathRound d)) :: emission char
                  :: Progress char (fractionAt len i) :: after) ++ l4)
        with (w ++ t ++ Sleep (ofZ (mathRound d)) :: emission char
                :: Progress char (fractionAt len i) :: after ++ l4)
        by (rewrite <- !app_assoc; reflexivity).
      simpl. constructor; eauto.
Qed.

Lemma passes_weaken (lead lead' : ascii -> list Event -> Prop) len i cs log :
  (forall char t, lead char t -> lead' char t) ->
  passes lead len i cs log -> passes lead' len i cs log.
Proof.
  intros Hw H. induction H; constructor; auto.
Qed.

Lemma isKeyboard_emission (char : ascii) : isKeyboard (emission char) = true.
Proof.
  unfold emission. destruct (Ascii.eqb char newline); reflexivity.
Qed.

Lemma isProgress_emission (char : ascii) : isProgress (emission char) = false.
Proof.
  unfold emission. destruct (Ascii.eqb char newline); reflexivity.
Qed.

Lemma keystrokes_delivery d char f after log :
  waiting after ->
  keystrokes (Sleep d :: emission char :: Progress char f :: after ++ log)
  = emission char :: keystrokes log.
Proof.
  intros Ha. unfold keystrokes. simpl. rewrite isKeyboard_emission. f_equal.
  fold (keystrokes (after ++ log)).
  rewrite keystrokes_app, (waiting_keystrokes after Ha). reflexivity.
Qed.

Lemma progressReports_delivery d char f after log :
  waiting after ->
  progressReports (Sleep d :: emission char :: Progress char f :: after ++ log)
  = Progress char f :: progressReports log.
Proof.
  intros Ha. unfold progressReports. simpl. rewrite isProgress_emission. f_equal.
  fold (progressReports (after ++ log)).
  rewrite progressReports_app, (waiting_progressReports after Ha). reflexivity.
Qed.

(** The keyboard blocks of a sequence of passes. *)
Lemma passes_keyBlocks (lead : ascii -> list Event -> Prop) len i cs log :
  passes lead len i cs log ->
  keyBlocks (fun char b => exists t, lead char t /\ b = keystrokes t ++ [emission char])
    cs (keystrokes log).
Proof.
  intros H. induction H as [| i char rest w t d after log Hw Ht Ha _ IH]; [constructor |].
  rewrite keystrokes_app, (waiting_keystrokes w Hw), keystrokes_app.
  rewrite (keystrokes_delivery _ _ _ _ _ Ha). simpl app.
  replace (keystrokes t ++ emission char :: keystrokes log)
    with ((keystrokes t ++ [emission char]) ++ keystrokes log)
    by (rewrite <- app_assoc; reflexivity).
  constructor; [eauto | exact IH].
Qed.

Lemma keyBlocks_weaken (block block' : ascii -> list Event -> Prop) cs ks :
  (forall char b, block char b -> block' char b) ->
  keyBlocks block cs ks -> keyBlocks block' cs ks.
Proof.
  intros Hw H. induction H; constructor; auto.
Qed.

(** The progress reports of a sequence of passes. *)
Lemma passes_progress (lead : ascii -> list Event -> Prop) len i cs log :
  (forall char t, lead char t -> progressReports t = []) ->
  passes lead len i cs log ->
  progressReports log = expectedProgress len i cs.
Proof.
  intros Hq H. induction H as [| i char rest w t d after log Hw Ht Ha _ IH]; [reflexivity |].
  rewrite progressReports_app, (waiting_progressReports w Hw), progressReports_app.
  rewrite (Hq _ _ Ht), (progressReports_delivery _ _ _ _ _ Ha), IH. reflexivity.
Qed.

(** *** Runs that end early *)

(** What a run holds of a per-character item after [k] passes. *)
Fixpoint items (item : nat -> ascii -> Event) (i : nat) (cs : list ascii) : list Event :=
  match cs with
  | [] => []
  | char :: rest => item i char :: items item (S i) rest
  end.

Lemma expectedProgress_items len i cs :
  expectedProgress len i cs = items (fun i char => Progress char (fractionAt len i)) i cs.
Proof.
  revert i. induction cs as [| char rest IH]; intros i; simpl; [| rewrite IH]; reflexivity.
Qed.

Lemma map_emission_items i cs :
  map emission cs = items (fun _ char => emission char) i cs.
Proof.
  revert i. induction cs as [| char rest IH]; intros i; simpl; [| rewrite (IH (S i))]; reflexivity.
Qed.

(** However the loop ends, what it holds of an item that each returning
    pass contributes once, and each failing pass not at all, is the items
    of the characters passed; a loop that returns, returns their number. *)
Lemma typeLoop_any (p : Event -> bool) (item : nat -> ascii -> Event) o len base env :
  (forall i char c r c1 l,
      typeChar o len base i char env c = (r, c1, l) ->
      (r = Returned tt /\ filter p l = [item i char])
      \/ (r <> Returned tt /\ filter p l = [])) ->
  forall rest i c r c1 log,
    typeLoop o len base i rest env c = (r, c1, log) ->
    exists k, k <= String.length rest
      /\ filter p log = items item i (firstn k (chars rest))
      /\ (forall n, r = Returned n -> n = i + k).
Proof.
  intros Hpass rest. induction rest as [| char rest IH]; intros i c r c1 log H.
  - simpl in H. injection H as <- _ <-. exists 0. split; [lia |]. split; [reflexivity |].
    intros n Hn. injection Hn as <-. lia.
  - simpl in H. apply bind_inv in H.
    destruct H as [(stop & c2 & l1 & l2 & Hs & H & ->) | [(e & Hs & _) | [Hs _]]];
      [| discriminate Hs | discriminate Hs].
    unfold callShouldStop in Hs. injection Hs as <- <- <-. simpl app.
    destruct (shouldStop env (nStop c)).
    + injection H as <- _ <-. exists 0. split; [lia |]. split; [reflexivity |].
      intros n Hn. injection Hn as <-. lia.
    + apply bind_inv in H.
      destruct H as [([] & c3 & l3 & l4 & Hc & H & ->) | [(e & Hc & ->) | [Hc ->]]].
      * destruct (Hpass _ _ _ _ _ _ Hc) as [[_ Hl] | [Hn _]]; [| congruence].
        destruct (IH _ _ _ _ _ H) as (k & Hk & Hlog & Hret).
        exists (S k). split; [simpl; lia |]. split.
        -- rewrite filter_app, Hl, Hlog. reflexivity.
        -- intros n Hn. rewrite (Hret n Hn). lia.
      * destruct (Hpass _ _ _ _ _ _ Hc) as [[Hr _] | [_ Hl]]; [discriminate Hr |].
        exists 0. split; [lia |]. split; [exact Hl | discriminate].
      * destruct (Hpass _ _ _ _ _ _ Hc) as [[Hr _] | [_ Hl]]; [discriminate Hr |].
        exists 0. split; [lia |]. split; [exact Hl | discriminate].
Qed.

(** The same for a whole run: the focus attempt contributes nothing, and a
    run it ends has passed no character. *)
Lemma typeWithHumanSpeed_any (p : Event -> bool) (item : nat -> ascii -> Event)
  text o env c r c1 log :
  (forall focus, quietFocus focus -> filter p focus = []) ->
  (forall i char c r c1 l,
      typeChar o (String.length text) (wpmToMsPerChar (wpm o)) i char env c = (r, c1, l) ->
      (r = Returned tt /\ filter p l = [item i char])
      \/ (r <> Returned tt /\ filter p l = [])) ->
  typeWithHumanSpeed text o env c = (r, c1, log) ->
  exists k, k <= String.length text
    /\ filter p log = items item 0 (firstn k (chars text))
    /\ (forall n, r = Returned n -> n = k).
Proof.
  intros Hfocus Hpass H.
  apply typeWithHumanSpeed_inv in H.
  destruct H as (focus & body & Hq & [[_ H] | [_ H]] & ->);
    rewrite filter_app, (Hfocus focus Hq); simpl app.
  - exact (typeLoop_any p item o _ _ env Hpass _ _ _ _ _ _ H).
  - injection H as -> _ ->. exists 0. split; [lia |]. split; [reflexivity | discriminate].
Qed.

Lemma forallb_negb_filter {A} (p : A -> bool) (l : list A) :
  forallb (fun x => negb (p x)) l = true -> filter p l = [].
Proof.
  induction l as [| x l IH]; simpl; [reflexivity |].
  rewrite andb_true_iff, negb_true_iff. intros [-> H]. exact (IH H).
Qed.

(** A pass reports progress once when it returns and never when it fails. *)
Lemma typeChar_progress o len base env i char c r c1 l :
  typeChar o len base i char env c = (r, c1, l) ->
  (r = Returned tt /\ filter isProgress l = [Progress char (fractionAt len i)])
  \/ (r <> Returned tt /\ filter isProgress l = []).
Proof.
  rewrite typeChar_unfold. intros H.
  apply bind_inv in H.
  destruct H as [([] & c2 & w & l2 & Hw & H & ->) | [(e & Hw & ->) | [Hw ->]]];
    apply waitWhilePaused_inv in Hw;
    [| right; split; [discriminate | exact (waiting_progressReports _ Hw)] ..].
  apply bind_inv in H.
  destruct H as [(rnd & c3 & l1 & l3 & Hr & H & ->) | [(e & Hr & _) | [Hr _]]];
    [| discriminate Hr | discriminate Hr].
  unfold mathRandom in Hr. injection Hr as <- <- <-. simpl app.
  assert (Hquiet : forall d c' r' c'' t',
             typoRoll o char d env c' = (r', c'', t') -> filter isProgress t' = []).
  { intros d c' r' c'' t' E. apply forallb_negb_filter.
    change t' with (snd (r', c'', t')). rewrite <- E.
    apply (emitsOnly_typoRoll (fun e => negb (isProgress e)));
      intros; reflexivity. }
  apply bind_inv in H.
  destruct H as [([] & c4 & t & l4 & Ht & H & ->) | [(e & Ht & ->) | [Ht ->]]].
  - pose proof (Hquiet _ _ _ _ _ Ht) as Hq.
    apply deliver_inv in H. destruct H as [[-> Hl] | [-> (after & Ha & ->)]].
    + right. split; [discriminate |].
      rewrite !filter_app, Hq. fold (progressReports w) (progressReports l4).
      rewrite (waiting_progressReports _ Hw), (waiting_progressReports _ Hl). reflexivity.
    + left. split; [reflexivity |].
      rewrite !filter_app, Hq. fold (progressReports w).
      rewrite (waiting_progressReports _ Hw). simpl. rewrite isProgress_emission.
      fold (progressReports after). rewrite (waiting_progressReports _ Ha). reflexivity.
  - pose proof (Hquiet _ _ _ _ _ Ht) as Hq.
    right. split; [discriminate |]. rewrite filter_app, Hq. fold (progressReports w).
    rewrite (waiting_progressReports _ Hw). reflexivity.
  - pose proof (Hquiet _ _ _ _ _ Ht) as Hq.
    right. split; [discriminate |]. rewrite filter_app, Hq. fold (progressReports w).
    rewrite (waiting_progressReports _ Hw). reflexivity.
Qed.

(** With the typo branch out of reach, a pass presses the key of its
    character once when it returns and no key when it fails. *)
Lemma typeChar_unperturbed o len base env i char c r c1 l :
  simulateTypos o = false \/ ~ (0 < typoChance o)%Q \/ ~ perturbable char ->
  typeChar o len base i char env c = (r, c1, l) ->
  (r = Returned tt /\ filter isKeyboard l = [emission char])
  \/ (r <> Returned tt /\ filter isKeyboard l = []).
Proof.
  intros Hoff. rewrite typeChar_unfold. intros H.
  apply bind_inv in H.
  destruct H as [([] & c2 & w & l2 & Hw & H & ->) | [(e & Hw & ->) | [Hw ->]]];
    apply waitWhilePaused_inv in Hw;
    [| right; split; [discriminate | exact (waiting_keystrokes _ Hw)] ..].
  apply bind_inv in H.
  destruct H as [(rnd & c3 & l1 & l3 & Hr & H & ->) | [(e & Hr & _) | [Hr _]]];
    [| discriminate Hr | discriminate Hr].
  unfold mathRandom in Hr. injection Hr as <- <- <-. simpl app.
  apply bind_inv in H.
  destruct H as [([] & c4 & t & l4 & Ht & H & ->) | [(e & Ht & ->) | [Ht ->]]];
    apply (typoRoll_plain _ _ _ _ _ _ _ _ Hoff) in Ht; destruct Ht as [Ht ->];
    [| discriminate Ht | discriminate Ht].
  simpl app.
  apply deliver_inv in H. destruct H as [[-> Hl] | [-> (after & Ha & ->)]].
  - right. split; [discriminate |].
    rewrite filter_app. fold (keystrokes w) (keystrokes l4).
    rewrite (waiting_keystrokes _ Hw), (waiting_keystrokes _ Hl). reflexivity.
  - left. split; [reflexivity |].
    rewrite filter_app. fold (keystrokes w).
    rewrite (waiting_keystrokes _ Hw). simpl. rewrite isKeyboard_emission.
    fold (keystrokes after). rewrite (waiting_keystrokes _ Ha). reflexivity.
Qed.

(** *** Stopping *)

Definition stopChecked (c : Counters) : Counters :=
  {| nRandom := nRandom c; nStop := S (nStop c); nPause := nPause c; nKey := nKey c |}.

(** A loop over [pre ++ rest] whose stop predicate first answers [true]
    when the characters of [pre] have been passed does what the loop over
    [pre] does, consults the predicate once more, and returns. *)
Lemma typeLoop_stops_after o len base env pre rest :
  rest <> EmptyString ->
  forall i c,
    (forall j, j < String.length pre -> shouldStop env (nStop c + j) = false) ->
    shouldStop env (nStop c + String.length pre) = true ->
    typeLoop o len base i (pre ++ rest)%string env c =
    match typeLoop o len base i pre env c with
    | (Returned _, c1, log) => (Returned (i + String.length pre), stopChecked c1, log)
    | other => other
    end.
Proof.
  intros Hrest. induction pre as [| char pre IH]; intros i c Hno Hyes.
  - destruct rest as [| char rest]; [contradiction |].
    simpl in *. rewrite Nat.add_0_r in Hyes.
    unfold bind, callShouldStop. rewrite Hyes. unfold ret. simpl.
    rewrite Nat.add_0_r. reflexivity.
  - simpl String.length in *. simpl append. cbn [typeLoop].
    unfold bind at 1 3. unfold callShouldStop.
    pose proof (Hno 0 ltac:(lia)) as H0. rewrite Nat.add_0_r in H0. rewrite H0.
    unfold bind.
    pose proof (keepsStop_typeChar o len base i char env (stopChecked c)) as Hkeep.
    unfold stopChecked in Hkeep.
    destruct (typeChar o len base i char env _) as [[[[] | e |] c3] l3]; simpl in *;
      try reflexivity.
    rewrite IH.
    + destruct (typeLoop o len base (S i) pre env c3) as [[[n | e |] c4] l4]; simpl;
        try reflexivity.
      repeat f_equal. lia.
    + intros j Hj. rewrite Hkeep.
      replace (S (nStop c) + j) with (nStop c + S j) by lia. apply Hno. lia.
    + rewrite Hkeep.
      replace (S (nStop c) + String.length pre) with (nStop c + S (String.length pre))
        by lia.
      exact Hyes.
Qed.

End TypingRun.

(** ** The typing engine: typos *)

Section Typos.
Import Typer.
Local Open Scope list_scope.

(** The block of a character typed without a slip. *)
Definition plainBlock (char : ascii) (b : list Event) : Prop :=
  b = [emission char].

(** The block of a character typed with a slip: a neighbour of its
    lower-case form in the case of the original, Backspace, the character. *)
Definition typoBlock (char : ascii) (b : list Event) : Prop :=
  exists neighbors w,
    lookup (toLowerCase char) KEYBOARD_NEIGHBORS = Some neighbors
    /\ In w neighbors
    /\ b = [KeyType (matchCase char w); KeyPress Backspace; KeyType char].

Definition perturbableb (char : ascii) : bool :=
  (match lookup (toLowerCase char) KEYBOARD_NEIGHBORS with
   | Some _ => true
   | None => false
   end && negb (Ascii.eqb char newline))%bool.

Lemma perturbableb_spec (char : ascii) : perturbableb char = true <-> perturbable char.
Proof.
  unfold perturbableb, perturbable. rewrite andb_true_iff, negb_true_iff.
  destruct (lookup (toLowerCase char) KEYBOARD_NEIGHBORS);
    destruct (Ascii.eqb_spec char newline); split; intros [H1 H2];
    try discriminate; try contradiction; split; congruence.
Qed.

(** Only the letters have neighbours. *)
Lemma perturbable_letter (char : ascii) :
  perturbable char -> isAsciiLower char = true \/ isAsciiUpper char = true.
Proof.
  intros H. apply perturbableb_spec in H. revert H.
  destruct char as [[] [] [] [] [] [] [] []]; vm_compute; intros H;
    first [discriminate H | left; reflexivity | right; reflexivity].
Qed.

Lemma emission_not_newline (char : ascii) : char <> newline -> emission char = KeyType char.
Proof.
  intros H. unfold emission. destruct (Ascii.eqb_spec char newline); [contradiction | reflexivity].
Qed.

Lemma chars_length (s : string) : List.length (chars s) = String.length s.
Proof.
  induction s as [| c s IH]; simpl; [| rewrite IH]; reflexivity.
Qed.

Lemma chars_append (s t : string) : chars (s ++ t)%string = chars s ++ chars t.
Proof.
  induction s as [| c s IH]; simpl; [| rewrite IH]; reflexivity.
Qed.

(** C3: with typos enabled, typoChance = 1 and [Math.random] in [0,1),
    a run that reaches the end of the text presses, for every character
    that has neighbours and is not the line break, one neighbour in the
    case of the original, then Backspace, then the character, and for every
    other character its own key only; whatever the chance, a character
    without neighbours (only letters have them) and the line break get their
    own key only, in a finished run and in any single pass however it ends;
    with typoChance = 0 the keys pressed are, however the run ends, the
    keys of a prefix of the text and nothing else, and "cat" typed to the
    end is three character emissions. *)
Theorem typo_simulation :
  (forall o env text c c1 log,
      simulateTypos o = true -> (typoChance o == 1)%Q ->
      (forall n, (0 <= random env n)%Q /\ (random env n < 1)%Q) ->
      typeWithHumanSpeed text o env c = (Returned (String.length text), c1, log) ->
      keyBlocks (fun char b => (perturbable char -> typoBlock char b)
                               /\ (~ perturbable char -> plainBlock char b))
        (chars text) (keystrokes log))
  /\ (forall o env text c c1 log,
         typeWithHumanSpeed text o env c = (Returned (String.length text), c1, log) ->
         keyBlocks (fun char b => ~ perturbable char -> plainBlock char b)
           (chars text) (keystrokes log))
  /\ (forall o len base i char env c r c1 l,
         ~ perturbable char ->
         typeChar o len base i char env c = (r, c1, l) ->
         keystrokes l = [emission char] \/ (r <> Returned tt /\ keystrokes l = []))
  /\ (forall char, perturbable char -> isAsciiLower char = true \/ isAsciiUpper char = true)
  /\ (forall o env text c r c1 log,
         (typoChance o == 0)%Q ->
         typeWithHumanSpeed text o env c = (r, c1, log) ->
         filter isDeletion log = []
         /\ (exists k, k <= String.length text
               /\ keystrokes log = map emission (firstn k (chars text)))
         /\ (r = Returned (String.length text) ->
             keystrokes log = map emission (chars text)))
  /\ (forall o env c c1 log,
         (typoChance o == 0)%Q ->
         typeWithHumanSpeed "cat" o env c = (Returned 3, c1, log) ->
         keystrokes log = [KeyType "c"; KeyType "a"; KeyType "t"]).
Proof.
  assert (Hzero : forall o env text c r c1 log,
             (typoChance o == 0)%Q ->
             typeWithHumanSpeed text o env c = (r, c1, log) ->
             (exists k, k <= String.length text
                /\ keystrokes log = map emission (firstn k (chars text)))
             /\ (r = Returned (String.length text) ->
                 keystrokes log = map emission (chars text))).
  { intros o env text c r c1 log Hz H.
    assert (Hoff : forall char, simulateTypos o = false \/ ~ (0 < typoChance o)%Q
                                \/ ~ perturbable char).
    { intros char. right. left. rewrite Hz. discriminate. }
    destruct (typeWithHumanSpeed_any isKeyboard (fun _ char => emission char)
                _ _ _ _ _ _ _ (fun focus Hq => proj1 Hq)
                (fun i char c r c1 l => typeChar_unperturbed o _ _ env i char c r c1 l (Hoff char))
                H) as (k & Hk & Hlog & Hret).
    rewrite <- map_emission_items in Hlog. fold (keystrokes log) in Hlog. split.
    - exists k. split; [exact Hk | exact Hlog].
    - intros Hr. pose proof (Hret _ Hr) as Ek. simpl in Ek. subst k.
      rewrite firstn_all2 in Hlog by (rewrite chars_length; lia). exact Hlog. }
  split; [| split; [| split; [| split; [| split]]]].
  - intros o env text c c1 log Hs Hone Hrange H.
    apply typeWithHumanSpeed_returned in H. destruct H as (focus & body & [Hf _] & H & ->).
    rewrite keystrokes_app, Hf. simpl app.
    assert (Hpos : (0 < typoChance o)%Q) by (rewrite Hone; reflexivity).
    assert (Hroll : forall n, (random env n < typoChance o)%Q).
    { intros n. rewrite Hone. apply Hrange. }
    apply (typeLoop_finished
             (fun char t => (perturbable char -> slip char (keystrokes t))
                            /\ (~ perturbable char -> keystrokes t = []))) in H.
    + apply passes_keyBlocks in H. revert H. apply keyBlocks_weaken.
      intros char b (t & [Hy Hn] & ->). split.
      * intros Hp. destruct (Hy Hp) as (ns & w & Hl & Hw & ->).
        exists ns, w. rewrite (emission_not_newline char (proj2 Hp)). auto.
      * intros Hp. rewrite (Hn Hp). reflexivity.
    + intros char d c2 c3 t Ht. split.
      * intros Hp. exact (typoRoll_certain _ _ _ _ _ _ _ Hs Hpos Hroll Hp Ht).
      * intros Hp.
        destruct (typoRoll_plain o char d env c2 _ _ _ (or_intror (or_intror Hp)) Ht)
          as [_ ->].
        reflexivity.
  - intros o env text c c1 log H.
    apply typeWithHumanSpeed_returned in H. destruct H as (focus & body & [Hf _] & H & ->).
    rewrite keystrokes_app, Hf. simpl app.
    apply (typeLoop_finished (fun char t => ~ perturbable char -> keystrokes t = [])) in H.
    + apply passes_keyBlocks in H. revert H. apply keyBlocks_weaken.
      intros char b (t & Hn & ->) Hp. rewrite (Hn Hp). reflexivity.
    + intros char d c2 c3 t Ht Hp.
      destruct (typoRoll_plain o char d env c2 _ _ _ (or_intror (or_intror Hp)) Ht)
        as [_ ->].
      reflexivity.
  - intros o len base i char env c r c1 l Hp H.
    destruct (typeChar_unperturbed o len base env i char c r c1 l
                (or_intror (or_intror Hp)) H) as [[_ Hk] | Hk]; [left | right]; exact Hk.
  - exact perturbable_letter.
  - intros o env text c r c1 log Hz H. split; [| exact (Hzero _ _ _ _ _ _ _ Hz H)].
    destruct (Hzero _ _ _ _ _ _ _ Hz H) as [(k & _ & Hk) _].
    assert (Hdel : forall l, filter isDeletion l = filter isDeletion (keystrokes l)).
    { induction l as [| e l IH]; [reflexivity |].
      destruct e as [| | | | [] |]; simpl; rewrite IH; reflexivity. }
    rewrite Hdel, Hk. clear. induction (firstn k (chars text)) as [| ch l IH]; [reflexivity |].
    simpl. unfold emission at 1. destruct (Ascii.eqb ch newline); exact IH.
  - intros o env c c1 log Hz H.
    exact (proj2 (Hzero _ _ _ _ _ _ _ Hz H) eq_refl).
Qed.

(** A page on which everything succeeds, no stop, no pause, and
    [Math.random] always at one half. *)
Definition steadyEnv : Env :=
  {| random := fun _ => (1 # 2)%Q;
     shouldStop := fun _ => false;
     pausedFor := fun _ => Some 0;
     locatorCount := fun _ => Some 1;
     clickOk := fun _ => true;
     keyboardOk := fun _ => true |}.

Definition typosAlways : Options :=
  {| wpm := 60%Q; wpmVariance := 10%Q; simulateTypos := true; typoChance := 1%Q;
     punctuationPauses := true; breakEveryChars := 0%Q; breakDurationMs := 5000%Q |}.

Definition typosNever : Options :=
  {| wpm := 60%Q; wpmVariance := 10%Q; simulateTypos := true; typoChance := 0%Q;
     punctuationPauses := true; breakEveryChars := 0%Q; breakDurationMs := 5000%Q |}.

(** "A1" typed with certain typos, and "cat" typed with none. *)
Lemma typo_simulation_witness :
  keyBlocks (fun char b => (perturbable char -> typoBlock char b)
                           /\ (~ perturbable char -> plainBlock char b))
    (chars "A1") (keystrokes (snd (typeWithHumanSpeed "A1" typosAlways steadyEnv start)))
  /\ keystrokes (snd (typeWithHumanSpeed "cat" typosNever steadyEnv start))
     = [KeyType "c"; KeyType "a"; KeyType "t"].
Proof.
  destruct typo_simulation as (Hone & _ & _ & _ & _ & Hcat).
  split.
  - apply (Hone typosAlways steadyEnv "A1" start
             (snd (fst (typeWithHumanSpeed "A1" typosAlways steadyEnv start)))).
    + reflexivity.
    + reflexivity.
    + intros n. split; [discriminate | reflexivity].
    + vm_compute. reflexivity.
  - apply (Hcat typosNever steadyEnv start
             (snd (fst (typeWithHumanSpeed "cat" typosNever steadyEnv start)))).
    + reflexivity.
    + vm_compute. reflexivity.
Defined.

End Typos.

(** ** The typing engine: delivered content, progress and stopping *)

Section Delivery.
Import Typer.
Local Open Scope list_scope.

Lemma document_keystrokes (log : list Event) (doc : list ascii) :
  fold_left applyKey log doc = fold_left applyKey (keystrokes log) doc.
Proof.
  revert doc. induction log as [| e log IH]; intros doc; [reflexivity |].
  destruct e; simpl; apply IH.
Qed.

Lemma applyKey_emission (char : ascii) (doc : list ascii) :
  applyKey doc (emission char) = doc ++ [char].
Proof.
  unfold emission. destruct (Ascii.eqb_spec char newline) as [-> | _]; reflexivity.
Qed.

(** Blocks that each leave their character behind leave the text behind. *)
Lemma keyBlocks_document (block : ascii -> list Event -> Prop) cs ks :
  (forall char b, block char b -> forall doc, fold_left applyKey b doc = doc ++ [char]) ->
  keyBlocks block cs ks ->
  forall doc, fold_left applyKey ks doc = doc ++ cs.
Proof.
  intros Hb H. induction H as [| char rest b ks Hblock _ IH]; intros doc.
  - simpl. rewrite app_nil_r. reflexivity.
  - rewrite fold_left_app, (Hb _ _ Hblock), IH, <- app_assoc. reflexivity.
Qed.

(** C4: in a run that reaches the end of the text, whatever the typo rolls,
    every character's keys are either its own key alone or a wrong key, one
    Backspace and its own key (Enter for the line break), and the document
    the keys leave behind is the text. *)
Theorem typos_leave_the_text (o : Options) (env : Env) (text : string)
  (c c1 : Counters) (log : list Event) :
  typeWithHumanSpeed text o env c = (Returned (String.length text), c1, log) ->
  keyBlocks (fun char b => plainBlock char b \/ typoBlock char b)
    (chars text) (keystrokes log)
  /\ document log = chars text.
Proof.
  intros H.
  apply typeWithHumanSpeed_returned in H. destruct H as (focus & body & [Hf _] & H & ->).
  assert (Hblocks : keyBlocks (fun char b => plainBlock char b \/ typoBlock char b)
                      (chars text) (keystrokes (focus ++ body))).
  { rewrite keystrokes_app, Hf. simpl app.
    apply (typeLoop_finished
             (fun char t => keystrokes t = [] \/ (perturbable char /\ slip char (keystrokes t))))
      in H.
    - apply passes_keyBlocks in H. revert H. apply keyBlocks_weaken.
      intros char b (t & [Ht | [Hp (ns & w & Hl & Hw & Ht)]] & ->); rewrite Ht.
      + left. reflexivity.
      + right. exists ns, w. rewrite (emission_not_newline char (proj2 Hp)). auto.
    - intros char d c2 c3 t Ht.
      destruct (typoRoll_returned _ _ _ _ _ _ _ Ht) as [_ [Hk | (_ & _ & Hp & Hs)]]; auto. }
  split; [exact Hblocks |].
  unfold document. rewrite document_keystrokes.
  apply (keyBlocks_document _ _ _) with (doc := []) in Hblocks; [exact Hblocks |].
  intros char b [-> | (ns & w & _ & _ & ->)] doc; simpl.
  - apply applyKey_emission.
  - rewrite removelast_last. reflexivity.
Qed.

(** "Go" typed with a typo at every letter: G, o and nothing else remain. *)
Lemma typos_leave_the_text_witness :
  document (snd (typeWithHumanSpeed "Go" typosAlways steadyEnv start)) = chars "Go".
Proof.
  apply (typos_leave_the_text typosAlways steadyEnv "Go" start
           (snd (fst (typeWithHumanSpeed "Go" typosAlways steadyEnv start)))).
  vm_compute. reflexivity.
Defined.

(** *** Progress *)

Lemma ofNat_pos (n : nat) : 0 < n -> (0 < ofNat n)%Q.
Proof.
  intros H. unfold ofNat. change 0%Q with (inject_Z 0). rewrite <- Zlt_Qlt. lia.
Qed.

Lemma fractionAt_range (len i : nat) :
  i < len -> (0 <= fractionAt len i)%Q /\ (fractionAt len i <= 1)%Q.
Proof.
  intros H. unfold fractionAt. pose proof (ofNat_pos len ltac:(lia)) as Hpos. split.
  - apply Qle_shift_div_l; [exact Hpos |]. rewrite Qmult_0_l.
    unfold ofNat. change 0%Q with (inject_Z 0). rewrite <- Zle_Qle. lia.
  - apply Qle_shift_div_r; [exact Hpos |]. rewrite Qmult_1_l.
    unfold ofNat. rewrite <- Zle_Qle. lia.
Qed.

Lemma fractionAt_last (len : nat) : 0 < len -> (fractionAt len (len - 1) == 1)%Q.
Proof.
  intros H. unfold fractionAt. replace (len - 1 + 1) with len by lia.
  unfold Qdiv. apply Qmult_inv_r. pose proof (ofNat_pos len H) as Hpos.
  intros E. rewrite E in Hpos. discriminate Hpos.
Qed.

Lemma expectedProgress_In len i cs ch f :
  In (Progress ch f) (expectedProgress len i cs) ->
  exists j, i <= j < i + List.length cs /\ f = fractionAt len j.
Proof.
  revert i. induction cs as [| c cs IH]; intros i; simpl; [intros [] |].
  intros [E | Hin].
  - injection E as _ <-. exists i. split; [lia | reflexivity].
  - destruct (IH _ Hin) as (j & Hj & ->). exists j. split; [lia | reflexivity].
Qed.

Lemma expectedProgress_last len i cs :
  cs <> [] ->
  exists init ch,
    expectedProgress len i cs
    = init ++ [Progress ch (fractionAt len (i + List.length cs - 1))].
Proof.
  revert i. induction cs as [| c cs IH]; intros i Hne; [contradiction |].
  destruct cs as [| c' cs'].
  - exists [], c. simpl. replace (i + 1 - 1) with i by lia. reflexivity.
  - destruct (IH (S i) ltac:(discriminate)) as (init & ch & E).
    exists (Progress c (fractionAt len i) :: init), ch.
    change (expectedProgress len i (c :: c' :: cs'))
      with (Progress c (fractionAt len i) :: expectedProgress len (S i) (c' :: cs')).
    rewrite E.
    replace (i + List.length (c :: c' :: cs') - 1)
      with (S i + List.length (c' :: cs') - 1) by (simpl; lia).
    reflexivity.
Qed.

(** Progress is reported once per passed character and right after its
    delivery: the reports of a run, however it ends, are those of the first
    [k] characters, the one at index [i] carrying (i+1)/n. *)
Lemma progress_of_any_run o env text c r c1 log :
  typeWithHumanSpeed text o env c = (r, c1, log) ->
  exists k, k <= String.length text
    /\ progressReports log
       = expectedProgress (String.length text) 0 (firstn k (chars text))
    /\ (forall n, r = Returned n -> n = k).
Proof.
  intros H.
  destruct (typeWithHumanSpeed_any isProgress
              (fun i char => Progress char (fractionAt (String.length text) i))
              _ _ _ _ _ _ _ (fun focus Hq => proj2 Hq)
              (typeChar_progress o _ _ env) H) as (k & Hk & Hlog & Hret).
  exists k. rewrite expectedProgress_items. auto.
Qed.

(** C8: the progress reports of a run are, however it ends, those of the
    characters it passed, in order, the one for index i carrying the
    fraction (i+1)/n; every fraction reported lies in [0,1]; and in a run
    of a non-empty text that reaches the end, every pass delivers its
    character, reports progress right after it and only then, and the last
    report carries a fraction equal to 1. *)
Theorem progress_reports (o : Options) (env : Env) (text : string)
  (c c1 : Counters) (r : Outcome nat) (log : list Event) :
  text <> EmptyString ->
  typeWithHumanSpeed text o env c = (r, c1, log) ->
  (exists k, k <= String.length text
     /\ progressReports log
        = expectedProgress (String.length text) 0 (firstn k (chars text))
     /\ (r = Returned (String.length text) -> k = String.length text))
  /\ (forall ch f, In (Progress ch f) log -> (0 <= f)%Q /\ (f <= 1)%Q)
  /\ (r = Returned (String.length text) ->
      (exists focus body,
          log = focus ++ body /\ progressReports focus = []
          /\ passes (fun _ t => progressReports t = []) (String.length text) 0
               (chars text) body)
      /\ progressReports log = expectedProgress (String.length text) 0 (chars text)
      /\ exists init ch f,
          progressReports log = init ++ [Progress ch f] /\ (f == 1)%Q).
Proof.
  intros Hne H.
  destruct (progress_of_any_run _ _ _ _ _ _ _ H) as (k & Hk & Hlog & Hret).
  assert (Hfull : r = Returned (String.length text) ->
                  progressReports log = expectedProgress (String.length text) 0 (chars text)).
  { intros Hr. rewrite Hlog, <- (Hret _ Hr), firstn_all2; [reflexivity |].
    rewrite chars_length. lia. }
  split; [| split].
  - exists k. split; [exact Hk |]. split; [exact Hlog |].
    intros Hr. symmetry. exact (Hret _ Hr).
  - intros ch f Hin.
    assert (Hin' : In (Progress ch f) (progressReports log))
      by (apply filter_In; split; [exact Hin | reflexivity]).
    rewrite Hlog in Hin'. apply expectedProgress_In in Hin'.
    destruct Hin' as (j & Hj & ->). apply fractionAt_range.
    rewrite length_firstn, chars_length in Hj. lia.
  - intros Hr. split; [| split; [exact (Hfull Hr) |]].
    + subst r. apply typeWithHumanSpeed_returned in H.
      destruct H as (focus & body & [_ Hf] & H & ->).
      exists focus, body. split; [reflexivity |]. split; [exact Hf |].
      apply (typeLoop_finished (fun _ t => progressReports t = [])) in H; [exact H |].
      intros char d c2 c3 t Ht. exact (proj1 (typoRoll_returned _ _ _ _ _ _ _ Ht)).
    + rewrite (Hfull Hr).
      assert (Hcs : chars text <> []) by (destruct text; [contradiction | discriminate]).
      destruct (expectedProgress_last (String.length text) 0 (chars text) Hcs)
        as (init & ch & E).
      exists init, ch, (fractionAt (String.length text) (0 + List.length (chars text) - 1)).
      split; [exact E |]. rewrite chars_length. simpl.
      apply fractionAt_last. destruct text; [contradiction | simpl; lia].
Qed.

Definition plainOptions : Options :=
  {| wpm := 60%Q; wpmVariance := 10%Q; simulateTypos := false; typoChance := (2 # 100)%Q;
     punctuationPauses := true; breakEveryChars := 0%Q; breakDurationMs := 5000%Q |}.

(** "Hi." at 60 words per minute: three reports, 1/3, 2/3 and 3/3. *)
Lemma progress_reports_witness :
  progressReports (snd (typeWithHumanSpeed "Hi." plainOptions steadyEnv start))
  = [Progress "H" (1 # 3)%Q; Progress "i" (2 # 3)%Q; Progress "." (3 # 3)%Q].
Proof.
  destruct (progress_reports plainOptions steadyEnv "Hi." start
              (snd (fst (typeWithHumanSpeed "Hi." plainOptions steadyEnv start)))
              (Returned 3)
              (snd (typeWithHumanSpeed "Hi." plainOptions steadyEnv start)))
    as (_ & _ & Hend).
  - discriminate.
  - vm_compute. reflexivity.
  - destruct (Hend eq_refl) as (_ & E & _). rewrite E. vm_compute. reflexivity.
Defined.

(** *** Stopping *)

(** C7: the stop predicate is consulted at the head of every pass; when it
    answers [true] the loop returns at once with the index of the
    character not typed, having emitted nothing; so a run whose predicate
    first answers [true] after the characters of [pre] does, once the focus
    attempt is over, exactly what the loop over [pre] does and then returns
    normally, its progress reports being those of the characters of [pre];
    the stop does not throw.  (A run whose focus attempt is rejected by a
    count query never reaches the loop and ends with that error.) *)
Theorem stop_is_clean :
  (forall o len base i char rest env c,
      shouldStop env (nStop c) = true ->
      typeLoop o len base i (String char rest) env c = (Returned i, stopChecked c, []))
  /\ (forall o env pre rest c r c1 log,
         rest <> EmptyString ->
         (forall j, j < String.length pre -> shouldStop env (nStop c + j) = false) ->
         shouldStop env (nStop c + String.length pre) = true ->
         typeWithHumanSpeed (pre ++ rest)%string o env c = (r, c1, log) ->
         exists focus body,
           quietFocus focus /\ log = focus ++ body
           /\ (r, c1, body)
              = match focusDoc focusSelectors env c with
                | (Returned _, _, _) =>
                    match typeLoop o (String.length (pre ++ rest)) (wpmToMsPerChar (wpm o))
                            0 pre env c with
                    | (Returned _, c2, l) => (Returned (String.length pre), stopChecked c2, l)
                    | failed => failed
                    end
                | (Threw e, c2, _) => (Threw e, c2, [])
                | (Hung, c2, _) => (Hung, c2, [])
                end
           /\ (forall n, r = Returned n ->
               n = String.length pre
               /\ progressReports log
                  = expectedProgress (String.length (pre ++ rest)) 0 (chars pre))).
Proof.
  split.
  - intros o len base i char rest env c Hstop. simpl.
    unfold bind, callShouldStop. rewrite Hstop. reflexivity.
  - intros o env pre rest c r c1 log Hrest Hno Hyes H.
    pose proof (progress_of_any_run _ _ _ _ _ _ _ H) as (k & Hk & Hlog & Hret).
    apply typeWithHumanSpeed_inv in H.
    destruct H as (focus & body & Hq & [[[l0 Hfocus] H] | [Hfocus H]] & ->);
      exists focus, body; (split; [exact Hq |]); (split; [reflexivity |]);
      rewrite Hfocus;
      [| split; [exact H | intros n Hn; subst r; discriminate H]].
    rewrite (typeLoop_stops_after _ _ _ _ _ _ Hrest _ _ Hno Hyes) in H.
    split.
    + rewrite <- H. reflexivity.
    + intros n Hn. subst r.
      assert (En : n = String.length pre).
      { destruct (typeLoop _ _ _ 0 pre env c) as [[[m | e |] c2] l];
          [injection H as <- _ _; reflexivity | discriminate H | discriminate H]. }
      split; [exact En |].
      rewrite Hlog, <- (Hret n eq_refl), En, chars_append.
      rewrite firstn_app, chars_length, Nat.sub_diag, firstn_all2
        by (rewrite chars_length; lia).
      simpl. rewrite app_nil_r. reflexivity.
Qed.

(** A page like [steadyEnv] whose stop predicate answers [true] from its
    third call on. *)
Definition stopAfterTwo : Env :=
  {| random := fun _ => (1 # 2)%Q;
     shouldStop := fun n => Nat.leb 2 n;
     pausedFor := fun _ => Some 0;
     locatorCount := fun _ => Some 1;
     clickOk := fun _ => true;
     keyboardOk := fun _ => true |}.

(** "Hi." stopped before its third character: H and i are typed, two
    reports are made, and the run returns 2. *)
Lemma stop_is_clean_witness :
  fst (fst (typeWithHumanSpeed "Hi." plainOptions stopAfterTwo start)) = Returned 2
  /\ progressReports (snd (typeWithHumanSpeed "Hi." plainOptions stopAfterTwo start))
     = [Progress "H" (1 # 3)%Q; Progress "i" (2 # 3)%Q].
Proof.
  destruct (proj2 stop_is_clean plainOptions stopAfterTwo "Hi" "." start
              (fst (fst (typeWithHumanSpeed "Hi." plainOptions stopAfterTwo start)))
              (snd (fst (typeWithHumanSpeed "Hi." plainOptions stopAfterTwo start)))
              (snd (typeWithHumanSpeed "Hi." plainOptions stopAfterTwo start)))
    as (focus & body & _ & _ & _ & Hret).
  - discriminate.
  - intros j Hj. simpl in *. destruct j as [| [| j]]; [reflexivity | reflexivity | lia].
  - reflexivity.
  - vm_compute. reflexivity.
  - split; [vm_compute; reflexivity |].
    destruct (Hret 2) as [_ E]; [vm_compute; reflexivity |].
    rewrite E. vm_compute. reflexivity.
Defined.

End Delivery.

(** ** The agent: content resolution *)

Section Resolution.
Import Agent.
Local Open Scope list_scope.

Variable fs : FileSystem.

Definition hasContent (j : Job) : bool := negb (isEmpty (resolveContent fs j)).

Definition skipWarning (j : Job) : Event :=
  ConsoleWarn ("Skipping job (no content): " ++ docUrl j).

Definition resolved (j : Job) : Job :=
  withContent j (resolveContent fs j) (normalizeDocUrl (docUrl j)).

Lemma resolveJobs_spec (jobs : list Job) :
  resolveJobs fs jobs
  = (map skipWarning (filter (fun j => negb (hasContent j)) jobs),
     map resolved (filter hasContent jobs)).
Proof.
  induction jobs as [| j rest IH]; [reflexivity |].
  simpl. rewrite IH. unfold hasContent.
  destruct (isEmpty (resolveContent fs j)); reflexivity.
Qed.

Lemma filter_hasContent_idempotent (jobs : list Job) :
  filter hasContent (filter hasContent jobs) = filter hasContent jobs.
Proof.
  induction jobs as [| j rest IH]; [reflexivity |].
  simpl. destruct (hasContent j) eqn:E; [simpl; rewrite E, IH |]; auto.
Qed.

Lemma filter_hasContent_none (jobs : list Job) :
  filter (fun j => negb (hasContent j)) (filter hasContent jobs) = [].
Proof.
  induction jobs as [| j rest IH]; [reflexivity |].
  simpl. destruct (hasContent j) eqn:E; [simpl; rewrite E |]; auto.
Qed.

End Resolution.

(** A file system without files, and descriptors with inline content. *)
Definition noFiles : Agent.FileSystem :=
  {| Agent.resolvePath := fun p => p; Agent.readFile := fun _ => None |}.

Definition inlineJob (text url : string) : Agent.Job :=
  {| Agent.essayContent := Some text; Agent.essay := None; Agent.essayPath := None;
     Agent.docUrl := url;
     Agent.wpm := None; Agent.wpmVariance := None; Agent.simulateTypos := None;
     Agent.typoChance := None; Agent.punctuationPauses := None;
     Agent.breakEveryChars := None; Agent.breakDurationMs := None |}.

Definition blankJob : Agent.Job := inlineJob "   " "1a2b3c4d5e6f7g8h9i0j".
Definition shortJob : Agent.Job := inlineJob " Hi " "1a2b3c4d5e6f7g8h9i0k".

(** A browser in which the first tab fails to load its document and every
    other tab works. *)
Definition goodTab : Agent.JobWorld :=
  {| Agent.newPageOk := true; Agent.gotoOk := true; Agent.loadStateOk := true;
     Agent.page := steadyEnv |}.

Definition deadTab : Agent.JobWorld :=
  {| Agent.newPageOk := true; Agent.gotoOk := false; Agent.loadStateOk := true;
     Agent.page := steadyEnv |}.

Definition firstTabDead (k : nat) : Agent.JobWorld :=
  match k with
  | O => deadTab
  | S _ => goodTab
  end.

Definition twoJobs : list Agent.Job := [shortJob; shortJob].

(** A browser that cannot open a tab. *)
Definition noTab : Agent.JobWorld :=
  {| Agent.newPageOk := false; Agent.gotoOk := true; Agent.loadStateOk := true;
     Agent.page := steadyEnv |}.

(** ** The agent: scheduling *)

Section Scheduling.
Import Agent.
Local Open Scope list_scope.

Variable fs : FileSystem.
Variable world : nat -> JobWorld.
Variable close : bool.

Definition bodyOf (k : nat) (job : Job) : list Event :=
  fst (jobBody fs (world k) close k job).

Definition resultOf (k : nat) (job : Job) : Settlement :=
  snd (jobBody fs (world k) close k job).

Lemma runJob_split (k : nat) (job : Job) :
  runJob fs (world k) close k job = (jobPrologue fs k job ++ bodyOf k job, resultOf k job).
Proof.
  unfold runJob, bodyOf, resultOf. destruct (jobBody fs (world k) close k job). reflexivity.
Qed.

(** Every event of a job carries the job's index. *)
Definition tagged (k : nat) (log : list Event) : Prop :=
  forall e, In e log -> jobOf e = Some k.

Lemma tagged_app k l1 l2 : tagged k l1 -> tagged k l2 -> tagged k (l1 ++ l2).
Proof.
  intros H1 H2 e Hin. apply in_app_or in Hin. destruct Hin; auto.
Qed.

Lemma tagged_cons k e l : jobOf e = Some k -> tagged k l -> tagged k (e :: l).
Proof.
  intros He Hl x [<- | Hin]; auto.
Qed.

Lemma tagged_nil k : tagged k [].
Proof.
  intros e [].
Qed.

Lemma tagged_onPage k l : tagged k (map (OnPage k) l).
Proof.
  intros e Hin. apply in_map_iff in Hin. destruct Hin as (x & <- & _). reflexivity.
Qed.

Lemma tagged_closeTab k b : tagged k (closeTab b k).
Proof.
  destruct b; [apply tagged_cons; [reflexivity | apply tagged_nil] | apply tagged_nil].
Qed.

Lemma tagged_prologue k job : tagged k (jobPrologue fs k job).
Proof.
  unfold jobPrologue. destruct (isEmpty (jobEssay fs job));
    [apply tagged_nil | apply tagged_cons; [reflexivity | apply tagged_nil]].
Qed.

Lemma tagged_body k job : tagged k (bodyOf k job).
Proof.
  unfold bodyOf, jobBody.
  destruct (isEmpty (jobEssay fs job)); [apply tagged_nil |].
  destruct (negb (newPageOk (world k))); [apply tagged_nil |].
  destruct (negb (gotoOk (world k) && loadStateOk (world k))).
  - simpl. repeat (apply tagged_cons; [reflexivity |]). apply tagged_closeTab.
  - destruct (Typer.typeWithHumanSpeed _ _ _ _) as [[[n | e |] c] log]; simpl;
      repeat (apply tagged_cons; [reflexivity |]);
      repeat (apply tagged_app; [apply tagged_onPage |]);
      try apply tagged_onPage;
      apply tagged_cons; try reflexivity; apply tagged_closeTab.
Qed.

Lemma eventsOf_app k l1 l2 : eventsOf k (l1 ++ l2) = eventsOf k l1 ++ eventsOf k l2.
Proof.
  apply filter_app.
Qed.

Lemma eventsOf_In k l e : In e (eventsOf k l) -> In e l.
Proof.
  intros H. apply filter_In in H. exact (proj1 H).
Qed.

Lemma eventsOf_tagged k l : tagged k l -> eventsOf k l = l.
Proof.
  intros H. induction l as [| e l IH]; [reflexivity |].
  simpl. unfold isJob. rewrite (H e (or_introl eq_refl)), Nat.eqb_refl.
  f_equal. apply IH. intros x Hx. apply H. right. exact Hx.
Qed.

Lemma eventsOf_other k j l : j <> k -> tagged j l -> eventsOf k l = [].
Proof.
  intros Hne H. induction l as [| e l IH]; [reflexivity |].
  simpl. unfold isJob. rewrite (H e (or_introl eq_refl)).
  destruct (Nat.eqb_spec j k); [contradiction |].
  apply IH. intros x Hx. apply H. right. exact Hx.
Qed.

(** *** One job after the other *)

(** The logs of the jobs [jobs], the first with index [k], run to their
    ends one after the other. *)
Fixpoint jobLogs (k : nat) (jobs : list Job) : list Event :=
  match jobs with
  | [] => []
  | job :: rest => fst (runJob fs (world k) close k job) ++ jobLogs (S k) rest
  end.

(** Every job of [jobs], the first with index [k], is fulfilled. *)
Fixpoint allFulfilled (k : nat) (jobs : list Job) : Prop :=
  match jobs with
  | [] => True
  | job :: rest => resultOf k job = Fulfilled /\ allFulfilled (S k) rest
  end.

Lemma eventsOf_jobLogs_later k0 jobs k :
  k0 + List.length jobs <= k -> eventsOf k (jobLogs k0 jobs) = [].
Proof.
  revert k0. induction jobs as [| job rest IH]; intros k0 Hk; [reflexivity |].
  simpl in *. rewrite eventsOf_app, runJob_split. simpl fst.
  rewrite (eventsOf_other k k0);
    [| lia | apply tagged_app; [apply tagged_prologue | apply tagged_body]].
  apply IH. lia.
Qed.

Lemma runSequential_fulfilled k0 jobs :
  allFulfilled k0 jobs ->
  runSequential fs world close k0 jobs = (jobLogs k0 jobs, Fulfilled).
Proof.
  revert k0. induction jobs as [| job rest IH]; intros k0 H; [reflexivity |].
  destruct H as [Hjob Hrest]. simpl.
  rewrite runJob_split in *. rewrite Hjob, (IH _ Hrest). reflexivity.
Qed.

(** The loop stops at the first job that is not fulfilled. *)
Lemma runSequential_stops k0 pre job post :
  allFulfilled k0 pre ->
  resultOf (k0 + List.length pre) job <> Fulfilled ->
  runSequential fs world close k0 (pre ++ job :: post)
  = (jobLogs k0 (pre ++ [job]), resultOf (k0 + List.length pre) job).
Proof.
  revert k0. induction pre as [| j pre IH]; intros k0 Hpre Hjob.
  - simpl in *. rewrite Nat.add_0_r in *. rewrite runJob_split. simpl fst.
    rewrite app_nil_r. destruct (resultOf k0 job); [contradiction | reflexivity ..].
  - destruct Hpre as [Hj Hpre]. simpl in *.
    replace (k0 + S (List.length pre)) with (S k0 + List.length pre) in * by lia.
    rewrite runJob_split in *. rewrite Hj, (IH _ Hpre Hjob). reflexivity.
Qed.

End Scheduling.

(** *** All jobs at once *)

Section Parallel.
Import Agent.
Local Open Scope list_scope.

Variable fs : FileSystem.
Variable world : nat -> JobWorld.
Variable close : bool.

Lemma startAll_cons k0 j rest :
  startAll fs world close k0 (j :: rest)
  = (jobPrologue fs k0 j ++ fst (startAll fs world close (S k0) rest),
     {| remaining := bodyOf fs world close k0 j;
        result := resultOf fs world close k0 j;
        settled := false |} :: snd (startAll fs world close (S k0) rest)).
Proof.
  simpl. unfold bodyOf, resultOf.
  destruct (jobBody fs (world k0) close k0 j) as [b r].
  destruct (startAll fs world close (S k0) rest) as [log ts]. reflexivity.
Qed.

Lemma startAll_nth jobs : forall k0 i job,
  nth_error jobs i = Some job ->
  exists t, nth_error (snd (startAll fs world close k0 jobs)) i = Some t
            /\ remaining t = bodyOf fs world close (k0 + i) job
            /\ result t = resultOf fs world close (k0 + i) job.
Proof.
  induction jobs as [| j rest IH]; intros k0 i job Hi; [destruct i; discriminate |].
  rewrite startAll_cons. destruct i as [| i].
  - injection Hi as <-. rewrite Nat.add_0_r. eexists. split; [reflexivity |]. auto.
  - replace (k0 + S i) with (S k0 + i) by lia. exact (IH (S k0) i job Hi).
Qed.

Lemma startAll_length jobs : forall k0,
  List.length (snd (startAll fs world close k0 jobs)) = List.length jobs.
Proof.
  induction jobs as [| j rest IH]; intros k0; [reflexivity |].
  rewrite startAll_cons. simpl. rewrite IH. reflexivity.
Qed.

Lemma startAll_events_before jobs : forall k0 k,
  k < k0 -> eventsOf k (fst (startAll fs world close k0 jobs)) = [].
Proof.
  induction jobs as [| j rest IH]; intros k0 k Hk; [reflexivity |].
  rewrite startAll_cons. cbn [fst]. rewrite eventsOf_app, IH by lia.
  rewrite app_nil_r. apply (eventsOf_other k k0); [lia | apply tagged_prologue].
Qed.

Lemma startAll_events jobs : forall k0 i job,
  nth_error jobs i = Some job ->
  eventsOf (k0 + i) (fst (startAll fs world close k0 jobs)) = jobPrologue fs (k0 + i) job.
Proof.
  induction jobs as [| j rest IH]; intros k0 i job Hi; [destruct i; discriminate |].
  rewrite startAll_cons. cbn [fst]. rewrite eventsOf_app. destruct i as [| i].
  - injection Hi as <-. rewrite Nat.add_0_r.
    rewrite startAll_events_before by lia. rewrite app_nil_r.
    apply eventsOf_tagged, tagged_prologue.
  - replace (k0 + S i) with (S k0 + i) by lia.
    rewrite (IH (S k0) i job Hi).
    rewrite (eventsOf_other (S k0 + i) k0); [reflexivity | lia | apply tagged_prologue].
Qed.

Lemma replaceAt_length {A} (k : nat) (x : A) (l : list A) :
  List.length (replaceAt k x l) = List.length l.
Proof.
  revert k. induction l as [| y l IH]; intros [| k]; simpl; auto.
Qed.

Lemma replaceAt_same {A} (k : nat) (x y : A) (l : list A) :
  nth_error l k = Some y -> nth_error (replaceAt k x l) k = Some x.
Proof.
  revert k. induction l as [| z l IH]; intros [| k]; simpl; try discriminate; auto.
Qed.

Lemma replaceAt_other {A} (k i : nat) (x : A) (l : list A) :
  i <> k -> nth_error (replaceAt k x l) i = nth_error l i.
Proof.
  revert k i. induction l as [| z l IH]; intros [| k] [| i] H; simpl; auto.
  contradiction.
Qed.

(** What one resumption of task [k] changes. *)
Lemma tick_spec (p : Pool) (k : nat) (t : Task) :
  nth_error (tasks p) k = Some t ->
  exists t' extra,
    nth_error (tasks (tick p k)) k = Some t'
    /\ remaining t' = tl (remaining t) /\ result t' = result t
    /\ (forall i, i <> k -> nth_error (tasks (tick p k)) i = nth_error (tasks p) i)
    /\ List.length (tasks (tick p k)) = List.length (tasks p)
    /\ journal (tick p k) = journal p ++ extra
    /\ (extra = firstn 1 (remaining t) \/ (remaining t = [] /\ extra = [allFinished])).
Proof.
  intros Ht. unfold tick. rewrite Ht.
  destruct t as [rem res done]. simpl.
  destruct rem as [| e rest].
  - assert (Hsame : exists t' extra,
              nth_error (tasks p) k = Some t'
              /\ remaining t' = [] /\ result t' = res
              /\ (forall i, i <> k -> nth_error (tasks p) i = nth_error (tasks p) i)
              /\ List.length (tasks p) = List.length (tasks p)
              /\ journal p = journal p ++ extra
              /\ (extra = [] \/ ([] = @nil Event /\ extra = [allFinished]))).
    { eexists _, []. rewrite app_nil_r. split; [exact Ht |]. simpl. auto 10. }
    destruct done; [exact Hsame |].
    destruct res as [| e |]; [| | exact Hsame]; destruct (batch p);
      try destruct (forallb isFulfilled _); simpl;
      eexists _, _;
      (split; [eapply replaceAt_same; exact Ht |]);
      (split; [reflexivity |]); (split; [reflexivity |]);
      (split; [intros i Hi; apply replaceAt_other; exact Hi |]);
      (split; [apply replaceAt_length |]);
      first [ split; [reflexivity | right; split; reflexivity]
            | split; [symmetry; apply app_nil_r | left; reflexivity] ].
  - simpl. eexists _, [e].
    split; [eapply replaceAt_same; exact Ht |].
    split; [reflexivity |]. split; [reflexivity |].
    split; [intros i Hi; apply replaceAt_other; exact Hi |].
    split; [apply replaceAt_length |]. auto.
Qed.

Variable jobs : list Job.

(** The pool after task [i] has been resumed [resumed i] times: its events
    in the journal are the first so many of its own run, the others are
    still to come, and no other job has a say in them. *)
Definition inStep (resumed : nat -> nat) (p : Pool) : Prop :=
  List.length (tasks p) = List.length jobs
  /\ forall i job, nth_error jobs i = Some job ->
       (exists t, nth_error (tasks p) i = Some t
                  /\ remaining t = skipn (resumed i) (bodyOf fs world close i job)
                  /\ result t = resultOf fs world close i job)
       /\ eventsOf i (journal p)
          = jobPrologue fs i job ++ firstn (resumed i) (bodyOf fs world close i job).

Lemma skipn_step {A} (n : nat) (l : list A) :
  skipn (S n) l = tl (skipn n l)
  /\ firstn (S n) l = firstn n l ++ firstn 1 (skipn n l).
Proof.
  revert l. induction n as [| n IH]; intros l.
  - destruct l; simpl; auto.
  - destruct l as [| x l]; [simpl; auto |].
    destruct (IH l) as [H1 H2]. split.
    + exact H1.
    + change (firstn (S (S n)) (x :: l)) with (x :: firstn (S n) l).
      rewrite H2. reflexivity.
Qed.

Lemma In_skipn_weaken {A} (n : nat) (l : list A) (x : A) : In x (skipn n l) -> In x l.
Proof.
  intros H. rewrite <- (firstn_skipn n l). apply in_or_app. right. exact H.
Qed.

Lemma In_firstn_weaken {A} (n : nat) (l : list A) (x : A) : In x (firstn n l) -> In x l.
Proof.
  intros H. rewrite <- (firstn_skipn n l). apply in_or_app. left. exact H.
Qed.

Lemma inStep_ext (r1 r2 : nat -> nat) (p : Pool) :
  (forall i, r1 i = r2 i) -> inStep r1 p -> inStep r2 p.
Proof.
  intros E [Hlen H]. split; [exact Hlen |].
  intros i job Hi. rewrite <- E. exact (H i job Hi).
Qed.

Lemma inStep_tick (resumed : nat -> nat) (p : Pool) (k : nat) :
  inStep resumed p ->
  inStep (fun i => (if Nat.eqb k i then 1 else 0) + resumed i) (tick p k).
Proof.
  intros [Hlen Hinv].
  destruct (nth_error (tasks p) k) as [t |] eqn:Ht.
  - destruct (tick_spec p k t Ht) as (t' & extra & Hk & Hrem & Hres & Hoth & Hl & Hj & Hx).
    assert (Hjob : exists job, nth_error jobs k = Some job).
    { destruct (nth_error jobs k) as [job |] eqn:E; [eauto |].
      apply nth_error_None in E.
      assert (k < List.length (tasks p)) by (apply nth_error_Some; congruence). lia. }
    destruct Hjob as [jobk Hjobk].
    destruct (Hinv k jobk Hjobk) as [(t0 & Ht0 & Hrem0 & Hres0) Hev0].
    rewrite Ht in Ht0. injection Ht0 as <-.
    assert (Htag : tagged k (firstn 1 (remaining t))).
    { intros e He. apply (tagged_body fs world close k jobk).
      rewrite Hrem0 in He. apply In_firstn_weaken in He.
      exact (In_skipn_weaken _ _ _ He). }
    assert (Hextra : forall i, eventsOf i extra
                               = if Nat.eqb k i then firstn 1 (remaining t) else []).
    { intros i. destruct Hx as [-> | [Hnil ->]].
      - destruct (Nat.eqb_spec k i) as [<- | Hne].
        + apply eventsOf_tagged, Htag.
        + apply (eventsOf_other i k); [exact Hne | exact Htag].
      - rewrite Hnil. destruct (Nat.eqb k i); reflexivity. }
    split; [congruence |].
    intros i job Hi. rewrite Hj, eventsOf_app, Hextra.
    destruct (Nat.eqb_spec k i) as [<- | Hne].
    + rewrite Hjobk in Hi. injection Hi as <-.
      destruct (skipn_step (resumed k) (bodyOf fs world close k jobk)) as [Hs Hf].
      simpl Nat.add. split.
      * exists t'. split; [exact Hk |]. split; [| congruence].
        rewrite Hrem, Hrem0, Hs. reflexivity.
      * rewrite Hev0, Hf, <- Hrem0, <- app_assoc. reflexivity.
    + simpl Nat.add. destruct (Hinv i job Hi) as [Htask Hev]. split.
      * rewrite (Hoth i (not_eq_sym Hne)). exact Htask.
      * rewrite Hev, app_nil_r. reflexivity.
  - assert (Hsame : tick p k = p) by (unfold tick; rewrite Ht; reflexivity).
    rewrite Hsame. split; [exact Hlen |].
    intros i job Hi. destruct (Nat.eqb_spec k i) as [<- | Hne]; [| exact (Hinv i job Hi)].
    destruct (Hinv k job Hi) as [(t0 & Ht0 & _) _]. congruence.
Qed.

Lemma inStep_run (schedule : list nat) : forall (resumed : nat -> nat) (p : Pool),
  inStep resumed p ->
  inStep (fun i => count_occ Nat.eq_dec schedule i + resumed i) (fold_left tick schedule p).
Proof.
  induction schedule as [| k rest IH]; intros resumed p H; [exact H |].
  simpl fold_left. apply (inStep_tick _ _ k) in H. apply IH in H.
  revert H. apply inStep_ext. intros i. simpl.
  destruct (Nat.eq_dec k i) as [-> | Hne].
  - rewrite Nat.eqb_refl. lia.
  - destruct (Nat.eqb_spec k i); [contradiction | lia].
Qed.

Lemma inStep_start : inStep (fun _ => 0)
  {| tasks := snd (startAll fs world close 0 jobs); batch := None;
     journal := fst (startAll fs world close 0 jobs) |}.
Proof.
  split; [apply startAll_length |].
  intros i job Hi. simpl. split.
  - destruct (startAll_nth jobs 0 i job Hi) as (t & Ht & Hb & Hr). eauto.
  - rewrite app_nil_r. exact (startAll_events jobs 0 i job Hi).
Qed.

(** Under any schedule, the events of job [k] in the journal of the
    parallel branch are the events of its own run up to the point the
    schedule has taken it to. *)
Lemma runParallel_events (schedule : list nat) (k : nat) (job : Job) :
  nth_error jobs k = Some job ->
  eventsOf k (journal (runParallel fs world close schedule jobs))
  = jobPrologue fs k job
      ++ firstn (count_occ Nat.eq_dec schedule k) (bodyOf fs world close k job).
Proof.
  intros Hk. unfold runParallel.
  pose proof (inStep_run schedule _ _ inStep_start) as [_ H].
  destruct (startAll fs world close 0 jobs) as [log ts].
  destruct (H k job Hk) as [_ E]. rewrite Nat.add_0_r in E. exact E.
Qed.

End Parallel.

(** *** The whole batch *)

Section WholeBatch.
Import Agent.
Local Open Scope list_scope.

Variable fs : FileSystem.
Variable world : nat -> JobWorld.

Lemma eventsOf_warnings (k : nat) (jobs : list Job) :
  eventsOf k (map skipWarning jobs) = [].
Proof.
  induction jobs as [| j rest IH]; [reflexivity | exact IH].
Qed.

Lemma warnings_spec (jobs : list Job) :
  fst (resolveJobs fs jobs)
  = map skipWarning (filter (fun j => negb (hasContent fs j)) jobs).
Proof.
  rewrite resolveJobs_spec. reflexivity.
Qed.

(** A job of the executable set carries its content, so its run starts
    with the start callback. *)
Lemma resolved_essay (jobs : list Job) (job : Job) :
  In job (snd (resolveJobs fs jobs)) ->
  isEmpty (jobEssay fs job) = false.
Proof.
  rewrite resolveJobs_spec. simpl. intros H.
  apply in_map_iff in H. destruct H as (d & <- & Hd).
  apply filter_In in Hd. destruct Hd as [_ Hc].
  unfold hasContent in Hc. apply negb_true_iff in Hc.
  unfold jobEssay, resolved, withContent. simpl. rewrite Hc. exact Hc.
Qed.

Lemma prologue_start (k : nat) (job : Job) :
  isEmpty (jobEssay fs job) = false ->
  jobPrologue fs k job = [JobStart k (String.length (jobEssay fs job))].
Proof.
  intros H. unfold jobPrologue. rewrite H. reflexivity.
Qed.

(** The parallel branch of [runAgent]: the events of a job of the
    executable set are those of its own run, as far as the schedule has
    taken it. *)
Lemma runAgent_parallel_events (schedule : list nat) (jobs : list Job) (closing : bool)
  (k : nat) (job : Job) :
  nth_error (snd (resolveJobs fs jobs)) k = Some job ->
  eventsOf k (fst (runAgent fs world schedule jobs
                     {| sequential := false; closeTabOnComplete := closing |}))
  = firstn (1 + count_occ Nat.eq_dec schedule k) (fst (runJob fs (world k) closing k job)).
Proof.
  intros Hk.
  assert (He : isEmpty (jobEssay fs job) = false)
    by (apply (resolved_essay jobs); eapply nth_error_In; exact Hk).
  unfold runAgent.
  pose proof (warnings_spec jobs) as Hw.
  destruct (resolveJobs fs jobs) as [warnings resolvedJobs]. simpl in Hw, Hk. subst warnings.
  destruct resolvedJobs as [| j0 rest]; [destruct k; discriminate Hk |].
  cbn [sequential closeTabOnComplete fst].
  rewrite eventsOf_app, eventsOf_warnings. simpl app.
  rewrite (runParallel_events fs world closing (j0 :: rest) schedule k job Hk).
  rewrite runJob_split. cbn [fst]. rewrite (prologue_start k job He). reflexivity.
Qed.

(** The sequential branch of [runAgent]: the warnings, the log of the
    loop, and the closing message unless the loop is blocked. *)
Lemma runAgent_sequential (schedule : list nat) (jobs : list Job) (closing : bool) :
  snd (resolveJobs fs jobs) <> [] ->
  runAgent fs world schedule jobs {| sequential := true; closeTabOnComplete := closing |}
  = (let close := (Nat.ltb 1 (List.length (snd (resolveJobs fs jobs))) && closing)%bool in
     let (log, r) := runSequential fs world close 0 (snd (resolveJobs fs jobs)) in
     (fst (resolveJobs fs jobs) ++ log
        ++ match r with
           | Pending => []
           | _ => [allFinished]
           end, r)).
Proof.
  intros Hne. unfold runAgent.
  destruct (resolveJobs fs jobs) as [warnings resolvedJobs]. simpl in *.
  destruct resolvedJobs as [| j0 rest]; [contradiction |].
  cbn [sequential closeTabOnComplete].
  destruct (runSequential fs world _ 0 (j0 :: rest)) as [log []];
    rewrite ?app_nil_r; reflexivity.
Qed.

Lemma runSequential_first (close : bool) (k : nat) (job : Job) (rest : list Job) :
  exists tail,
    fst (runSequential fs world close k (job :: rest))
    = fst (runJob fs (world k) close k job) ++ tail.
Proof.
  simpl. destruct (runJob fs (world k) close k job) as [log r].
  destruct r as [| e |].
  - destruct (runSequential fs world close (S k) rest) as [log' r']. exists log'. reflexivity.
  - exists []. rewrite app_nil_r. reflexivity.
  - exists []. rewrite app_nil_r. reflexivity.
Qed.

End WholeBatch.

(** C6: the descriptors whose resolved, trimmed content is empty are taken
    out before anything runs, one warning each; the executable set is the
    other descriptors, in order, with their content and normalised target;
    the run of the batch is the warnings followed by the run of the batch
    without the empty descriptors, and it ends the same way, so an empty
    descriptor never aborts it; and the jobs of the executable set do run.
    In the parallel branch every one of them is announced by its start
    callback and performs the events of its own run as far as the schedule
    takes it, all of them when it is resumed often enough.  In the
    sequential branch the first of them is announced and runs to its end,
    and when they are all fulfilled the log is the warnings, the complete
    run of every one of them in order and the closing message. *)
Theorem empty_content_is_skipped (fs : Agent.FileSystem) (jobs : list Agent.Job) :
  Agent.resolveJobs fs jobs
  = (map skipWarning (filter (fun j => negb (hasContent fs j)) jobs),
     map (resolved fs) (filter (hasContent fs) jobs))
  /\ (forall j, In j jobs -> Agent.resolveContent fs j = EmptyString ->
        ~ In (resolved fs j) (snd (Agent.resolveJobs fs jobs))
        /\ In (skipWarning j) (fst (Agent.resolveJobs fs jobs)))
  /\ (forall world schedule options,
        Agent.runAgent fs world schedule jobs options
        = (let (log, outcome) :=
             Agent.runAgent fs world schedule (filter (hasContent fs) jobs) options in
           ((fst (Agent.resolveJobs fs jobs) ++ log)%list, outcome)))
  /\ (forall world schedule closing k job,
        nth_error (snd (Agent.resolveJobs fs jobs)) k = Some job ->
        let log := fst (Agent.runAgent fs world schedule jobs
                          {| Agent.sequential := false;
                             Agent.closeTabOnComplete := closing |}) in
        let own := fst (Agent.runJob fs (world k) closing k job) in
        In (Agent.JobStart k (String.length (Agent.jobEssay fs job))) log
        /\ Agent.eventsOf k log = firstn (1 + count_occ Nat.eq_dec schedule k) own
        /\ (List.length own <= 1 + count_occ Nat.eq_dec schedule k ->
            Agent.eventsOf k log = own))
  /\ (forall world schedule closing job rest,
        snd (Agent.resolveJobs fs jobs) = (job :: rest)%list ->
        let close := (Nat.ltb 1 (List.length (job :: rest)) && closing)%bool in
        let run := Agent.runAgent fs world schedule jobs
                     {| Agent.sequential := true; Agent.closeTabOnComplete := closing |} in
        In (Agent.JobStart 0 (String.length (Agent.jobEssay fs job))) (fst run)
        /\ (exists tail,
              fst run = (fst (Agent.resolveJobs fs jobs)
                           ++ fst (Agent.runJob fs (world 0) close 0 job) ++ tail)%list)
        /\ (allFulfilled fs world close 0 (job :: rest) ->
            run = ((fst (Agent.resolveJobs fs jobs)
                      ++ jobLogs fs world close 0 (job :: rest)
                      ++ [Agent.allFinished])%list, Agent.Fulfilled))).
Proof.
  split; [apply resolveJobs_spec | split; [| split; [| split]]].
  - intros j Hin Hempty. rewrite resolveJobs_spec. simpl. split.
    + intros H. apply in_map_iff in H. destruct H as (j' & E & Hj').
      apply filter_In in Hj'. destruct Hj' as [_ Hc].
      unfold hasContent in Hc. apply negb_true_iff in Hc.
      assert (Er : Agent.resolveContent fs j' = EmptyString).
      { apply (f_equal Agent.essay) in E. simpl in E. injection E as E.
        rewrite E. exact Hempty. }
      rewrite Er in Hc. discriminate Hc.
    + apply in_map, filter_In. split; [exact Hin |].
      unfold hasContent. rewrite Hempty. reflexivity.
  - intros world schedule options. unfold Agent.runAgent.
    rewrite !resolveJobs_spec, filter_hasContent_idempotent, filter_hasContent_none.
    simpl map at 3. simpl fst.
    destruct (map (resolved fs) (filter (hasContent fs) jobs)) as [| j0 rest] eqn:E.
    + reflexivity.
    + destruct (Agent.sequential options).
      * destruct (Agent.runSequential fs world _ 0 (j0 :: rest)) as [log []]; reflexivity.
      * reflexivity.
  - intros world schedule closing k job Hk log own.
    assert (He : Agent.isEmpty (Agent.jobEssay fs job) = false)
      by (apply (resolved_essay fs jobs); eapply nth_error_In; exact Hk).
    assert (Hev : Agent.eventsOf k log = firstn (1 + count_occ Nat.eq_dec schedule k) own)
      by exact (runAgent_parallel_events fs world schedule jobs closing k job Hk).
    split; [| split; [exact Hev |]].
    + assert (Hin : In (Agent.JobStart k (String.length (Agent.jobEssay fs job)))
                      (Agent.eventsOf k log)).
      { rewrite Hev. unfold own. rewrite runJob_split. cbn [fst].
        rewrite (prologue_start fs k job He). left. reflexivity. }
      apply filter_In in Hin. exact (proj1 Hin).
    + intros Hlen. rewrite Hev. apply firstn_all2. exact Hlen.
  - intros world schedule closing job rest Hres close run.
    assert (He : Agent.isEmpty (Agent.jobEssay fs job) = false)
      by (apply (resolved_essay fs jobs); rewrite Hres; left; reflexivity).
    assert (Hrun : run = (let (log, r) := Agent.runSequential fs world close 0 (job :: rest) in
                          ((fst (Agent.resolveJobs fs jobs) ++ log
                              ++ match r with
                                 | Agent.Pending => []
                                 | _ => [Agent.allFinished]
                                 end)%list, r))).
    { unfold run, close. rewrite (runAgent_sequential fs world schedule jobs closing);
        rewrite Hres; [reflexivity | discriminate]. }
    destruct (runSequential_first fs world close 0 job rest) as [tail Htail].
    assert (Hfirst : exists tail',
              fst run = (fst (Agent.resolveJobs fs jobs)
                           ++ fst (Agent.runJob fs (world 0) close 0 job) ++ tail')%list).
    { rewrite Hrun.
      destruct (Agent.runSequential fs world close 0 (job :: rest)) as [log r].
      simpl in Htail. subst log. cbn [fst].
      eexists. rewrite <- app_assoc. reflexivity. }
    split; [| split; [exact Hfirst |]].
    + destruct Hfirst as [tail' ->]. apply in_or_app. right. apply in_or_app. left.
      rewrite runJob_split. cbn [fst]. rewrite (prologue_start fs 0 job He).
      left. reflexivity.
    + intros Hall. rewrite Hrun, (runSequential_fulfilled fs world close 0 _ Hall).
      reflexivity.
Qed.

(** A blank descriptor in front of a good one, on tabs that work: the blank
    one is skipped with a warning, and the good one is announced as job 0
    and runs to its completion callback, in sequence and in parallel. *)
Lemma empty_content_is_skipped_witness :
  let sequentially := Agent.runAgent noFiles (fun _ => goodTab) [] [blankJob; shortJob]
                        {| Agent.sequential := true; Agent.closeTabOnComplete := false |} in
  let together := Agent.runAgent noFiles (fun _ => goodTab) (repeat 0 20) [blankJob; shortJob]
                    {| Agent.sequential := false; Agent.closeTabOnComplete := false |} in
  (~ In (resolved noFiles blankJob) (snd (Agent.resolveJobs noFiles [blankJob; shortJob]))
   /\ In (skipWarning blankJob) (fst (Agent.resolveJobs noFiles [blankJob; shortJob])))
  /\ sequentially
     = ((skipWarning blankJob
           :: jobLogs noFiles (fun _ => goodTab) false 0 [resolved noFiles shortJob]
           ++ [Agent.allFinished])%list, Agent.Fulfilled)
  /\ In (Agent.JobComplete 0 None) (fst sequentially)
  /\ In (Agent.JobStart 0 2) (fst together)
  /\ Agent.eventsOf 0 (fst together)
     = fst (Agent.runJob noFiles goodTab false 0 (resolved noFiles shortJob)).
Proof.
  intros sequentially together.
  destruct (empty_content_is_skipped noFiles [blankJob; shortJob])
    as (_ & Hskip & _ & Hpar & Hseq).
  split; [| split; [| split; [| split]]].
  - apply Hskip; [left; reflexivity | reflexivity].
  - destruct (Hseq (fun _ => goodTab) [] false (resolved noFiles shortJob) [] eq_refl)
      as (_ & _ & Hall).
    apply Hall. vm_compute. auto.
  - destruct (Hseq (fun _ => goodTab) [] false (resolved noFiles shortJob) [] eq_refl)
      as (_ & _ & Hall).
    unfold sequentially. rewrite Hall by (vm_compute; auto).
    vm_compute. auto 30.
  - exact (proj1 (Hpar (fun _ => goodTab) (repeat 0 20) false 0
                    (resolved noFiles shortJob) eq_refl)).
  - apply (proj2 (proj2 (Hpar (fun _ => goodTab) (repeat 0 20) false 0
                           (resolved noFiles shortJob) eq_refl))).
    vm_compute. repeat constructor.
Defined.

(** *** Failures and their reports *)

Section Reports.
Import Agent.
Local Open Scope list_scope.

(** The failures [runJob] catches and hands to [onJobComplete]. *)
Definition caught (e : Error) : Prop :=
  e = NavigationFailed \/ exists cause, e = Injection cause.

Lemma In_closeTab b k j err : ~ In (JobComplete j err) (closeTab b k).
Proof.
  destruct b; simpl; [intros [H | []]; discriminate H | tauto].
Qed.

Lemma In_onPage k l j err : ~ In (JobComplete j err) (map (OnPage k) l).
Proof.
  intros H. apply in_map_iff in H. destruct H as (x & H & _). discriminate H.
Qed.

(** A completion callback in a job's run names that job and tells how its
    own run ended. *)
Lemma jobBody_completion fs w close k job j err :
  In (JobComplete j err) (fst (jobBody fs w close k job)) ->
  j = k /\ snd (jobBody fs w close k job)
           = match err with
             | None => Fulfilled
             | Some e => Rejected e
             end.
Proof.
  unfold jobBody.
  destruct (isEmpty (jobEssay fs job)); [intros [] |].
  destruct (negb (newPageOk w)); [intros [] |].
  destruct (negb (gotoOk w && loadStateOk w)).
  - simpl. intros [H | [H | [H | H]]]; try discriminate H.
    + injection H as <- <-. auto.
    + destruct (In_closeTab _ _ _ _ H).
  - destruct (Typer.typeWithHumanSpeed _ _ _ _) as [[[n | e |] c] log]; simpl;
      intros [H | [H | [H | H]]]; try discriminate H.
    + apply in_app_or in H. destruct H as [H | [H | H]].
      * destruct (In_onPage _ _ _ _ H).
      * injection H as <- <-. auto.
      * destruct (In_closeTab _ _ _ _ H).
    + apply in_app_or in H. destruct H as [H | [H | H]].
      * destruct (In_onPage _ _ _ _ H).
      * injection H as <- <-. auto.
      * destruct (In_closeTab _ _ _ _ H).
    + destruct (In_onPage _ _ _ _ H).
Qed.

(** A caught failure is reported. *)
Lemma jobBody_reports fs w close k job e :
  snd (jobBody fs w close k job) = Rejected e -> caught e ->
  In (JobComplete k (Some e)) (fst (jobBody fs w close k job)).
Proof.
  unfold jobBody, caught.
  destruct (isEmpty (jobEssay fs job)).
  { simpl. intros H [-> | [x ->]]; discriminate H. }
  destruct (negb (newPageOk w)).
  { simpl. intros H [-> | [x ->]]; discriminate H. }
  destruct (negb (gotoOk w && loadStateOk w)).
  - simpl. intros H _. injection H as <-. auto.
  - destruct (Typer.typeWithHumanSpeed _ _ _ _) as [[[n | e' |] c] log]; simpl;
      intros H _; try discriminate H.
    injection H as <-. right. right. right. apply in_or_app. right. left. reflexivity.
Qed.

Lemma In_prologue fs k job j err : ~ In (JobComplete j err) (jobPrologue fs k job).
Proof.
  unfold jobPrologue. destruct (isEmpty (jobEssay fs job)); simpl;
    [tauto | intros [H | []]; discriminate H].
Qed.

(** A job rejected because its tab could not be created made no
    completion callback. *)
Lemma jobBody_unreported fs w close k job j err :
  snd (jobBody fs w close k job) = Rejected NewPageFailed ->
  ~ In (JobComplete j err) (fst (jobBody fs w close k job)).
Proof.
  unfold jobBody.
  destruct (isEmpty (jobEssay fs job)); [intros _ [] |].
  destruct (negb (newPageOk w)); [intros _ [] |].
  destruct (negb (gotoOk w && loadStateOk w)); [intros H; discriminate H |].
  destruct (Typer.typeWithHumanSpeed _ _ _ _) as [[[n | e |] c] log];
    intros H; discriminate H.
Qed.

(** C1, as the code has it.  In the parallel branch of [runAgent], under
    every schedule, the events of a job of the executable set are those of
    its own run up to where the schedule has taken it, and all of them once
    it has been resumed often enough: what its siblings do, fail or not,
    neither takes an event away from it nor adds a resumption it needs.
    A completion callback names the job whose own run ended the way the
    callback tells, and a failure to load the document, to focus it, or
    while typing is always reported so; a job whose tab could not be
    created is rejected without a completion callback.  In the sequential
    branch the jobs before the first rejected one run to their ends, the
    rejected one runs to its failure, [runAgent] is rejected with that
    error, and no later job has any event. *)
Theorem failure_is_reported_for_its_job (fs : FileSystem) :
  (forall world schedule jobs closing k job,
      nth_error (snd (resolveJobs fs jobs)) k = Some job ->
      let log := fst (runAgent fs world schedule jobs
                        {| sequential := false; closeTabOnComplete := closing |}) in
      let own := fst (runJob fs (world k) closing k job) in
      eventsOf k log = firstn (1 + count_occ Nat.eq_dec schedule k) own
      /\ (List.length own <= 1 + count_occ Nat.eq_dec schedule k -> eventsOf k log = own)
      /\ (forall world', world' k = world k ->
            eventsOf k (fst (runAgent fs world' schedule jobs
                               {| sequential := false; closeTabOnComplete := closing |}))
            = eventsOf k log))
  /\ (forall w closing k job j err,
         In (JobComplete j err) (fst (runJob fs w closing k job)) ->
         j = k /\ snd (runJob fs w closing k job)
                  = match err with
                    | None => Fulfilled
                    | Some e => Rejected e
                    end)
  /\ (forall w closing k job e,
         snd (runJob fs w closing k job) = Rejected e -> caught e ->
         In (JobComplete k (Some e)) (fst (runJob fs w closing k job)))
  /\ (forall w closing k job j err,
         snd (runJob fs w closing k job) = Rejected NewPageFailed ->
         ~ In (JobComplete j err) (fst (runJob fs w closing k job)))
  /\ (forall world schedule jobs closing pre job post e,
         snd (resolveJobs fs jobs) = pre ++ job :: post ->
         let close := (Nat.ltb 1 (List.length (pre ++ job :: post)) && closing)%bool in
         let run := runAgent fs world schedule jobs
                      {| sequential := true; closeTabOnComplete := closing |} in
         allFulfilled fs world close 0 pre ->
         snd (runJob fs (world (List.length pre)) close (List.length pre) job) = Rejected e ->
         run = (fst (resolveJobs fs jobs) ++ jobLogs fs world close 0 (pre ++ [job])
                  ++ [allFinished], Rejected e)
         /\ forall k, List.length pre < k -> eventsOf k (fst run) = []).
Proof.
  split; [| split; [| split; [| split]]].
  - intros world schedule jobs closing k job Hk log own.
    assert (Hev : eventsOf k log = firstn (1 + count_occ Nat.eq_dec schedule k) own)
      by exact (runAgent_parallel_events fs world schedule jobs closing k job Hk).
    split; [exact Hev |]. split.
    + intros Hlen. rewrite Hev. apply firstn_all2. exact Hlen.
    + intros world' Hsame. rewrite Hev.
      rewrite (runAgent_parallel_events fs world' schedule jobs closing k job Hk).
      unfold own. rewrite Hsame. reflexivity.
  - intros w closing k job j err. unfold runJob.
    pose proof (jobBody_completion fs w closing k job j err) as Hbody.
    destruct (jobBody fs w closing k job) as [body r]. cbn [fst snd] in *. intros H.
    apply in_app_or in H. destruct H as [H | H]; [destruct (In_prologue _ _ _ _ _ H) |].
    exact (Hbody H).
  - intros w closing k job e. unfold runJob.
    pose proof (jobBody_reports fs w closing k job e) as Hbody.
    destruct (jobBody fs w closing k job) as [body r]. cbn [fst snd] in *. intros Hr Hc.
    apply in_or_app. right. exact (Hbody Hr Hc).
  - intros w closing k job j err. unfold runJob.
    pose proof (jobBody_unreported fs w closing k job j err) as Hbody.
    destruct (jobBody fs w closing k job) as [body r]. cbn [fst snd] in *. intros Hr H.
    apply in_app_or in H. destruct H as [H | H]; [destruct (In_prologue _ _ _ _ _ H) |].
    exact (Hbody Hr H).
  - intros world schedule jobs closing pre job post e Hres close run Hpre Hjob.
    rewrite runJob_split in Hjob. cbn [snd] in Hjob.
    assert (Hloop : runSequential fs world close 0 (pre ++ job :: post)
                    = (jobLogs fs world close 0 (pre ++ [job]), Rejected e)).
    { rewrite (runSequential_stops fs world close 0 pre job post Hpre); simpl Nat.add;
        rewrite Hjob; [reflexivity | discriminate]. }
    assert (Hrun : run = (fst (resolveJobs fs jobs) ++ jobLogs fs world close 0 (pre ++ [job])
                            ++ [allFinished], Rejected e)).
    { unfold run. rewrite (runAgent_sequential fs world schedule jobs closing);
        rewrite Hres; [| destruct pre; discriminate].
      cbv zeta. fold close. rewrite Hloop. reflexivity. }
    split; [exact Hrun |].
    intros k Hk. rewrite Hrun. cbn [fst].
    rewrite warnings_spec, !eventsOf_app, eventsOf_warnings.
    rewrite eventsOf_jobLogs_later by (rewrite length_app; simpl; lia).
    reflexivity.
Qed.

End Reports.

(** A browser in which the second tab fails to load its document. *)
Definition secondTabDead (k : nat) : Agent.JobWorld :=
  match k with
  | 1 => deadTab
  | _ => goodTab
  end.

Definition threeJobs : list Agent.Job := [shortJob; shortJob; shortJob].

(** Two jobs in parallel, the first failing to load and resumed to its
    end before the second is resumed at all: the failure is reported for
    the first job, the batch is rejected with it, and the second job runs
    to its completion all the same.  Three jobs in sequence, the second
    failing to load: the first has run, the second is reported, and the
    third has no event.  A job reported as failing to load was rejected
    so, and a job without a tab reports nothing. *)
Lemma failure_is_reported_for_its_job_witness :
  let together := Agent.runAgent noFiles firstTabDead ([0; 0; 0; 0] ++ repeat 1 20)%list twoJobs
                    {| Agent.sequential := false; Agent.closeTabOnComplete := false |} in
  let inTurn := Agent.runAgent noFiles secondTabDead [] threeJobs
                  {| Agent.sequential := true; Agent.closeTabOnComplete := false |} in
  In (Agent.JobComplete 0 (Some Agent.NavigationFailed)) (fst together)
  /\ snd together = Agent.Rejected Agent.NavigationFailed
  /\ Agent.eventsOf 1 (fst together)
     = fst (Agent.runJob noFiles goodTab false 1 (resolved noFiles shortJob))
  /\ In (Agent.JobComplete 1 None) (fst together)
  /\ inTurn
     = ((jobLogs noFiles secondTabDead false 0
           [resolved noFiles shortJob; resolved noFiles shortJob]
         ++ [Agent.allFinished])%list,
        Agent.Rejected Agent.NavigationFailed)
  /\ In (Agent.JobComplete 0 None) (fst inTurn)
  /\ In (Agent.JobComplete 1 (Some Agent.NavigationFailed)) (fst inTurn)
  /\ Agent.eventsOf 2 (fst inTurn) = []
  /\ snd (Agent.runJob noFiles deadTab false 0 (resolved noFiles shortJob))
     = Agent.Rejected Agent.NavigationFailed
  /\ ~ In (Agent.JobComplete 0 None)
          (fst (Agent.runJob noFiles noTab false 0 (resolved noFiles shortJob))).
Proof.
  intros together inTurn.
  destruct (failure_is_reported_for_its_job noFiles)
    as (Hpar & Hnames & Hreport & Hquiet & Hseq).
  pose proof (Hpar firstTabDead ([0; 0; 0; 0] ++ repeat 1 20)%list twoJobs false 0
                (resolved noFiles shortJob) eq_refl) as (_ & H0 & _).
  pose proof (Hpar firstTabDead ([0; 0; 0; 0] ++ repeat 1 20)%list twoJobs false 1
                (resolved noFiles shortJob) eq_refl) as (_ & H1 & _).
  assert (Hfirst : Agent.eventsOf 0 (fst together)
                   = fst (Agent.runJob noFiles deadTab false 0 (resolved noFiles shortJob))).
  { apply H0. vm_compute. repeat constructor. }
  assert (Hsecond : Agent.eventsOf 1 (fst together)
                    = fst (Agent.runJob noFiles goodTab false 1 (resolved noFiles shortJob))).
  { apply H1. vm_compute. repeat constructor. }
  destruct (Hseq secondTabDead [] threeJobs false
              [resolved noFiles shortJob] (resolved noFiles shortJob)
              [resolved noFiles shortJob] Agent.NavigationFailed eq_refl)
    as [Hrun Hlater].
  { vm_compute. auto. }
  { reflexivity. }
  split; [| split; [| split; [| split; [| split; [| split; [| split; [| split; [| split]]]]]]]].
  - assert (Hin : In (Agent.JobComplete 0 (Some Agent.NavigationFailed))
                    (Agent.eventsOf 0 (fst together))).
    { rewrite Hfirst.
      apply (Hreport deadTab false 0 (resolved noFiles shortJob) Agent.NavigationFailed).
      - reflexivity.
      - left. reflexivity. }
    exact (eventsOf_In 0 (fst together) _ Hin).
  - vm_compute. reflexivity.
  - exact Hsecond.
  - assert (Hin : In (Agent.JobComplete 1 None) (Agent.eventsOf 1 (fst together))).
    { rewrite Hsecond. vm_compute. auto 30. }
    exact (eventsOf_In 1 (fst together) _ Hin).
  - exact Hrun.
  - unfold inTurn. rewrite Hrun. vm_compute. auto 30.
  - unfold inTurn. rewrite Hrun. vm_compute. auto 40.
  - apply Hlater. simpl. lia.
  - apply (Hnames deadTab false 0 (resolved noFiles shortJob) 0
             (Some Agent.NavigationFailed)).
    vm_compute. auto 30.
  - apply (Hquiet noTab false 0 (resolved noFiles shortJob) 0 None). reflexivity.
Defined.

(** C1 as stated fails in two ways.  In the sequential branch: the first
    of two resolved jobs fails to load, its error is reported, [runAgent]
    is rejected with it, and the second job, which alone would have been
    fulfilled, has no event at all.  In either branch: a job whose tab
    cannot be created is rejected without any completion callback. *)
Lemma failure_ends_the_batch_or_goes_unreported :
  let run := Agent.runAgent noFiles firstTabDead [] twoJobs
               {| Agent.sequential := true; Agent.closeTabOnComplete := false |} in
  let tabless := Agent.runAgent noFiles (fun _ => noTab) [0; 0; 0] [shortJob]
                   {| Agent.sequential := false; Agent.closeTabOnComplete := false |} in
  (In (Agent.JobComplete 0 (Some Agent.NavigationFailed)) (fst run)
   /\ snd run = Agent.Rejected Agent.NavigationFailed
   /\ Agent.eventsOf 1 (fst run) = []
   /\ snd (Agent.runJob noFiles (firstTabDead 1) false 1 (resolved noFiles shortJob))
      = Agent.Fulfilled)
  /\ (tabless = ([Agent.JobStart 0 2; Agent.allFinished],
                 Agent.Rejected Agent.NewPageFailed)
      /\ forall err, ~ In (Agent.JobComplete 0 err) (fst tabless)).
Proof.
  split.
  - vm_compute. repeat split. auto 10.
  - split; [vm_compute; reflexivity |].
    intros err. vm_compute. intros [H | [H | []]]; discriminate H.
Qed.

(** * Further properties of the typing engine *)

(** ** Random delays and the pacing delay *)

Section Delays.
Import Typer.
Local Open Scope list_scope.

Lemma floor_scaled (r : Q) (n : Z) :
  (0 <= r)%Q -> (r < 1)%Q -> (0 < n)%Z ->
  (0 <= Qfloor (r * inject_Z n) < n)%Z.
Proof.
  intros H0 H1 Hn.
  assert (Hpos : (0 < inject_Z n)%Q) by (change 0%Q with (inject_Z 0); rewrite <- Zlt_Qlt; exact Hn).
  split.
  - change 0%Z with (Qfloor 0). apply Qfloor_resp_le.
    apply Qmult_le_0_compat; [exact H0 | apply Qlt_le_weak, Hpos].
  - rewrite Zlt_Qlt. apply Qle_lt_trans with (r * inject_Z n)%Q; [apply Qfloor_le |].
    rewrite <- (Qmult_1_l (inject_Z n)) at 2.
    apply Qmult_lt_compat_r; assumption.
Qed.

Lemma range_integer (lo hi : Z) :
  (ofZ hi - ofZ lo + 1 == inject_Z (hi - lo + 1))%Q.
Proof.
  unfold ofZ, Z.sub. rewrite !inject_Z_plus, inject_Z_opp. reflexivity.
Qed.

(** What [randomDelay(lo, hi)] returns when [Math.random] gives [r]. *)
Definition delayFor (lo hi : Z) (r : number) : number :=
  (ofZ (mathFloor (r * (ofZ hi - ofZ lo + 1))) + ofZ lo)%Q.

Lemma randomDelay_run (lo hi : Z) env c :
  randomDelay (ofZ lo) (ofZ hi) env c
  = (Returned (delayFor lo hi (random env (nRandom c))),
     {| nRandom := S (nRandom c); nStop := nStop c; nPause := nPause c; nKey := nKey c |},
     []).
Proof.
  reflexivity.
Qed.

Lemma delayFor_range (lo hi : Z) (r : number) :
  (lo <= hi)%Z -> (0 <= r)%Q -> (r < 1)%Q ->
  exists d : Z, (lo <= d <= hi)%Z /\ (delayFor lo hi r == ofZ d)%Q.
Proof.
  intros Hle H0 H1. unfold delayFor, mathFloor.
  rewrite (Qfloor_comp _ (r * inject_Z (hi - lo + 1))%Q)
    by (rewrite range_integer; reflexivity).
  destruct (floor_scaled r (hi - lo + 1) H0 H1 ltac:(lia)) as [Hf0 Hf1].
  exists (Qfloor (r * inject_Z (hi - lo + 1)) + lo)%Z. split; [lia |].
  unfold ofZ. rewrite (inject_Z_plus _ lo). reflexivity.
Qed.

(** [randomDelay(lo, hi)] with integer bounds [lo <= hi] and [Math.random]
    in [0,1) returns an integer between [lo] and [hi], both included; it
    draws one random number, emits nothing and never fails. *)
Theorem randomDelay_within_bounds (lo hi : Z) (env : Env) (c : Counters) :
  (lo <= hi)%Z ->
  (0 <= random env (nRandom c))%Q -> (random env (nRandom c) < 1)%Q ->
  exists (v : number) (d : Z) (c1 : Counters),
    randomDelay (ofZ lo) (ofZ hi) env c = (Returned v, c1, [])
    /\ nRandom c1 = S (nRandom c)
    /\ (v == ofZ d)%Q /\ (lo <= d <= hi)%Z.
Proof.
  intros Hle H0 H1. rewrite randomDelay_run.
  destruct (delayFor_range lo hi _ Hle H0 H1) as (d & Hd & E).
  eexists _, d, _. split; [reflexivity |]. split; [reflexivity |]. auto.
Qed.

End Delays.

(** The correction hold of a typo with [Math.random] at one half:
    140 ms, between 80 and 200. *)
Lemma randomDelay_within_bounds_witness :
  exists (v : number) (d : Z) (c1 : Typer.Counters),
    Typer.randomDelay (ofZ 80) (ofZ 200) steadyEnv Typer.start = (Typer.Returned v, c1, [])
    /\ Typer.nRandom c1 = 1
    /\ (v == ofZ d)%Q /\ (80 <= d <= 200)%Z.
Proof.
  apply (randomDelay_within_bounds 80 200 steadyEnv Typer.start).
  - lia.
  - discriminate.
  - reflexivity.
Defined.

Section PacingDelay.
Import Typer.
Local Open Scope list_scope.







End PacingDelay.


(** ** After the delivery: punctuation pauses and periodic breaks *)

Section AfterDelivery.
Import Typer.
Local Open Scope list_scope.

(** [punctuationPauses && punctuationDelay(char) > 0] *)
Definition punctuationDue (o : Options) (char : ascii) : bool :=
  (punctuationPauses o && gtb (punctuationDelay char) 0%Q)%bool.

(** [breakEveryChars > 0 && (i + 1) % breakEveryChars === 0 && i < text.length - 1] *)
Definition breakDue (o : Options) (len i : nat) : bool :=
  (gtb (breakEveryChars o) 0%Q
   && Qeq_bool (rem (ofNat (i + 1)) (breakEveryChars o)) 0%Q
   && ltb (ofNat i) (ofNat len - 1)%Q)%bool.

(** What a pass logs after the progress report, [r1] and [r2] being the
    next two values of [Math.random]. *)
Definition aftermath (o : Options) (len i : nat) (char : ascii) (r1 r2 : number) :
  list Event :=
  (if punctuationDue o char
   then [Sleep (punctuationDelay char + delayFor 0 200 r1)%Q] else [])
  ++ (if breakDue o len i then [Sleep (breakDurationMs o)] else [])
  ++ [Sleep (delayFor 0 25 (if punctuationDue o char then r2 else r1))].

Lemma deliver_log o len i char delay env c c1 l :
  deliver o len i char delay env c = (Returned tt, c1, l) ->
  l = Sleep (ofZ (mathRound delay)) :: emission char :: Progress char (fractionAt len i)
        :: aftermath o len i char (random env (nRandom c)) (random env (S (nRandom c))).
Proof.
  unfold deliver, aftermath. fold (punctuationDue o char). fold (breakDue o len i).
  intros H.
  apply bind_returned in H. destruct H as ([] & c2 & l1 & l2 & Hs & H & ->).
  unfold sleep, emit in Hs. injection Hs as <- <-.
  apply bind_returned in H. destruct H as ([] & c3 & l1 & l3 & Hk & H & ->).
  assert (Hr : nRandom c3 = nRandom c).
  { unfold keyboardPress, keyboardType, keyboard in Hk.
    destruct (Ascii.eqb char newline); destruct (keyboardOk env (nKey c));
      try discriminate Hk; injection Hk as <- _; reflexivity. }
  apply key_inv in Hk. destruct Hk as [[_ ->] | [Hk _]]; [| discriminate Hk].
  apply bind_returned in H. destruct H as ([] & c4 & l1 & l4 & Hp & H & ->).
  unfold onProgress, emit in Hp. injection Hp as <- <-.
  simpl app. do 3 f_equal. rewrite <- Hr. revert H.
  unfold when, bind, randomDelay, mathRandom, sleep, emit, ret, delayFor, ofZ.
  destruct (punctuationDue o char); destruct (breakDue o len i); simpl;
    intros H; injection H as _ <-; reflexivity.
Qed.

Lemma typeChar_aftermath o len base i char env c c1 l :
  typeChar o len base i char env c = (Returned tt, c1, l) ->
  exists before r1 r2,
    l = before ++ emission char :: Progress char (fractionAt len i)
          :: aftermath o len i char (random env r1) (random env r2).
Proof.
  rewrite typeChar_unfold. intros H.
  apply bind_returned in H. destruct H as ([] & c2 & w & l2 & Hw & H & ->).
  apply bind_returned in H. destruct H as (r & c3 & l1 & l3 & Hrnd & H & ->).
  apply bind_returned in H. destruct H as ([] & c4 & t & l4 & Ht & H & ->).
  apply deliver_log in H. subst l4.
  exists (w ++ l1 ++ t ++ [Sleep (ofZ (mathRound (jitteredDelay o base r)))]), (nRandom c4),
    (S (nRandom c4)).
  rewrite <- !app_assoc. reflexivity.
Qed.

Lemma gtb_lt (x y : number) : gtb x y = true <-> (y < x)%Q.
Proof.
  unfold gtb. apply ltb_lt.
Qed.

Lemma punctuationDue_table (o : Options) (char : ascii) :
  punctuationDue o char = true <-> punctuationPauses o = true /\ In char pauseTable.
Proof.
  unfold punctuationDue. rewrite andb_true_iff, gtb_lt. split; intros [Hp Hc]; split; auto.
  - destruct (punctuationDelay_cases char) as [H | H]; [exact H |].
    rewrite H in Hc. discriminate Hc.
  - unfold pauseTable in Hc. simpl in Hc.
    destruct Hc as [<- | [<- | [<- | [<- | [<- | [<- | [<- | []]]]]]]]; reflexivity.
Qed.

(** With punctuation pauses enabled, the progress report of a character of
    the pause table is followed at once by a pause of its table value plus
    0 to 200 ms; when they are disabled, or for any other character, the
    report is followed by the periodic break if one is due and a last pause
    of 0 to 25 ms, and nothing else. *)
Theorem punctuation_pause_follows (o : Options) (len : nat) (base : number) (i : nat)
  (char : ascii) (env : Env) (c c1 : Counters) (l : list Event) :
  (forall n, (0 <= random env n)%Q /\ (random env n < 1)%Q) ->
  typeChar o len base i char env c = (Returned tt, c1, l) ->
  (punctuationPauses o = true -> In char pauseTable ->
   exists before ms (extra : Z) rest,
     l = before ++ emission char :: Progress char (fractionAt len i) :: Sleep ms :: rest
     /\ (ms == punctuationDelay char + ofZ extra)%Q /\ (0 <= extra <= 200)%Z
     /\ waiting rest)
  /\ (punctuationPauses o = false \/ ~ In char pauseTable ->
      exists before ms (last : Z),
        l = before ++ emission char :: Progress char (fractionAt len i)
              :: (if breakDue o len i then [Sleep (breakDurationMs o)] else [])
              ++ [Sleep ms]
        /\ (ms == ofZ last)%Q /\ (0 <= last <= 25)%Z).
Proof.
  intros Hrange H. apply typeChar_aftermath in H.
  destruct H as (before & r1 & r2 & ->). unfold aftermath. split.
  - intros Hp Hc. rewrite (proj2 (punctuationDue_table o char) (conj Hp Hc)).
    destruct (delayFor_range 0 200 (random env r1) ltac:(lia)
                (proj1 (Hrange r1)) (proj2 (Hrange r1))) as (extra & Hx & Ex).
    eexists before, _, extra, _. split; [reflexivity |].
    split; [rewrite Ex; reflexivity |]. split; [exact Hx |].
    destruct (breakDue o len i); reflexivity.
  - intros Hoff.
    assert (E : punctuationDue o char = false).
    { destruct (punctuationDue o char) eqn:E; [| reflexivity].
      apply punctuationDue_table in E. destruct E as [Ep Ec].
      destruct Hoff as [Hoff | Hoff]; [congruence | contradiction]. }
    rewrite E.
    destruct (delayFor_range 0 25 (random env r1) ltac:(lia)
                (proj1 (Hrange r1)) (proj2 (Hrange r1))) as (last & Hx & Ex).
    eexists before, _, last. split; [reflexivity |]. split; [exact Ex | exact Hx].
Qed.

End AfterDelivery.

(** "." typed with punctuation pauses: the report is followed by a pause
    of 400 ms plus something between 0 and 200. *)
Lemma punctuation_pause_follows_witness :
  exists before ms (extra : Z) rest,
    snd (Typer.typeChar plainOptions 1 (Typer.wpmToMsPerChar 60%Q) 0 "." steadyEnv Typer.start)
    = (before ++ Typer.emission "." :: Typer.Progress "." (fractionAt 1 0)
         :: Typer.Sleep ms :: rest)%list
    /\ (ms == Typer.punctuationDelay "." + ofZ extra)%Q /\ (0 <= extra <= 200)%Z
    /\ waiting rest.
Proof.
  destruct (punctuation_pause_follows plainOptions 1 (Typer.wpmToMsPerChar 60%Q) 0 "."
              steadyEnv Typer.start
              (snd (fst (Typer.typeChar plainOptions 1 (Typer.wpmToMsPerChar 60%Q) 0 "."
                           steadyEnv Typer.start)))
              (snd (Typer.typeChar plainOptions 1 (Typer.wpmToMsPerChar 60%Q) 0 "."
                      steadyEnv Typer.start)))
    as [Hon _].
  - intros n. split; [discriminate | reflexivity].
  - vm_compute. reflexivity.
  - apply Hon; [reflexivity | simpl; tauto].
Defined.

Section PeriodicBreak.
Import Typer.
Local Open Scope list_scope.





End PeriodicBreak.



(** ** Focusing the document *)

Section Focus.
Import Typer.
Local Open Scope list_scope.

(** A selector that matches an element and whose click goes through. *)
Definition focusable (env : Env) (selector : string) : bool :=
  match locatorCount env selector with
  | Some count => (Nat.ltb 0 count && clickOk env selector)%bool
  | None => false
  end.

(** A selector whose count query is rejected. *)
Definition rejected (env : Env) (selector : string) : bool :=
  match locatorCount env selector with
  | Some _ => false
  | None => true
  end.

(** The selector the focus loop ends at, if any. *)
Definition decisive (env : Env) (selector : string) : bool :=
  (focusable env selector || rejected env selector)%bool.

Definition isClick (e : Event) : bool :=
  match e with
  | Click _ => true
  | _ => false
  end.

(** Focusing never touches the keyboard or the counters.  The selectors
    are tried in order up to the first that either takes the click or has
    its count query rejected: in the first case that selector gets the one
    click, followed by a pause of 400 ms, and focusing returns; in the
    second nothing is clicked or waited for and the rejection leaves the
    function.  A selector that matches nothing is passed over, a click that
    times out is swallowed, and when no selector is decisive nothing is
    clicked and typing goes ahead all the same. *)
Theorem focus_goes_to_first_focusable (selectors : list string) (env : Env) (c : Counters) :
  exists r log,
    focusDoc selectors env c = (r, c, log)
    /\ match find (decisive env) selectors with
       | Some s =>
           if rejected env s
           then r = Threw LocatorError
                /\ filter isClick log = [] /\ filter isSleep log = []
           else r = Returned tt
                /\ filter isClick log = [Click s] /\ filter isSleep log = [Sleep 400%Q]
       | None => r = Returned tt /\ filter isClick log = [] /\ filter isSleep log = []
       end
    /\ keystrokes log = []
    /\ (forall s, In (ClickTimeout s) log ->
          In s selectors
          /\ (exists count, locatorCount env s = Some count /\ 0 < count)
          /\ clickOk env s = false).
Proof.
  induction selectors as [| sel rest IH].
  - exists (Returned tt), []. simpl. split; [reflexivity |]. split; [auto |].
    split; [reflexivity |]. intros s [].
  - destruct IH as (r & log & Hrun & Hend & Hkeys & Htimeout).
    simpl focusDoc. simpl find.
    destruct (locatorCount env sel) as [count |] eqn:Ecount.
    + assert (Erej : rejected env sel = false) by (unfold rejected; rewrite Ecount; reflexivity).
      assert (Efoc : focusable env sel = (Nat.ltb 0 count && clickOk env sel)%bool)
        by (unfold focusable; rewrite Ecount; reflexivity).
      unfold decisive at 1. rewrite Erej, Efoc, orb_false_r.
      destruct (Nat.ltb 0 count) eqn:Epos; simpl andb.
      * destruct (clickOk env sel) eqn:Eclick.
        -- exists (Returned tt), [Click sel; Sleep 400%Q]. rewrite Erej.
           split; [reflexivity |]. split; [auto |]. split; [reflexivity |].
           intros s [H | [H | []]]; discriminate H.
        -- exists r, (ClickTimeout sel :: log). unfold bind, emit. rewrite Hrun.
           split; [destruct r as [[] | e |]; reflexivity |].
           split; [exact Hend |]. split; [exact Hkeys |].
           intros s [H | H].
           ++ injection H as <-. split; [left; reflexivity |].
              split; [| exact Eclick]. exists count. split; [exact Ecount |].
              apply Nat.ltb_lt, Epos.
           ++ destruct (Htimeout s H) as (Hin & Hrest).
              split; [right; exact Hin | exact Hrest].
      * exists r, log. split; [exact Hrun |]. split; [exact Hend |].
        split; [exact Hkeys |].
        intros s H. destruct (Htimeout s H) as (Hin & Hrest).
        split; [right; exact Hin | exact Hrest].
    + assert (Erej : rejected env sel = true) by (unfold rejected; rewrite Ecount; reflexivity).
      unfold decisive at 1. rewrite Erej, orb_true_r, Erej.
      exists (Threw LocatorError), []. simpl.
      split; [reflexivity |]. split; [auto |]. split; [reflexivity |]. intros s [].
Qed.

End Focus.

(** A page where only the last selector, "body", can be clicked, and one
    where the count query for "#canvas" is rejected after the editor was
    found missing. *)
Definition onlyBody : Typer.Env :=
  {| Typer.random := fun _ => (1 # 2)%Q;
     Typer.shouldStop := fun _ => false;
     Typer.pausedFor := fun _ => Some 0;
     Typer.locatorCount := fun _ => Some 1;
     Typer.clickOk := fun s => String.eqb s "body";
     Typer.keyboardOk := fun _ => true |}.

Definition canvasRejects : Typer.Env :=
  {| Typer.random := fun _ => (1 # 2)%Q;
     Typer.shouldStop := fun _ => false;
     Typer.pausedFor := fun _ => Some 0;
     Typer.locatorCount := fun s => if String.eqb s "#canvas" then None else Some 0;
     Typer.clickOk := fun _ => true;
     Typer.keyboardOk := fun _ => true |}.

(** On the first page two clicks time out and the third goes to "body";
    on the second the rejection leaves the function before any click. *)
Lemma focus_goes_to_first_focusable_witness :
  (exists log,
      Typer.focusDoc Typer.focusSelectors onlyBody Typer.start
      = (Typer.Returned tt, Typer.start, log)
      /\ filter isClick log = [Typer.Click "body"]
      /\ In (Typer.ClickTimeout "#canvas") log
      /\ Typer.clickOk onlyBody "#canvas" = false)
  /\ (exists log,
        Typer.focusDoc Typer.focusSelectors canvasRejects Typer.start
        = (Typer.Threw Typer.LocatorError, Typer.start, log)
        /\ filter isClick log = []).
Proof.
  split.
  - destruct (focus_goes_to_first_focusable Typer.focusSelectors onlyBody Typer.start)
      as (r & log & Hrun & Hend & _ & Htimeout).
    simpl in Hend. destruct Hend as (-> & Hclick & _).
    exists log. split; [exact Hrun |]. split; [exact Hclick |].
    assert (Hin : In (Typer.ClickTimeout "#canvas") log).
    { vm_compute in Hrun. injection Hrun as <-. simpl. tauto. }
    split; [exact Hin |]. exact (proj2 (proj2 (Htimeout _ Hin))).
  - destruct (focus_goes_to_first_focusable Typer.focusSelectors canvasRejects Typer.start)
      as (r & log & Hrun & Hend & _).
    simpl in Hend. destruct Hend as (-> & Hclick & _).
    exists log. split; [exact Hrun | exact Hclick].
Defined.

(** ** What makes a run fail, and what makes it finish *)

Section Failures.
Import Typer.
Local Open Scope list_scope.

Variable env : Env.
Hypothesis random_range : forall n, (0 <= random env n)%Q /\ (random env n < 1)%Q.

(** An outcome the typing loop is not to blame for: it returned, or the
    keyboard rejected an operation, or the pause predicate never cleared. *)
Definition blameless {A} (r : Outcome A) : Prop :=
  match r with
  | Returned _ => True
  | Threw e => e = KeyboardError /\ exists n, keyboardOk env n = false
  | Hung => exists n, pausedFor env n = None
  end.

Definition outcomeOf {A} (x : Outcome A * Counters * list Event) : Outcome A :=
  fst (fst x).

Lemma blameless_bind {A B} (m : M A) (f : A -> M B) (c : Counters) :
  blameless (outcomeOf (m env c)) ->
  (forall a c1 l1, m env c = (Returned a, c1, l1) -> blameless (outcomeOf (f a env c1))) ->
  blameless (outcomeOf (bind m f env c)).
Proof.
  unfold bind, outcomeOf. destruct (m env c) as [[[a | e |] c1] l1]; simpl; intros Hm Hf;
    try exact Hm.
  specialize (Hf a c1 l1 eq_refl). destruct (f a env c1) as [[r c2] l2]. exact Hf.
Qed.

Lemma blameless_keyboard (e : Event) (c : Counters) :
  blameless (outcomeOf (keyboard e env c)).
Proof.
  unfold keyboard, outcomeOf. destruct (keyboardOk env (nKey c)) eqn:E; simpl; eauto.
Qed.


Lemma blameless_waitWhilePaused (c : Counters) :
  blameless (outcomeOf (waitWhilePaused env c)).
Proof.
  unfold waitWhilePaused, outcomeOf. destruct (pausedFor env (nPause c)) eqn:E; simpl; eauto.
Qed.

Lemma lookup_In {V} (key : ascii) (table : list (ascii * V)) (v : V) :
  lookup key table = Some v -> In (key, v) table.
Proof.
  induction table as [| [k x] rest IH]; simpl; [discriminate |].
  destruct (Ascii.eqb_spec key k) as [-> | _].
  - intros H. injection H as <-. left. reflexivity.
  - intros H. right. exact (IH H).
Qed.

Lemma neighbors_nonempty (key : ascii) (neighbors : list ascii) :
  lookup key KEYBOARD_NEIGHBORS = Some neighbors -> neighbors <> [].
Proof.
  intros H. apply lookup_In in H. unfold KEYBOARD_NEIGHBORS in H. simpl in H.
  repeat (destruct H as [H | H]; [injection H as _ <-; discriminate |]).
  destruct H.
Qed.

(** With [Math.random] in [0,1), the index drawn into a non-empty list of
    neighbours is an index of the list. *)
Lemma at_index_defined {A} (l : list A) (r : number) :
  l <> [] -> (0 <= r)%Q -> (r < 1)%Q ->
  exists x, at_index l (mathFloor (r * ofNat (List.length l))%Q) = Some x.
Proof.
  intros Hne H0 H1. unfold at_index, mathFloor, ofNat.
  assert (Hlen : (0 < Z.of_nat (List.length l))%Z) by (destruct l; [contradiction | simpl; lia]).
  destruct (floor_scaled r _ H0 H1 Hlen) as [Hf0 Hf1].
  destruct (Z.ltb_spec (Qfloor (r * inject_Z (Z.of_nat (List.length l)))) 0); [lia |].
  destruct (nth_error l (Z.to_nat (Qfloor (r * inject_Z (Z.of_nat (List.length l))))))
    as [x |] eqn:E; [eauto |].
  apply nth_error_None in E. lia.
Qed.

Lemma blameless_typo char delay c : blameless (outcomeOf (typo char delay env c)).
Proof.
  unfold typo.
  destruct (lookup (toLowerCase char) KEYBOARD_NEIGHBORS) as [ns |] eqn:El; [| exact I].
  destruct (negb (Ascii.eqb char newline)); [| exact I].
  apply blameless_bind; [exact I | intros r c1 l1 Hr].
  unfold mathRandom in Hr. injection Hr as <- _ _.
  destruct (at_index_defined ns (random env (nRandom c)) (neighbors_nonempty _ _ El)
              (proj1 (random_range _)) (proj2 (random_range _))) as [w ->].
  apply blameless_bind; [exact I | intros _ c2 l2 _].
  apply blameless_bind; [apply blameless_keyboard | intros _ c3 l3 _].
  apply blameless_bind; [exact I | intros d1 c4 l4 _].
  apply blameless_bind; [exact I | intros _ c5 l5 _].
  apply blameless_bind; [apply blameless_keyboard | intros _ c6 l6 _].
  apply blameless_bind; [exact I | intros d2 c7 l7 _].
  exact I.
Qed.

Lemma blameless_typeChar o len base i char c :
  blameless (outcomeOf (typeChar o len base i char env c)).
Proof.
  unfold typeChar.
  apply blameless_bind; [apply blameless_waitWhilePaused | intros _ c1 l1 _].
  apply blameless_bind; [exact I | intros r c2 l2 _].
  apply blameless_bind.
  { destruct (simulateTypos o && _)%bool; [| exact I].
    apply blameless_bind; [exact I | intros roll c3 l3 _].
    unfold when. destruct (ltb roll (typoChance o)); [apply blameless_typo | exact I]. }
  intros _ c3 l3 _.
  apply blameless_bind; [exact I | intros _ c4 l4 _].
  apply blameless_bind.
  { destruct (Ascii.eqb char newline); apply blameless_keyboard. }
  intros _ c5 l5 _.
  apply blameless_bind; [exact I | intros _ c6 l6 _].
  apply blameless_bind.
  { unfold when. destruct (_ && _)%bool; [| exact I].
    apply blameless_bind; [exact I | intros j c7 l7 _]. exact I. }
  intros _ c7 l7 _.
  apply blameless_bind.
  { unfold when. destruct (_ && _ && _)%bool; exact I. }
  intros _ c8 l8 _.
  apply blameless_bind; [exact I | intros d c9 l9 _]. exact I.
Qed.

Lemma blameless_typeLoop o len base rest : forall i c,
  blameless (outcomeOf (typeLoop o len base i rest env c)).
Proof.
  induction rest as [| char rest IH]; intros i c; [exact I |].
  simpl. apply blameless_bind; [exact I | intros stop c1 l1 _].
  destruct stop; [exact I |].
  apply blameless_bind; [apply blameless_typeChar | intros _ c2 l2 _]. apply IH.
Qed.

End Failures.

(** With [Math.random] in [0,1) the engine never fails by itself: a run
    that throws was refused by the page, either a keyboard operation, and
    the error is the keyboard's, or the count query of one of the focus
    selectors, and the error is the locator's and no key was pressed; a
    run that never returns was paused by a predicate that never cleared;
    the index drawn into the neighbour table is always in range, so the
    error is never a [TypeError]. *)
Theorem run_fails_only_from_outside (env : Typer.Env) (text : string) (o : Typer.Options)
  (c c1 : Typer.Counters) (r : Typer.Outcome nat) (log : list Typer.Event) :
  (forall n, (0 <= Typer.random env n)%Q /\ (Typer.random env n < 1)%Q) ->
  Typer.typeWithHumanSpeed text o env c = (r, c1, log) ->
  (forall e, r = Typer.Threw e ->
     (e = Typer.KeyboardError /\ exists n, Typer.keyboardOk env n = false)
     \/ (e = Typer.LocatorError
         /\ Typer.keystrokes log = []
         /\ exists s, In s Typer.focusSelectors /\ Typer.locatorCount env s = None))
  /\ (r = Typer.Hung -> exists n, Typer.pausedFor env n = None)
  /\ ((forall s, In s Typer.focusSelectors -> Typer.locatorCount env s <> None) ->
      r <> Typer.Threw Typer.LocatorError).
Proof.
  intros Hrange H.
  pose proof (blameless_typeLoop env Hrange o (String.length text)
                (Typer.wpmToMsPerChar (Typer.wpm o)) text 0 c) as Hb.
  apply typeWithHumanSpeed_inv in H.
  destruct H as (focus & body & Hq & [[[l0 Hfocus] H] | [Hfocus H]] & ->).
  - rewrite H in Hb. unfold outcomeOf in Hb. simpl in Hb.
    assert (Hloop : forall e, r = Typer.Threw e ->
              e = Typer.KeyboardError /\ exists n, Typer.keyboardOk env n = false).
    { intros e ->. exact Hb. }
    split; [| split].
    + intros e He. left. exact (Hloop e He).
    + intros ->. exact Hb.
    + intros _ Hr. destruct (Hloop _ Hr) as [Hk _]. discriminate Hk.
  - injection H as -> _ ->. rewrite app_nil_r.
    destruct (focusDoc_inv _ _ _ _ _ _ Hfocus) as [_ [Hr | (_ & Hs)]]; [discriminate Hr |].
    split; [| split].
    + intros e He. injection He as <-. right. split; [reflexivity |].
      split; [exact (proj1 Hq) | exact Hs].
    + discriminate.
    + intros Hcount _. destruct Hs as (s & Hin & Hn). exact (Hcount s Hin Hn).
Qed.

(** A page whose keyboard rejects the second operation. *)
Definition secondKeyFails : Typer.Env :=
  {| Typer.random := fun _ => (1 # 2)%Q;
     Typer.shouldStop := fun _ => false;
     Typer.pausedFor := fun _ => Some 0;
     Typer.locatorCount := fun _ => Some 1;
     Typer.clickOk := fun _ => true;
     Typer.keyboardOk := fun n => negb (Nat.eqb n 1) |}.

(** A caller whose pause never ends. *)
Definition neverResumes : Typer.Env :=
  {| Typer.random := fun _ => (1 # 2)%Q;
     Typer.shouldStop := fun _ => false;
     Typer.pausedFor := fun _ => None;
     Typer.locatorCount := fun _ => Some 1;
     Typer.clickOk := fun _ => true;
     Typer.keyboardOk := fun _ => true |}.

(** "Hi." on a page that rejects the second key: a keyboard error, and not
    a locator error; on a page that rejects the count query of the canvas:
    a locator error; under a pause that never ends: no return. *)
Lemma run_fails_only_from_outside_witness :
  fst (fst (Typer.typeWithHumanSpeed "Hi." plainOptions secondKeyFails Typer.start))
    = Typer.Threw Typer.KeyboardError
  /\ (exists n, Typer.keyboardOk secondKeyFails n = false)
  /\ fst (fst (Typer.typeWithHumanSpeed "Hi." plainOptions canvasRejects Typer.start))
     = Typer.Threw Typer.LocatorError
  /\ (exists s, In s Typer.focusSelectors /\ Typer.locatorCount canvasRejects s = None)
  /\ fst (fst (Typer.typeWithHumanSpeed "Hi." plainOptions neverResumes Typer.start))
     = Typer.Hung
  /\ (exists n, Typer.pausedFor neverResumes n = None)
  /\ fst (fst (Typer.typeWithHumanSpeed "Hi." plainOptions secondKeyFails Typer.start))
     <> Typer.Threw Typer.LocatorError.
Proof.
  split; [vm_compute; reflexivity |]. split; [| split; [vm_compute; reflexivity |]].
  2: split; [| split; [vm_compute; reflexivity | split]].
  4: { destruct (run_fails_only_from_outside secondKeyFails "Hi." plainOptions Typer.start
                   (snd (fst (Typer.typeWithHumanSpeed "Hi." plainOptions secondKeyFails
                                Typer.start)))
                   (fst (fst (Typer.typeWithHumanSpeed "Hi." plainOptions secondKeyFails
                                Typer.start)))
                   (snd (Typer.typeWithHumanSpeed "Hi." plainOptions secondKeyFails
                           Typer.start)))
         as (_ & _ & Hcount).
       - intros n. split; [discriminate | reflexivity].
       - vm_compute. reflexivity.
       - apply Hcount. intros s _. discriminate. }
  3: { destruct (run_fails_only_from_outside neverResumes "Hi." plainOptions Typer.start
                   (snd (fst (Typer.typeWithHumanSpeed "Hi." plainOptions neverResumes
                                Typer.start)))
                   Typer.Hung
                   (snd (Typer.typeWithHumanSpeed "Hi." plainOptions neverResumes
                           Typer.start)))
         as (_ & Hhung & _).
       - intros n. split; [discriminate | reflexivity].
       - vm_compute. reflexivity.
       - exact (Hhung eq_refl). }
  - destruct (run_fails_only_from_outside secondKeyFails "Hi." plainOptions Typer.start
                (snd (fst (Typer.typeWithHumanSpeed "Hi." plainOptions secondKeyFails
                             Typer.start)))
                (Typer.Threw Typer.KeyboardError)
                (snd (Typer.typeWithHumanSpeed "Hi." plainOptions secondKeyFails Typer.start)))
      as [Hthrow _].
    + intros n. split; [discriminate | reflexivity].
    + vm_compute. reflexivity.
    + destruct (Hthrow _ eq_refl) as [[_ Hk] | [He _]]; [exact Hk | discriminate He].
  - destruct (run_fails_only_from_outside canvasRejects "Hi." plainOptions Typer.start
                (snd (fst (Typer.typeWithHumanSpeed "Hi." plainOptions canvasRejects
                             Typer.start)))
                (Typer.Threw Typer.LocatorError)
                (snd (Typer.typeWithHumanSpeed "Hi." plainOptions canvasRejects Typer.start)))
      as [Hthrow _].
    + intros n. split; [discriminate | reflexivity].
    + vm_compute. reflexivity.
    + destruct (Hthrow _ eq_refl) as [[He _] | (_ & _ & Hs)]; [discriminate He | exact Hs].
Defined.

Section Completion.
Import Typer.
Local Open Scope list_scope.

Variable env : Env.
Hypothesis random_range : forall n, (0 <= random env n)%Q /\ (random env n < 1)%Q.
Hypothesis keyboard_works : forall n, keyboardOk env n = true.
Hypothesis pauses_clear : forall n, pausedFor env n <> None.
Hypothesis never_stopped : forall n, shouldStop env n = false.

Lemma typeChar_returns o len base i char c :
  exists c1 l, typeChar o len base i char env c = (Returned tt, c1, l)
               /\ nStop c1 = nStop c.
Proof.
  pose proof (blameless_typeChar env random_range o len base i char c) as Hb.
  pose proof (keepsStop_typeChar o len base i char env c) as Hk.
  unfold outcomeOf in Hb.
  destruct (typeChar o len base i char env c) as [[[[] | e |] c1] l]; simpl in *.
  - eauto.
  - destruct Hb as [_ [n Hn]]. rewrite keyboard_works in Hn. discriminate Hn.
  - destruct Hb as [n Hn]. destruct (pauses_clear n Hn).
Qed.

Lemma typeLoop_completes o len base rest : forall i c,
  exists c1 log,
    typeLoop o len base i rest env c = (Returned (i + String.length rest), c1, log)
    /\ nStop c1 = nStop c + String.length rest.
Proof.
  induction rest as [| char rest IH]; intros i c.
  - exists c, []. simpl. rewrite !Nat.add_0_r. auto.
  - simpl. unfold bind at 1. unfold callShouldStop. rewrite never_stopped.
    destruct (typeChar_returns o len base i char
                {| nRandom := nRandom c; nStop := S (nStop c);
                   nPause := nPause c; nKey := nKey c |}) as (c1 & l & Hc & Hs).
    rewrite (bind_run _ _ _ _ _ _ _ Hc).
    destruct (IH (S i) c1) as (c2 & log & Hl & Hs2). rewrite Hl.
    exists c2, (l ++ log). simpl in *. split.
    + repeat f_equal. lia.
    + lia.
Qed.

End Completion.

(** On a page that answers the count query of every focus selector and
    whose keyboard accepts every operation, with a pause predicate that
    always clears, a stop predicate that never fires and [Math.random] in
    [0,1), the run returns having passed every character of the text, and
    the stop predicate has been consulted exactly once per character. *)
Theorem run_reaches_the_end (env : Typer.Env) (text : string) (o : Typer.Options)
  (c : Typer.Counters) :
  (forall n, (0 <= Typer.random env n)%Q /\ (Typer.random env n < 1)%Q) ->
  (forall s, In s Typer.focusSelectors -> Typer.locatorCount env s <> None) ->
  (forall n, Typer.keyboardOk env n = true) ->
  (forall n, Typer.pausedFor env n <> None) ->
  (forall n, Typer.shouldStop env n = false) ->
  exists c1 log,
    Typer.typeWithHumanSpeed text o env c = (Typer.Returned (String.length text), c1, log)
    /\ Typer.nStop c1 = Typer.nStop c + String.length text.
Proof.
  intros Hr Hc Hk Hp Hs. unfold Typer.typeWithHumanSpeed.
  destruct (focusDoc_returns Typer.focusSelectors env c Hc) as [l Hl].
  rewrite (bind_run _ _ _ _ _ _ _ Hl).
  destruct (typeLoop_completes env Hr Hk Hp Hs o (String.length text)
              (Typer.wpmToMsPerChar (Typer.wpm o)) text 0 c) as (c1 & log & Hrun & Hstop).
  rewrite Hrun. exists c1, (l ++ log)%list. auto.
Qed.

(** "Hi." on the steady page. *)
Lemma run_reaches_the_end_witness :
  exists c1 log,
    Typer.typeWithHumanSpeed "Hi." typosAlways steadyEnv Typer.start
    = (Typer.Returned 3, c1, log)
    /\ Typer.nStop c1 = 3.
Proof.
  apply (run_reaches_the_end steadyEnv "Hi." typosAlways Typer.start).
  - intros n. split; [discriminate | reflexivity].
  - discriminate.
  - reflexivity.
  - discriminate.
  - reflexivity.
Defined.

(** ** The wrong key of a typo *)

Section WrongKey.
Import Typer.
Local Open Scope list_scope.





End WrongKey.


(** * Further properties of the agent *)

(** ** Loading content *)

Section Loading.
Import Agent.
Local Open Scope list_scope.

(** The heuristic of [loadEssay]: no line break, and a slash, a backslash
    or a text-file extension. *)
Definition looksLikePath (s : string) : bool :=
  (negb (includes s lineFeed)
   && (includes s "/" || includes s "\" || hasTextExtension s))%bool.

Lemma trim_empty : trim EmptyString = EmptyString.
Proof.
  reflexivity.
Qed.

Lemma loadEssay_trimmed (fs : FileSystem) (e : option string) :
  trim (loadEssay fs e) = loadEssay fs e.
Proof.
  unfold loadEssay. destruct e as [text |]; [| reflexivity].
  destruct (isEmpty text); [reflexivity |].
  destruct (_ && _)%bool; [| apply trim_idempotent].
  destruct (readFile fs _); apply trim_idempotent.
Qed.

(** What [loadEssay] returns has no white space around it.  Text that has
    a line break, or neither slash, backslash nor text-file extension, is
    returned trimmed without the file system being asked; text that looks
    like a path is replaced by the trimmed content of the file it names, and
    returned trimmed itself when the file cannot be read. *)
Theorem loadEssay_text_or_file (fs : FileSystem) (text : string) :
  trim (loadEssay fs (Some text)) = loadEssay fs (Some text)
  /\ (looksLikePath (trim text) = false -> loadEssay fs (Some text) = trim text)
  /\ (readFile fs (resolvePath fs (trim text)) = None ->
      loadEssay fs (Some text) = trim text)
  /\ (forall data, text <> EmptyString -> looksLikePath (trim text) = true ->
        readFile fs (resolvePath fs (trim text)) = Some data ->
        loadEssay fs (Some text) = trim data).
Proof.
  split; [apply loadEssay_trimmed |].
  unfold loadEssay, looksLikePath.
  destruct text as [| a text]; simpl isEmpty; cbv iota.
  - split; [reflexivity |]. split; [reflexivity |]. intros data H. contradiction.
  - split; [intros ->; reflexivity |]. split.
    + intros ->. destruct (_ && _)%bool; reflexivity.
    + intros data _ -> ->. reflexivity.
Qed.

End Loading.

(** A file system holding one file, "essay.txt". *)
Definition oneFile : Agent.FileSystem :=
  {| Agent.resolvePath := fun p => p;
     Agent.readFile := fun p => if String.eqb p "essay.txt" then Some " From the file. " else None |}.

(** A sentence is kept, a missing file name is kept as text, and
    "essay.txt" is replaced by the file's content. *)
Lemma loadEssay_text_or_file_witness :
  Agent.loadEssay oneFile (Some " Dear reader ") = "Dear reader"
  /\ Agent.loadEssay oneFile (Some "notes.md") = "notes.md"
  /\ Agent.loadEssay oneFile (Some " essay.txt ") = "From the file.".
Proof.
  split; [| split].
  - apply (proj1 (proj2 (loadEssay_text_or_file oneFile " Dear reader "))). reflexivity.
  - apply (proj1 (proj2 (proj2 (loadEssay_text_or_file oneFile "notes.md")))). reflexivity.
  - apply (proj2 (proj2 (proj2 (loadEssay_text_or_file oneFile " essay.txt ")))
             " From the file. ").
    + discriminate.
    + reflexivity.
    + reflexivity.
Defined.

(** ** Resolved jobs *)

Section ResolvedJobs.
Import Agent.
Local Open Scope list_scope.

Lemma resolveContent_trimmed (fs : FileSystem) (j : Job) :
  trim (resolveContent fs j) = resolveContent fs j.
Proof.
  unfold resolveContent. destruct (essayContent j); [apply trim_idempotent |].
  destruct (essay j); [apply loadEssay_trimmed | reflexivity].
Qed.

Lemma normalizeDocUrl_twice (url : string) :
  normalizeDocUrl (normalizeDocUrl url) = normalizeDocUrl url.
Proof.
  destruct (canonical_dec (trim url)) as [Hc | Hc].
  - rewrite (normalize_canonical url Hc).
    rewrite normalize_canonical; rewrite trim_idempotent; [reflexivity | exact Hc].
  - destruct (bareToken_dec (trim url)) as [Ht | Ht].
    + rewrite (normalize_token url Ht).
      rewrite normalize_canonical; rewrite expanded_is_trimmed; [reflexivity |].
      left. apply prefix_append.
    + rewrite (normalize_other url Hc Ht).
      rewrite normalize_other; rewrite trim_idempotent; [reflexivity | exact Hc | exact Ht].
Qed.

Lemma isEmpty_false (s : string) : isEmpty s = false <-> s <> EmptyString.
Proof.
  destruct s; simpl; split; try discriminate; try reflexivity.
  intros H. contradiction.
Qed.

(** Every job that [runAgent] hands to [runJob] comes from a descriptor of
    the batch with the same pacing options, carries content that is not
    empty and has no white space around it, and names a target that
    normalisation leaves as it is; so [runJob] takes the content from the
    job itself, whatever the file system holds. *)
Theorem resolved_jobs_are_ready (fs : FileSystem) (jobs : list Job) (job : Job) :
  In job (snd (resolveJobs fs jobs)) ->
  exists descriptor text,
    In descriptor jobs
    /\ typingOptions job = typingOptions descriptor
    /\ essay job = Some text
    /\ text <> EmptyString /\ trim text = text
    /\ normalizeDocUrl (docUrl job) = docUrl job
    /\ forall fs', jobEssay fs' job = text.
Proof.
  rewrite resolveJobs_spec. simpl. intros H.
  apply in_map_iff in H. destruct H as (d & <- & Hd).
  apply filter_In in Hd. destruct Hd as [Hin Hc].
  unfold hasContent in Hc. apply negb_true_iff in Hc.
  exists d, (resolveContent fs d). split; [exact Hin |].
  split; [reflexivity |]. split; [reflexivity |].
  split; [apply isEmpty_false, Hc |]. split; [apply resolveContent_trimmed |].
  split; [apply normalizeDocUrl_twice |].
  intros fs'. unfold jobEssay, resolved, withContent. simpl. rewrite Hc. reflexivity.
Qed.

End ResolvedJobs.

(** The good descriptor of the two: content "Hi", canonical target. *)
Lemma resolved_jobs_are_ready_witness :
  exists descriptor text,
    In descriptor [blankJob; shortJob]
    /\ Agent.typingOptions (resolved noFiles shortJob) = Agent.typingOptions descriptor
    /\ Agent.essay (resolved noFiles shortJob) = Some text
    /\ text <> EmptyString /\ trim text = text
    /\ Agent.normalizeDocUrl (Agent.docUrl (resolved noFiles shortJob))
       = Agent.docUrl (resolved noFiles shortJob)
    /\ forall fs', Agent.jobEssay fs' (resolved noFiles shortJob) = text.
Proof.
  apply (resolved_jobs_are_ready noFiles [blankJob; shortJob] (resolved noFiles shortJob)).
  left. reflexivity.
Defined.

(** ** Batches without content, and the order of a sequential run *)

Section Batches.
Import Agent.
Local Open Scope list_scope.

Variable fs : FileSystem.
Variable world : nat -> JobWorld.

Lemma filter_none {A} (p : A -> bool) (l : list A) :
  (forall x, In x l -> p x = false) -> filter p l = [].
Proof.
  induction l as [| x l IH]; intros H; [reflexivity |].
  simpl. rewrite (H x (or_introl eq_refl)). apply IH. intros y Hy. apply H. right. exact Hy.
Qed.

Lemma filter_all {A} (p : A -> bool) (l : list A) :
  (forall x, In x l -> p x = true) -> filter p l = l.
Proof.
  induction l as [| x l IH]; intros H; [reflexivity |].
  simpl. rewrite (H x (or_introl eq_refl)). f_equal. apply IH.
  intros y Hy. apply H. right. exact Hy.
Qed.

(** A batch in which no descriptor has content, the empty batch included,
    opens nothing: every descriptor is warned about in input order, the
    error "No valid jobs to run." is printed, and [runAgent] returns
    normally, in either mode. *)
Theorem batch_without_content (schedule : list nat) (jobs : list Job)
  (options : RunOptions) :
  (forall j, In j jobs -> resolveContent fs j = EmptyString) ->
  runAgent fs world schedule jobs options
  = (map skipWarning jobs ++ [ConsoleError "No valid jobs to run."], Fulfilled).
Proof.
  intros H. unfold runAgent. rewrite resolveJobs_spec.
  rewrite (filter_none (hasContent fs)), (filter_all (fun j => negb (hasContent fs j))).
  - reflexivity.
  - intros j Hj. unfold hasContent. rewrite (H j Hj). reflexivity.
  - intros j Hj. unfold hasContent. rewrite (H j Hj). reflexivity.
Qed.

Variable close : bool.

(** A sequential run is, however it ends, the complete runs of the first
    so many jobs one after the other in input order; when it is fulfilled
    these are all the jobs, and otherwise the last of them is the one that
    was not fulfilled. *)
Theorem sequential_runs_in_order (k0 : nat) (jobs : list Job) :
  exists n,
    n <= List.length jobs
    /\ fst (runSequential fs world close k0 jobs)
       = jobLogs fs world close k0 (firstn n jobs)
    /\ (snd (runSequential fs world close k0 jobs) = Fulfilled -> n = List.length jobs)
    /\ (snd (runSequential fs world close k0 jobs) <> Fulfilled ->
        exists job, nth_error jobs (n - 1) = Some job /\ 0 < n
                    /\ snd (runJob fs (world (k0 + (n - 1))) close (k0 + (n - 1)) job)
                       = snd (runSequential fs world close k0 jobs)).
Proof.
  revert k0. induction jobs as [| job rest IH]; intros k0.
  - exists 0. simpl. split; [lia |]. split; [reflexivity |]. split; [reflexivity |].
    intros H. contradiction.
  - simpl runSequential.
    destruct (runJob fs (world k0) close k0 job) as [log r] eqn:Ejob.
    assert (Hstop : r <> Fulfilled ->
              exists n, n <= List.length (job :: rest)
                /\ log = jobLogs fs world close k0 (firstn n (job :: rest))
                /\ (r = Fulfilled -> n = List.length (job :: rest))
                /\ (r <> Fulfilled ->
                    exists j, nth_error (job :: rest) (n - 1) = Some j /\ 0 < n
                      /\ snd (runJob fs (world (k0 + (n - 1))) close (k0 + (n - 1)) j) = r)).
    { intros Hr. exists 1. simpl. rewrite Ejob, app_nil_r. split; [lia |].
      split; [reflexivity |]. split; [intros E; contradiction |].
      intros _. exists job. rewrite Nat.add_0_r, Ejob. auto. }
    destruct r as [| e |]; [| apply Hstop; discriminate | apply Hstop; discriminate].
    destruct (IH (S k0)) as (n & Hn & Hlog & Hful & Hrej).
    destruct (runSequential fs world close (S k0) rest) as [log' r'] eqn:Erest.
    simpl in *. exists (S n). split; [lia |]. split.
    + simpl. rewrite Ejob, Hlog. reflexivity.
    + split; [intros Hr; f_equal; exact (Hful Hr) |].
      intros Hr. destruct (Hrej Hr) as (j & Hj & Hpos & Hres).
      exists j. replace (S n - 1) with (S (n - 1)) by lia.
      replace (k0 + S (n - 1)) with (S (k0 + (n - 1))) by lia. simpl. auto.
Qed.

End Batches.

(** Two blank descriptors: two warnings, the error, a normal return. *)
Lemma batch_without_content_witness :
  Agent.runAgent noFiles firstTabDead [] [blankJob; blankJob]
    {| Agent.sequential := true; Agent.closeTabOnComplete := false |}
  = ((map skipWarning [blankJob; blankJob]
        ++ [Agent.ConsoleError "No valid jobs to run."])%list, Agent.Fulfilled).
Proof.
  apply (batch_without_content noFiles firstTabDead [] [blankJob; blankJob]).
  intros j [<- | [<- | []]]; reflexivity.
Defined.

(** Two jobs in sequence, the first failing to load: the run is the first
    job's run alone, and it ends as that job ended. *)
Lemma sequential_runs_in_order_witness :
  exists n job,
    n <= 2
    /\ fst (Agent.runSequential noFiles firstTabDead false 0 (map (resolved noFiles) twoJobs))
       = jobLogs noFiles firstTabDead false 0 (firstn n (map (resolved noFiles) twoJobs))
    /\ nth_error (map (resolved noFiles) twoJobs) (n - 1) = Some job
    /\ snd (Agent.runJob noFiles (firstTabDead (0 + (n - 1))) false (0 + (n - 1)) job)
       = Agent.Rejected Agent.NavigationFailed.
Proof.
  destruct (sequential_runs_in_order noFiles firstTabDead false 0
              (map (resolved noFiles) twoJobs)) as (n & Hn & Hlog & _ & Hrej).
  destruct Hrej as (job & Hjob & _ & Hres); [vm_compute; discriminate |].
  exists n, job. split; [exact Hn |]. split; [exact Hlog |]. split; [exact Hjob |].
  rewrite Hres. vm_compute. reflexivity.
Defined.

(** ** One job from start to end *)

Section OneJob.
Import Agent.
Local Open Scope list_scope.

Variable fs : FileSystem.
Variable w : JobWorld.
Variable close : bool.
Variable k : nat.

(** The events of job [k] on its page. *)
Fixpoint pageLog (log : list Event) : list Typer.Event :=
  match log with
  | [] => []
  | OnPage _ e :: rest => e :: pageLog rest
  | _ :: rest => pageLog rest
  end.

Lemma pageLog_app (l1 l2 : list Event) : pageLog (l1 ++ l2) = pageLog l1 ++ pageLog l2.
Proof.
  induction l1 as [| e l1 IH]; [reflexivity |].
  destruct e; simpl; rewrite IH; reflexivity.
Qed.

Lemma pageLog_onPage (j : nat) (l : list Typer.Event) : pageLog (map (OnPage j) l) = l.
Proof.
  induction l as [| e l IH]; [reflexivity |]. simpl. rewrite IH. reflexivity.
Qed.

Lemma pageLog_closeTab (b : bool) (j : nat) : pageLog (closeTab b j) = [].
Proof.
  destruct b; reflexivity.
Qed.

Lemma pageLog_prologue (job : Job) : pageLog (jobPrologue fs k job) = [].
Proof.
  unfold jobPrologue. destruct (isEmpty (jobEssay fs job)); reflexivity.
Qed.

(** What the typing engine did for a job: its outcome and its log. *)
Definition typingOf (job : Job) : Typer.Outcome nat * Typer.Counters * list Typer.Event :=
  Typer.typeWithHumanSpeed (jobEssay fs job) (typingOptions job) (typingEnv w) Typer.start.

(** A job whose tab opened and loaded: its page log is the two-second
    wait and then the engine's log. *)
Lemma pageLog_runJob (job : Job) :
  isEmpty (jobEssay fs job) = false -> newPageOk w = true ->
  gotoOk w = true -> loadStateOk w = true ->
  pageLog (fst (runJob fs w close k job)) = Typer.Sleep 2000%Q :: snd (typingOf job).
Proof.
  intros He Hn Hg Hl. unfold runJob, jobBody, typingOf. rewrite He, Hn, Hg, Hl. simpl.
  destruct (Typer.typeWithHumanSpeed _ _ _ _) as [[[n | e |] c] log]; simpl;
    rewrite pageLog_app, pageLog_prologue; simpl;
    rewrite ?pageLog_app, pageLog_onPage; simpl; rewrite ?pageLog_closeTab, ?app_nil_r;
    reflexivity.
Qed.

Lemma fulfilled_inv (job : Job) :
  snd (runJob fs w close k job) = Fulfilled ->
  isEmpty (jobEssay fs job) = false /\ newPageOk w = true
  /\ gotoOk w = true /\ loadStateOk w = true
  /\ exists n c, typingOf job = (Typer.Returned n, c, snd (typingOf job)).
Proof.
  unfold runJob, jobBody, typingOf.
  destruct (isEmpty (jobEssay fs job)); [discriminate |].
  destruct (newPageOk w); [| discriminate].
  destruct (gotoOk w); [| discriminate].
  destruct (loadStateOk w); [| discriminate]. simpl.
  destruct (Typer.typeWithHumanSpeed _ _ _ _) as [[[n | e |] c] log]; simpl;
    try discriminate.
  intros _. eauto 10.
Qed.

(** The engine inside [runJob] is never stopped: when it returns, it has
    reached the end of the text. *)
Lemma typeLoop_unstopped env o len base rest :
  (forall n, Typer.shouldStop env n = false) ->
  forall i c n c1 log,
    Typer.typeLoop o len base i rest env c = (Typer.Returned n, c1, log) ->
    n = i + String.length rest.
Proof.
  intros Hs. induction rest as [| char rest IH]; intros i c n c1 log H.
  - simpl in H. injection H as <- _ _. simpl. lia.
  - simpl in H.
    apply bind_returned in H. destruct H as (stop & c2 & l1 & l2 & Hstop & H & ->).
    unfold Typer.callShouldStop in Hstop. injection Hstop as <- <- <-. rewrite Hs in H.
    apply bind_returned in H. destruct H as ([] & c3 & l3 & l4 & _ & H & ->).
    rewrite (IH _ _ _ _ _ H). simpl. lia.
Qed.

Lemma finished_document (text : string) o env c c1 log :
  Typer.typeWithHumanSpeed text o env c = (Typer.Returned (String.length text), c1, log) ->
  Typer.document log = chars text.
Proof.
  intros H.
  apply typeWithHumanSpeed_returned in H. destruct H as (focus & body & [Hf _] & H & ->).
  unfold Typer.document. rewrite document_keystrokes, keystrokes_app, Hf. simpl app.
  apply (typeLoop_finished
           (fun char t => Typer.keystrokes t = []
                          \/ (perturbable char /\ slip char (Typer.keystrokes t)))) in H.
  - apply passes_keyBlocks in H.
    apply (keyBlocks_document _ _ _) with (doc := []) in H; [exact H |].
    intros char b (t & [Ht | [Hp (ns & x & _ & _ & Ht)]] & ->) doc; rewrite Ht; simpl.
    + apply applyKey_emission.
    + rewrite removelast_last. apply applyKey_emission.
  - intros char d c2 c3 t Ht.
    destruct (typoRoll_returned _ _ _ _ _ _ _ Ht) as [_ [Hk | (_ & _ & Hp & Hs)]]; auto.
Qed.

(** A job that is fulfilled has typed its content: replaying the key
    operations of its page (typed characters and Enter append, Backspace
    removes the last character) gives exactly the job's text, typos or not;
    its callbacks are one start with the length of the text, and one
    completion without an error. *)
Theorem fulfilled_job_typed_its_content (job : Job) :
  snd (runJob fs w close k job) = Fulfilled ->
  Typer.document (pageLog (fst (runJob fs w close k job))) = chars (jobEssay fs job)
  /\ In (JobStart k (String.length (jobEssay fs job))) (fst (runJob fs w close k job))
  /\ In (JobComplete k None) (fst (runJob fs w close k job)).
Proof.
  intros H. destruct (fulfilled_inv job H) as (He & Hn & Hg & Hl & n & c & Hrun).
  split; [| split].
  - rewrite (pageLog_runJob job He Hn Hg Hl).
    assert (En : n = String.length (jobEssay fs job)).
    { unfold typingOf in Hrun. apply typeWithHumanSpeed_returned in Hrun.
      destruct Hrun as (focus & body & _ & Hloop & _).
      apply (typeLoop_unstopped (typingEnv w)) in Hloop; [exact Hloop | reflexivity]. }
    subst n. apply finished_document in Hrun.
    unfold Typer.document in *. simpl. exact Hrun.
  - unfold runJob, jobBody, jobPrologue. rewrite He.
    destruct (if negb (newPageOk w) then _ else _). simpl. left. reflexivity.
  - unfold runJob, jobBody, typingOf in *. rewrite He, Hn, Hg, Hl. simpl.
    rewrite Hrun. simpl. apply in_or_app. right. simpl.
    do 3 right. apply in_or_app. right. left. reflexivity.
Qed.

End OneJob.

(** The short job on a good tab: "Hi" is in the document. *)
Lemma fulfilled_job_typed_its_content_witness :
  Typer.document (pageLog (fst (Agent.runJob noFiles goodTab false 0 (resolved noFiles shortJob))))
  = chars "Hi".
Proof.
  destruct (fulfilled_job_typed_its_content noFiles goodTab false 0
              (resolved noFiles shortJob)) as [E _].
  - vm_compute. reflexivity.
  - rewrite E. vm_compute. reflexivity.
Defined.

(** ** Closing tabs, and jobs without typos *)

Section Tabs.
Import Agent.
Local Open Scope list_scope.

Variable fs : FileSystem.

Definition isClosePage (e : Event) : bool :=
  match e with
  | ClosePage _ => true
  | _ => false
  end.

Lemma filter_isClosePage_onPage (k : nat) (l : list Typer.Event) :
  filter isClosePage (map (OnPage k) l) = [].
Proof.
  induction l as [| e l IH]; [reflexivity | exact IH].
Qed.

Lemma closePages_prologue (k : nat) (job : Job) :
  filter isClosePage (jobPrologue fs k job) = [].
Proof.
  unfold jobPrologue. destruct (isEmpty (jobEssay fs job)); reflexivity.
Qed.

(** The events of a job end with its completion callback, followed by the
    closing of its tab when that was asked for. *)
Lemma runJob_ending (w : JobWorld) (close : bool) (k : nat) (job : Job) (err : option Error) :
  In (JobComplete k err) (fst (runJob fs w close k job)) ->
  exists before,
    fst (runJob fs w close k job) = before ++ JobComplete k err :: closeTab close k
    /\ filter isClosePage before = [].
Proof.
  unfold runJob, jobBody, jobPrologue.
  destruct (isEmpty (jobEssay fs job)); [intros [] |].
  destruct (negb (newPageOk w)); [simpl; intros [H | []]; discriminate H |].
  destruct (negb (gotoOk w && loadStateOk w)).
  - simpl. intros [H | [H | [H | [H | H]]]]; try discriminate H.
    + injection H as <-. eexists [_; _; _]. split; reflexivity.
    + destruct (In_closeTab _ _ _ _ H).
  - destruct (Typer.typeWithHumanSpeed _ _ _ _) as [[[n | e |] c] log]; simpl;
      intros [H | [H | [H | [H | H]]]]; try discriminate H.
    + apply in_app_or in H. destruct H as [H | [H | H]].
      * destruct (In_onPage _ _ _ _ H).
      * injection H as <-.
        exists ([JobStart k (String.length (jobEssay fs job)); NewPage k;
                 Goto k (normalizeDocUrl (docUrl job)); OnPage k (Typer.Sleep 2000%Q)]
                ++ map (OnPage k) log).
        split; [rewrite <- app_assoc; reflexivity |].
        rewrite filter_app, filter_isClosePage_onPage. reflexivity.
      * destruct (In_closeTab _ _ _ _ H).
    + apply in_app_or in H. destruct H as [H | [H | H]].
      * destruct (In_onPage _ _ _ _ H).
      * injection H as <-.
        exists ([JobStart k (String.length (jobEssay fs job)); NewPage k;
                 Goto k (normalizeDocUrl (docUrl job)); OnPage k (Typer.Sleep 2000%Q)]
                ++ map (OnPage k) log).
        split; [rewrite <- app_assoc; reflexivity |].
        rewrite filter_app, filter_isClosePage_onPage. reflexivity.
      * destruct (In_closeTab _ _ _ _ H).
    + destruct (In_onPage _ _ _ _ H).
Qed.

Lemma closePages_runJob (w : JobWorld) (close : bool) (k : nat) (job : Job) :
  filter isClosePage (fst (runJob fs w close k job)) = [] \/
  (close = true /\ filter isClosePage (fst (runJob fs w close k job)) = [ClosePage k]).
Proof.
  unfold runJob, jobBody, jobPrologue.
  destruct (isEmpty (jobEssay fs job)); [left; reflexivity |].
  destruct (negb (newPageOk w)); [left; reflexivity |].
  destruct (negb (gotoOk w && loadStateOk w)).
  - destruct close; simpl; [right | left]; auto.
  - destruct (Typer.typeWithHumanSpeed _ _ _ _) as [[[n | e |] c] log]; simpl;
      rewrite ?filter_app, filter_isClosePage_onPage; destruct close; simpl; auto.
Qed.

(** A job's tab is closed at most once and only when closing was asked
    for; when it was, the tab is closed right after the job's completion
    callback, whether the job was fulfilled or failed in a reported way,
    and that is the last thing the job does.  In sequential mode closing
    takes effect only when more than one job has content: a batch with a
    single such job leaves its tab open. *)
Theorem tab_is_closed_after_completion (world : nat -> JobWorld) :
  (forall close k job,
      filter isClosePage (fst (runJob fs (world k) close k job)) = []
      \/ (close = true
          /\ filter isClosePage (fst (runJob fs (world k) close k job)) = [ClosePage k]))
  /\ (forall k job err,
         In (JobComplete k err) (fst (runJob fs (world k) true k job)) ->
         exists before,
           fst (runJob fs (world k) true k job)
           = before ++ [JobComplete k err; ClosePage k]
           /\ filter isClosePage before = [])
  /\ (forall schedule jobs closing,
         List.length (filter (hasContent fs) jobs) <= 1 ->
         filter isClosePage
           (fst (runAgent fs world schedule jobs
                   {| sequential := true; closeTabOnComplete := closing |})) = []).
Proof.
  split; [| split].
  - intros close k job. apply closePages_runJob.
  - intros k job err H. exact (runJob_ending (world k) true k job err H).
  - intros schedule jobs closing Hlen. unfold runAgent. rewrite resolveJobs_spec.
    assert (Hw : filter isClosePage
                   (map skipWarning (filter (fun j => negb (hasContent fs j)) jobs)) = []).
    { generalize (filter (fun j => negb (hasContent fs j)) jobs). intros l.
      induction l as [| j l IH]; [reflexivity | exact IH]. }
    destruct (filter (hasContent fs) jobs) as [| j0 [| j1 rest]]; simpl in Hlen; [| | lia].
    + simpl. rewrite filter_app, Hw. reflexivity.
    + simpl map. cbn [sequential closeTabOnComplete List.length Nat.ltb Nat.leb andb].
      simpl runSequential.
      destruct (closePages_runJob (world 0) false 0 (resolved fs j0)) as [Hc | [Hc _]];
        [| discriminate Hc].
      destruct (runJob fs (world 0) false 0 (resolved fs j0)) as [log r]. simpl in Hc.
      destruct r; simpl; rewrite ?filter_app, Hw, ?app_nil_r, Hc; reflexivity.
Qed.

End Tabs.

(** The short job with closing asked for: completion, then the tab closes;
    alone in a sequential batch, its tab stays open. *)
Lemma tab_is_closed_after_completion_witness :
  (exists before,
      fst (Agent.runJob noFiles (firstTabDead 1) true 1 (resolved noFiles shortJob))
      = (before ++ [Agent.JobComplete 1 None; Agent.ClosePage 1])%list
      /\ filter isClosePage before = [])
  /\ filter isClosePage
       (fst (Agent.runAgent noFiles firstTabDead [] [blankJob; shortJob]
               {| Agent.sequential := true; Agent.closeTabOnComplete := true |})) = [].
Proof.
  destruct (tab_is_closed_after_completion noFiles firstTabDead) as (_ & Hend & Hone).
  split.
  - apply (Hend 1 (resolved noFiles shortJob) None).
    vm_compute. auto 20.
  - apply (Hone [] [blankJob; shortJob] true). vm_compute. repeat constructor.
Defined.

Section WithoutTypos.
Import Agent.
Local Open Scope list_scope.

(** With typo simulation off, the keys of a run are, however it ends, the
    keys of the first so many characters of the text. *)
Lemma keys_without_typos text o env c r c1 log :
  Typer.simulateTypos o = false \/ ~ (0 < Typer.typoChance o)%Q ->
  Typer.typeWithHumanSpeed text o env c = (r, c1, log) ->
  exists n, n <= String.length text
    /\ Typer.keystrokes log = map Typer.emission (firstn n (chars text)).
Proof.
  intros Hoff H.
  assert (Hoff' : forall char, Typer.simulateTypos o = false \/ ~ (0 < Typer.typoChance o)%Q
                               \/ ~ perturbable char) by (intros char; tauto).
  destruct (typeWithHumanSpeed_any Typer.isKeyboard (fun _ char => Typer.emission char)
              _ _ _ _ _ _ _ (fun focus Hq => proj1 Hq)
              (fun i char c r c1 l => typeChar_unperturbed o _ _ env i char c r c1 l (Hoff' char))
              H) as (n & Hn & Hlog & _).
  rewrite <- map_emission_items in Hlog. exists n. split; [exact Hn | exact Hlog].
Qed.

Lemma deletions_of_emissions (cs : list ascii) :
  filter Typer.isDeletion (map Typer.emission cs) = [].
Proof.
  induction cs as [| ch cs IH]; [reflexivity |].
  simpl. unfold Typer.emission at 1. destruct (Ascii.eqb ch Typer.newline); exact IH.
Qed.

Lemma deletions_in_keystrokes (l : list Typer.Event) :
  filter Typer.isDeletion l = filter Typer.isDeletion (Typer.keystrokes l).
Proof.
  induction l as [| e l IH]; [reflexivity |].
  destruct e as [| | | | [] |]; simpl; rewrite IH; reflexivity.
Qed.

Lemma pageLog_cases fs w close k job :
  pageLog (fst (runJob fs w close k job)) = []
  \/ pageLog (fst (runJob fs w close k job))
     = Typer.Sleep 2000%Q :: snd (typingOf fs w job).
Proof.
  unfold runJob, jobBody, typingOf.
  destruct (isEmpty (jobEssay fs job)) eqn:He.
  { left. simpl. rewrite app_nil_r. unfold jobPrologue. rewrite He. reflexivity. }
  destruct (negb (newPageOk w)).
  { left. simpl. rewrite app_nil_r. unfold jobPrologue. rewrite He. reflexivity. }
  destruct (negb (gotoOk w && loadStateOk w)).
  - left. simpl. rewrite pageLog_app. unfold jobPrologue. rewrite He. simpl.
    apply pageLog_closeTab.
  - right.
    destruct (Typer.typeWithHumanSpeed _ _ _ _) as [[[n | e |] c] log]; simpl;
      rewrite pageLog_app; unfold jobPrologue; rewrite He; simpl;
      rewrite ?pageLog_app, pageLog_onPage; simpl; rewrite ?pageLog_closeTab, ?app_nil_r;
      reflexivity.
Qed.

(** A job that does not ask for typos ([simulateTypos] absent or false,
    the default) never presses Backspace, and the keys it presses are,
    however it ends, the keys of the first so many characters of its
    content, in order, Enter standing for a line break. *)
Theorem job_without_typos_never_deletes (fs : FileSystem) (w : JobWorld) (close : bool)
  (k : nat) (job : Job) :
  simulateTypos job = None \/ simulateTypos job = Some false ->
  filter Typer.isDeletion (pageLog (fst (runJob fs w close k job))) = []
  /\ exists n, n <= String.length (jobEssay fs job)
       /\ Typer.keystrokes (pageLog (fst (runJob fs w close k job)))
          = map Typer.emission (firstn n (chars (jobEssay fs job))).
Proof.
  intros Hoff.
  assert (Hkeys : exists n, n <= String.length (jobEssay fs job)
            /\ Typer.keystrokes (pageLog (fst (runJob fs w close k job)))
               = map Typer.emission (firstn n (chars (jobEssay fs job)))).
  { destruct (pageLog_cases fs w close k job) as [-> | ->].
    - exists 0. split; [lia | reflexivity].
    - unfold typingOf.
      destruct (Typer.typeWithHumanSpeed (jobEssay fs job) (typingOptions job)
                  (typingEnv w) Typer.start) as [[r c1] log] eqn:E.
      apply keys_without_typos in E.
      + exact E.
      + left. unfold typingOptions. simpl. destruct Hoff as [-> | ->]; reflexivity. }
  split; [| exact Hkeys].
  destruct Hkeys as (n & _ & Hk). rewrite deletions_in_keystrokes, Hk.
  apply deletions_of_emissions.
Qed.

End WithoutTypos.

(** The short job, which has no typo setting: H, i and no Backspace. *)
Lemma job_without_typos_never_deletes_witness :
  filter Typer.isDeletion
    (pageLog (fst (Agent.runJob noFiles goodTab false 0 (resolved noFiles shortJob)))) = [].
Proof.
  apply (job_without_typos_never_deletes noFiles goodTab false 0 (resolved noFiles shortJob)).
  left. reflexivity.
Defined.

(** ** The parallel branch: starting and settling *)

Section ParallelBatch.
Import Agent.
Local Open Scope list_scope.

Definition isConsoleLog (e : Event) : bool :=
  match e with
  | ConsoleLog _ => true
  | _ => false
  end.

Definition isJobStart (e : Event) : bool :=
  match e with
  | JobStart _ _ => true
  | _ => false
  end.

Lemma replaceAt_results (k : nat) (t t' : Task) (l : list Task) :
  nth_error l k = Some t -> result t' = result t ->
  map result (replaceAt k t' l) = map result l.
Proof.
  revert k. induction l as [| x l IH]; intros [| k]; simpl; try discriminate.
  - intros H E. injection H as ->. rewrite E. reflexivity.
  - intros H E. rewrite (IH k H E). reflexivity.
Qed.

Lemma replaceAt_In {A} (k : nat) (x y : A) (l : list A) :
  In y (replaceAt k x l) -> y = x \/ In y l.
Proof.
  revert k. induction l as [| z l IH]; intros [| k]; simpl; auto.
  - intros [H | H]; auto.
  - intros [H | H]; auto. destruct (IH k H); auto.
Qed.

(** What a pool owes to the results of its tasks: a rejected batch carries
    the error of a rejected task, a fulfilled batch has only fulfilled
    tasks, the closing message is in the journal exactly when the batch
    has settled, and nothing a task has still to do is a console message
    or a start callback. *)
Definition settledRight (results : list Settlement) (p : Pool) : Prop :=
  map result (tasks p) = results
  /\ (forall t e, In t (tasks p) -> In e (remaining t) ->
        isConsoleLog e = false /\ isJobStart e = false)
  /\ filter isConsoleLog (journal p)
     = match batch p with
       | Some _ => [allFinished]
       | None => []
       end
  /\ match batch p with
     | Some (Rejected e) => In (Rejected e) results
     | Some Fulfilled => forall r, In r results -> r = Fulfilled
     | Some Pending => False
     | None => True
     end.

Lemma all_fulfilled (ts : list Task) :
  forallb isFulfilled ts = true -> forall r, In r (map result ts) -> r = Fulfilled.
Proof.
  intros H r Hr. apply in_map_iff in Hr. destruct Hr as (t & <- & Ht).
  rewrite forallb_forall in H. specialize (H t Ht). unfold isFulfilled in H.
  destruct (result t); [reflexivity | discriminate H | discriminate H].
Qed.

Lemma settledRight_tick (results : list Settlement) (p : Pool) (k : nat) :
  settledRight results p -> settledRight results (tick p k).
Proof.
  intros (Hres & Hrem & Hlog & Hbatch).
  pose proof (conj Hres (conj Hrem (conj Hlog Hbatch))) as Hsame.
  change (settledRight results p) in Hsame. unfold tick.
  destruct (nth_error (tasks p) k) as [t |] eqn:Ht; [| exact Hsame].
  assert (Hin : In t (tasks p)) by (eapply nth_error_In; exact Ht).
  destruct t as [rem res done]. simpl.
  destruct rem as [| e rest].
  - destruct done; [exact Hsame |].
    assert (Hmap : map result
                     (replaceAt k {| remaining := []; result := res; settled := true |}
                        (tasks p)) = results).
    { rewrite (replaceAt_results k _ {| remaining := []; result := res; settled := true |}
                 _ Ht eq_refl).
      exact Hres. }
    assert (Hrem' : forall t e,
              In t (replaceAt k {| remaining := []; result := res; settled := true |}
                      (tasks p)) ->
              In e (remaining t) -> isConsoleLog e = false /\ isJobStart e = false).
    { intros t e Hti He. apply replaceAt_In in Hti. destruct Hti as [-> | Hti].
      - destruct He.
      - exact (Hrem t e Hti He). }
    assert (Hresin : In res results).
    { rewrite <- Hres. apply in_map_iff. eexists. split; [| exact Hin]. reflexivity. }
    destruct res as [| err |]; [| | exact Hsame]; destruct (batch p) eqn:Eb.
    + split; [exact Hmap |]. split; [exact Hrem' |]. simpl. auto.
    + destruct (forallb isFulfilled _) eqn:Eall.
      * split; [exact Hmap |]. split; [exact Hrem' |]. simpl. split.
        -- rewrite filter_app, Hlog. reflexivity.
        -- rewrite <- Hmap. apply all_fulfilled, Eall.
      * split; [exact Hmap |]. split; [exact Hrem' |]. simpl. auto.
    + split; [exact Hmap |]. split; [exact Hrem' |]. simpl. auto.
    + split; [exact Hmap |]. split; [exact Hrem' |]. simpl. split.
      * rewrite filter_app, Hlog. reflexivity.
      * exact Hresin.
  - destruct (Hrem _ e Hin (or_introl eq_refl)) as [Hc Hs].
    split; [| split; [| split]]; simpl.
    + rewrite (replaceAt_results k _ {| remaining := rest; result := res; settled := done |}
                 _ Ht eq_refl).
      exact Hres.
    + intros t x Hti Hx. apply replaceAt_In in Hti. destruct Hti as [-> | Hti].
      * apply (Hrem _ x Hin). right. exact Hx.
      * exact (Hrem t x Hti Hx).
    + rewrite filter_app, Hlog. simpl. rewrite Hc, app_nil_r. reflexivity.
    + exact Hbatch.
Qed.

Lemma settledRight_run (results : list Settlement) (schedule : list nat) :
  forall p, settledRight results p -> settledRight results (fold_left tick schedule p).
Proof.
  induction schedule as [| k rest IH]; intros p H; [exact H |].
  simpl. apply IH, settledRight_tick, H.
Qed.

(** Once the batch has settled, no resumption changes how. *)
Lemma tick_keeps_batch (p : Pool) (k : nat) (b : Settlement) :
  batch p = Some b -> batch (tick p k) = Some b.
Proof.
  intros Hb. unfold tick. destruct (nth_error (tasks p) k) as [t |]; [| exact Hb].
  destruct (remaining t); [| exact Hb].
  destruct (settled t); [exact Hb |].
  destruct (result t); rewrite Hb; simpl; auto.
Qed.

Lemma run_keeps_batch (schedule : list nat) (b : Settlement) :
  forall p, batch p = Some b -> batch (fold_left tick schedule p) = Some b.
Proof.
  induction schedule as [| k rest IH]; intros p H; [exact H |].
  simpl. apply IH, tick_keeps_batch, H.
Qed.

(** The journal only grows, and by what the tasks had still to do or the
    closing message. *)
Lemma tick_journal (p : Pool) (k : nat) :
  (forall t e, In t (tasks p) -> In e (remaining t) -> isJobStart e = false) ->
  exists more, journal (tick p k) = journal p ++ more /\ filter isJobStart more = [].
Proof.
  intros Hrem. unfold tick.
  destruct (nth_error (tasks p) k) as [t |] eqn:Ht;
    [| exists []; rewrite app_nil_r; auto].
  assert (Hin : In t (tasks p)) by (eapply nth_error_In; exact Ht).
  destruct (remaining t) as [| e rest] eqn:Er.
  - destruct (settled t); [exists []; rewrite app_nil_r; auto |].
    destruct (result t); destruct (batch p); try destruct (forallb isFulfilled _);
      simpl;
      first [ exists []; rewrite app_nil_r; split; reflexivity
            | exists [allFinished]; split; reflexivity ].
  - exists [e]. split; [reflexivity |]. simpl.
    rewrite (Hrem t e Hin); [reflexivity | rewrite Er; left; reflexivity].
Qed.

Variable fs : FileSystem.
Variable world : nat -> JobWorld.
Variable close : bool.

Lemma body_events (k : nat) (job : Job) (e : Event) :
  In e (bodyOf fs world close k job) -> isConsoleLog e = false /\ isJobStart e = false.
Proof.
  unfold bodyOf, jobBody.
  destruct (isEmpty (jobEssay fs job)); [intros [] |].
  destruct (negb (newPageOk (world k))); [intros [] |].
  assert (Hclose : forall b, In e (closeTab b k) ->
            isConsoleLog e = false /\ isJobStart e = false).
  { intros [|]; simpl; [intros [<- | []]; auto | intros []]. }
  assert (Hpage : forall l, In e (map (OnPage k) l) ->
            isConsoleLog e = false /\ isJobStart e = false).
  { intros l H. apply in_map_iff in H. destruct H as (x & <- & _). auto. }
  destruct (negb (gotoOk (world k) && loadStateOk (world k))).
  - simpl. intros [<- | [<- | [<- | H]]]; eauto.
  - destruct (Typer.typeWithHumanSpeed _ _ _ _) as [[[n | err |] c] log]; simpl;
      intros [<- | [<- | [<- | H]]]; auto;
      try (apply in_app_or in H; destruct H as [H | [<- | H]]); eauto.
Qed.

Lemma startAll_settledRight (jobs : list Job) (k0 : nat) :
  forall t e, In t (snd (startAll fs world close k0 jobs)) -> In e (remaining t) ->
    isConsoleLog e = false /\ isJobStart e = false.
Proof.
  revert k0. induction jobs as [| job rest IH]; intros k0 t e; [intros [] |].
  rewrite startAll_cons. simpl. intros [<- | Ht] He.
  - exact (body_events k0 job e He).
  - exact (IH (S k0) t e Ht He).
Qed.

Lemma startAll_results (jobs : list Job) (k0 : nat) (r : Settlement) :
  In r (map result (snd (startAll fs world close k0 jobs))) ->
  exists i job, nth_error jobs i = Some job /\ resultOf fs world close (k0 + i) job = r.
Proof.
  revert k0. induction jobs as [| job rest IH]; intros k0; [intros [] |].
  rewrite startAll_cons. simpl. intros [<- | H].
  - exists 0, job. rewrite Nat.add_0_r. auto.
  - destruct (IH (S k0) H) as (i & j & Hj & Hr). exists (S i), j.
    replace (k0 + S i) with (S k0 + i) by lia. auto.
Qed.

Lemma startAll_results_all (jobs : list Job) (k0 i : nat) (job : Job) :
  nth_error jobs i = Some job ->
  In (resultOf fs world close (k0 + i) job)
    (map result (snd (startAll fs world close k0 jobs))).
Proof.
  intros H. destruct (startAll_nth fs world close jobs k0 i job H) as (t & Ht & _ & Hr).
  apply in_map_iff. exists t. split; [exact Hr | eapply nth_error_In; exact Ht].
Qed.

Lemma startAll_log (jobs : list Job) (k0 : nat) :
  filter isConsoleLog (fst (startAll fs world close k0 jobs)) = [].
Proof.
  revert k0. induction jobs as [| job rest IH]; intros k0; [reflexivity |].
  rewrite startAll_cons. cbn [fst]. rewrite filter_app, IH, app_nil_r.
  unfold jobPrologue. destruct (isEmpty (jobEssay fs job)); reflexivity.
Qed.

(** The batch of the parallel branch settles like [Promise.all]: when it
    is rejected, the error is the one some job of the batch was rejected
    with; when it is fulfilled, every job of the batch is fulfilled; it
    never settles as pending; the closing message is printed once, at the
    moment the batch settles and not before; and once settled, the batch
    stays as it is however the other jobs go on. *)
Theorem parallel_batch_settles_once (schedule : list nat) (jobs : list Job) :
  match batch (runParallel fs world close schedule jobs) with
  | Some (Rejected e) =>
      exists k job, nth_error jobs k = Some job
                    /\ snd (runJob fs (world k) close k job) = Rejected e
  | Some Fulfilled =>
      forall k job, nth_error jobs k = Some job ->
                    snd (runJob fs (world k) close k job) = Fulfilled
  | Some Pending => False
  | None => True
  end
  /\ filter isConsoleLog (journal (runParallel fs world close schedule jobs))
     = match batch (runParallel fs world close schedule jobs) with
       | Some _ => [allFinished]
       | None => []
       end
  /\ forall more b,
       batch (runParallel fs world close schedule jobs) = Some b ->
       batch (runParallel fs world close (schedule ++ more) jobs) = Some b.
Proof.
  unfold runParallel.
  pose proof (startAll_settledRight jobs 0) as Hrem.
  pose proof (startAll_log jobs 0) as Hlog.
  pose proof (startAll_results jobs 0) as Hres.
  pose proof (startAll_results_all jobs 0) as Hall.
  destruct (startAll fs world close 0 jobs) as [log ts]. simpl in *.
  assert (Hinit : settledRight (map result ts) {| tasks := ts; batch := None; journal := log |}).
  { split; [reflexivity |]. split; [exact Hrem |]. split; [exact Hlog | exact I]. }
  apply (settledRight_run _ schedule) in Hinit.
  destruct Hinit as (_ & _ & Hj & Hb).
  split; [| split].
  - destruct (batch (fold_left tick schedule _)) as [[| e |] |]; try exact Hb.
    + intros k job Hk. rewrite runJob_split. cbn [snd].
      apply Hb. exact (Hall k job Hk).
    + destruct (Hres _ Hb) as (i & job & Hjob & Hr).
      exists i, job. rewrite runJob_split. auto.
  - exact Hj.
  - intros more b Hsome. rewrite fold_left_app. apply run_keeps_batch, Hsome.
Qed.

(** The jobs of [jobs], the first with index [k], announced in order. *)
Fixpoint announcements (k : nat) (jobs : list Job) : list Event :=
  match jobs with
  | [] => []
  | job :: rest => JobStart k (String.length (jobEssay fs job)) :: announcements (S k) rest
  end.

Lemma startAll_announcements (jobs : list Job) (k0 : nat) :
  (forall job, In job jobs -> isEmpty (jobEssay fs job) = false) ->
  fst (startAll fs world close k0 jobs) = announcements k0 jobs.
Proof.
  revert k0. induction jobs as [| job rest IH]; intros k0 H; [reflexivity |].
  rewrite startAll_cons. cbn [fst]. unfold jobPrologue.
  rewrite (H job (or_introl eq_refl)), IH; [reflexivity |].
  intros j Hj. apply H. right. exact Hj.
Qed.

Lemma tick_remaining (p : Pool) (k : nat) :
  (forall t e, In t (tasks p) -> In e (remaining t) -> isJobStart e = false) ->
  forall t e, In t (tasks (tick p k)) -> In e (remaining t) -> isJobStart e = false.
Proof.
  intros Hrem. unfold tick.
  destruct (nth_error (tasks p) k) as [t0 |] eqn:Ht; [| exact Hrem].
  assert (Hin : In t0 (tasks p)) by (eapply nth_error_In; exact Ht).
  destruct (remaining t0) as [| x rest] eqn:Er.
  - destruct (settled t0); [exact Hrem |].
    destruct (result t0); destruct (batch p); try destruct (forallb isFulfilled _);
      simpl; try exact Hrem;
      intros t y Hti Hy; apply replaceAt_In in Hti; destruct Hti as [-> | Hti];
      first [ destruct Hy | exact (Hrem t y Hti Hy) ].
  - simpl. intros t e Hti He. apply replaceAt_In in Hti. destruct Hti as [-> | Hti].
    + apply (Hrem t0 e Hin). rewrite Er. right. exact He.
    + exact (Hrem t e Hti He).
Qed.

Lemma run_journal (schedule : list nat) : forall p,
  (forall t e, In t (tasks p) -> In e (remaining t) -> isJobStart e = false) ->
  exists more,
    journal (fold_left tick schedule p) = journal p ++ more
    /\ filter isJobStart more = [].
Proof.
  induction schedule as [| k rest IH]; intros p Hrem.
  - exists []. rewrite app_nil_r. auto.
  - simpl fold_left.
    destruct (tick_journal p k Hrem) as (m1 & E1 & F1).
    destruct (IH (tick p k) (tick_remaining p k Hrem)) as (m2 & E2 & F2).
    exists (m1 ++ m2). rewrite E2, E1, <- app_assoc. split; [reflexivity |].
    rewrite filter_app, F1, F2. reflexivity.
Qed.

(** In the parallel branch every job with content is announced by its
    start callback, in input order and with the length of its content,
    before anything else happens: before any tab is opened and whatever the
    schedule; no job is announced a second time. *)
Theorem parallel_announces_all_jobs_first (schedule : list nat) (jobs : list Job) :
  (forall job, In job jobs -> isEmpty (jobEssay fs job) = false) ->
  exists more,
    journal (runParallel fs world close schedule jobs) = announcements 0 jobs ++ more
    /\ filter isJobStart more = [].
Proof.
  intros Hcontent. unfold runParallel.
  pose proof (startAll_announcements jobs 0 Hcontent) as Hstart.
  pose proof (startAll_settledRight jobs 0) as Hrem.
  destruct (startAll fs world close 0 jobs) as [log ts]. simpl in *. subst log.
  apply (run_journal schedule {| tasks := ts; batch := None;
                                 journal := announcements 0 jobs |}).
  intros t e Ht He. exact (proj2 (Hrem t e Ht He)).
Qed.

End ParallelBatch.

(** Two jobs, the first failing to load, the schedule going back and
    forth: the batch is rejected with the first job's error, and both jobs
    were announced before anything else. *)
Lemma parallel_batch_settles_once_witness :
  exists k job,
    nth_error (map (resolved noFiles) twoJobs) k = Some job
    /\ snd (Agent.runJob noFiles (firstTabDead k) false k job)
       = Agent.Rejected Agent.NavigationFailed.
Proof.
  pose proof (parallel_batch_settles_once noFiles firstTabDead false [0; 1; 0; 1; 0; 0]
                (map (resolved noFiles) twoJobs)) as [H _].
  assert (E : Agent.batch (Agent.runParallel noFiles firstTabDead false [0; 1; 0; 1; 0; 0]
                             (map (resolved noFiles) twoJobs))
              = Some (Agent.Rejected Agent.NavigationFailed))
    by (vm_compute; reflexivity).
  rewrite E in H. exact H.
Defined.

Lemma parallel_announces_all_jobs_first_witness :
  exists more,
    Agent.journal (Agent.runParallel noFiles firstTabDead false [1; 0; 1]
                     (map (resolved noFiles) twoJobs))
    = (announcements noFiles 0 (map (resolved noFiles) twoJobs) ++ more)%list
    /\ filter isJobStart more = [].
Proof.
  apply (parallel_announces_all_jobs_first noFiles firstTabDead false [1; 0; 1]
           (map (resolved noFiles) twoJobs)).
  intros job [<- | [<- | []]]; reflexivity.
Defined.

(** ** Padding around a target *)

Section Padding.
Import Agent.

Lemma normalizeDocUrl_trimmed (url : string) :
  trim (normalizeDocUrl url) = normalizeDocUrl url.
Proof.
  destruct (canonical_dec (trim url)) as [Hc | Hc].
  - rewrite (normalize_canonical url Hc). apply trim_idempotent.
  - destruct (bareToken_dec (trim url)) as [Ht | Ht].
    + rewrite (normalize_token url Ht). apply expanded_is_trimmed.
    + rewrite (normalize_other url Hc Ht). apply trim_idempotent.
Qed.

(** White space around a target does not matter and never survives:
    normalising the trimmed target gives what normalising the target
    gives, the result has no white space around it, and a blank target
    gives the empty string. *)
Theorem normalizeDocUrl_ignores_padding (url : string) :
  normalizeDocUrl (trim url) = normalizeDocUrl url
  /\ trim (normalizeDocUrl url) = normalizeDocUrl url
  /\ (trim url = EmptyString -> normalizeDocUrl url = EmptyString).
Proof.
  split; [| split].
  - unfold normalizeDocUrl. rewrite trim_idempotent. reflexivity.
  - apply normalizeDocUrl_trimmed.
  - intros E. unfold normalizeDocUrl. rewrite E. reflexivity.
Qed.

End Padding.

(** A target of blanks only. *)
Lemma normalizeDocUrl_ignores_padding_witness :
  Agent.normalizeDocUrl "   " = EmptyString.
Proof.
  apply (proj2 (proj2 (normalizeDocUrl_ignores_padding "   "))). reflexivity.
Defined.

(** ** The callbacks of one job *)

Section Callbacks.
Import Agent.
Local Open Scope list_scope.

(** An outcome that is not a hang, or a hang the pause predicate of [env]
    accounts for. *)
Definition settles (env : Typer.Env) {A} (r : Typer.Outcome A) : Prop :=
  r = Typer.Hung -> exists n, Typer.pausedFor env n = None.

Lemma settles_bind env {A B} (m : Typer.M A) (f : A -> Typer.M B) (c : Typer.Counters) :
  settles env (outcomeOf (m env c)) ->
  (forall a c1, settles env (outcomeOf (f a env c1))) ->
  settles env (outcomeOf (Typer.bind m f env c)).
Proof.
  unfold Typer.bind, outcomeOf, settles.
  destruct (m env c) as [[[a | e |] c1] l1]; simpl; intros Hm Hf.
  - specialize (Hf a c1). destruct (f a env c1) as [[r c2] l2]. exact Hf.
  - intros H. discriminate H.
  - intros _. apply Hm. reflexivity.
Qed.

Lemma settles_returned env {A} (a : A) : settles env (Typer.Returned a).
Proof.
  intros H. discriminate H.
Qed.

Lemma settles_keyboard env e c : settles env (outcomeOf (Typer.keyboard e env c)).
Proof.
  unfold Typer.keyboard, outcomeOf. destruct (Typer.keyboardOk env _); intros H; discriminate H.
Qed.

Lemma settles_waitWhilePaused env c : settles env (outcomeOf (Typer.waitWhilePaused env c)).
Proof.
  unfold Typer.waitWhilePaused, outcomeOf, settles.
  destruct (Typer.pausedFor env (Typer.nPause c)) eqn:E; simpl; [discriminate | eauto].
Qed.

Lemma settles_typo env char delay c : settles env (outcomeOf (Typer.typo char delay env c)).
Proof.
  unfold Typer.typo.
  destruct (Typer.lookup _ _); [| apply settles_returned].
  destruct (negb _); [| apply settles_returned].
  apply settles_bind; [apply settles_returned | intros r c1].
  apply settles_bind; [apply settles_returned | intros _ c2].
  apply settles_bind.
  { destruct (Typer.at_index _ _); [apply settles_keyboard | intros H; discriminate H]. }
  intros _ c3.
  apply settles_bind; [apply settles_returned | intros d1 c4].
  apply settles_bind; [apply settles_returned | intros _ c5].
  apply settles_bind; [apply settles_keyboard | intros _ c6].
  apply settles_bind; [apply settles_returned | intros d2 c7].
  apply settles_returned.
Qed.

Lemma settles_typeChar env o len base i char c :
  settles env (outcomeOf (Typer.typeChar o len base i char env c)).
Proof.
  unfold Typer.typeChar.
  apply settles_bind; [apply settles_waitWhilePaused | intros _ c1].
  apply settles_bind; [apply settles_returned | intros r c2].
  apply settles_bind.
  { destruct (Typer.simulateTypos o && _)%bool; [| apply settles_returned].
    apply settles_bind; [apply settles_returned | intros roll c3].
    unfold Typer.when. destruct (ltb roll _); [apply settles_typo | apply settles_returned]. }
  intros _ c3.
  apply settles_bind; [apply settles_returned | intros _ c4].
  apply settles_bind.
  { destruct (Ascii.eqb char Typer.newline); apply settles_keyboard. }
  intros _ c5.
  apply settles_bind; [apply settles_returned | intros _ c6].
  apply settles_bind.
  { unfold Typer.when. destruct (_ && _)%bool; [| apply settles_returned].
    apply settles_bind; [apply settles_returned | intros j c7]. apply settles_returned. }
  intros _ c7.
  apply settles_bind.
  { unfold Typer.when. destruct (_ && _ && _)%bool; apply settles_returned. }
  intros _ c8.
  apply settles_bind; [apply settles_returned | intros d c9]. apply settles_returned.
Qed.

Lemma settles_typeLoop env o len base rest : forall i c,
  settles env (outcomeOf (Typer.typeLoop o len base i rest env c)).
Proof.
  induction rest as [| char rest IH]; intros i c; [apply settles_returned |].
  simpl. apply settles_bind; [apply settles_returned | intros stop c3].
  destruct stop; [apply settles_returned |].
  apply settles_bind; [apply settles_typeChar | intros _ c4]. apply IH.
Qed.

Lemma settles_run env text o c :
  settles env (outcomeOf (Typer.typeWithHumanSpeed text o env c)).
Proof.
  unfold Typer.typeWithHumanSpeed. apply settles_bind.
  - unfold outcomeOf.
    destruct (Typer.focusDoc Typer.focusSelectors env c) as [[r c1] l] eqn:E.
    destruct (focusDoc_inv _ _ _ _ _ _ E) as [_ [-> | (-> & _)]]; intros H; discriminate H.
  - intros _ c1. apply settles_typeLoop.
Qed.

Definition isJobComplete (e : Event) : bool :=
  match e with
  | JobComplete _ _ => true
  | _ => false
  end.

Lemma completes_onPage (k : nat) (l : list Typer.Event) :
  filter isJobComplete (map (OnPage k) l) = [].
Proof.
  induction l as [| e l IH]; [reflexivity | exact IH].
Qed.

Lemma starts_onPage (k : nat) (l : list Typer.Event) :
  filter isJobStart (map (OnPage k) l) = [].
Proof.
  induction l as [| e l IH]; [reflexivity | exact IH].
Qed.

Lemma completes_closeTab (b : bool) (k : nat) : filter isJobComplete (closeTab b k) = [].
Proof.
  destruct b; reflexivity.
Qed.

(** A job with content is announced once, with the length of its content.
    When its tab cannot be created the job is rejected without any
    completion callback.  When the tab is created the job always settles,
    and exactly one completion callback is made for it: without an error
    when it is fulfilled, with the error it is rejected with otherwise. *)
Theorem completion_is_reported_once (fs : FileSystem) (w : JobWorld) (close : bool)
  (k : nat) (job : Job) :
  isEmpty (jobEssay fs job) = false ->
  filter isJobStart (fst (runJob fs w close k job))
    = [JobStart k (String.length (jobEssay fs job))]
  /\ (newPageOk w = false ->
      runJob fs w close k job
      = ([JobStart k (String.length (jobEssay fs job))], Rejected NewPageFailed))
  /\ (newPageOk w = true ->
      exists err,
        filter isJobComplete (fst (runJob fs w close k job)) = [JobComplete k err]
        /\ snd (runJob fs w close k job)
           = match err with
             | None => Fulfilled
             | Some e => Rejected e
             end).
Proof.
  intros He. unfold runJob, jobBody, jobPrologue. rewrite He.
  pose proof (settles_run (typingEnv w) (jobEssay fs job) (typingOptions job) Typer.start)
    as Hsettle.
  unfold outcomeOf in Hsettle.
  destruct (newPageOk w); simpl.
  - destruct (gotoOk w && loadStateOk w)%bool; simpl.
    + destruct (Typer.typeWithHumanSpeed _ _ _ _) as [[[n | e |] c] log]; simpl.
      * split; [| split; [discriminate |]].
        -- rewrite filter_app, starts_onPage. destruct close; reflexivity.
        -- intros _. exists None. rewrite filter_app, completes_onPage. simpl.
           rewrite completes_closeTab. auto.
      * split; [| split; [discriminate |]].
        -- rewrite filter_app, starts_onPage. destruct close; reflexivity.
        -- intros _. exists (Some (Injection e)).
           rewrite filter_app, completes_onPage. simpl.
           rewrite completes_closeTab. auto.
      * destruct (Hsettle eq_refl) as [n Hn]. discriminate Hn.
    + split; [destruct close; reflexivity |]. split; [discriminate |].
      intros _. exists (Some NavigationFailed). rewrite completes_closeTab. auto.
  - split; [reflexivity |]. split; [reflexivity | discriminate].
Qed.

End Callbacks.

(** The short job without a tab: announced, rejected, never completed. *)
Lemma completion_is_reported_once_witness :
  Agent.runJob noFiles noTab false 0 (resolved noFiles shortJob)
  = ([Agent.JobStart 0 (String.length (Agent.jobEssay noFiles (resolved noFiles shortJob)))],
     Agent.Rejected Agent.NewPageFailed).
Proof.
  apply (proj1 (proj2 (completion_is_reported_once noFiles noTab false 0
                         (resolved noFiles shortJob) eq_refl))).
  reflexivity.
Defined.

(** * config.js *)

(** A parsed JSON object is the list of its properties, each name once;
    the values are of any type [V].  [loadConfig] is modelled from the
    parsed file on: [options] and [jobs] are [None] when absent, [jobs] is
    an array of objects. *)

Module Config.

Definition Obj (V : Type) : Type := list (string * V).

(** [obj[key]] *)
Fixpoint getField {V} (key : string) (obj : Obj V) : option V :=
  match obj with
  | [] => None
  | (k, v) :: rest => if String.eqb key k then Some v else getField key rest
  end.

(** [obj[key] = value]: an existing property keeps its place. *)
Fixpoint setField {V} (key : string) (value : V) (obj : Obj V) : Obj V :=
  match obj with
  | [] => [(key, value)]
  | (k, v) :: rest =>
      if String.eqb key k then (key, value) :: rest
      else (k, v) :: setField key value rest
  end.

(** [{ ...target, ...source }], [target] being already copied. *)
Definition spread {V} (target source : Obj V) : Obj V :=
  fold_left (fun acc kv => setField (fst kv) (snd kv) acc) source target.

Record ConfigFile (V : Type) := {
  options : option (Obj V);
  jobs : option (list (Obj V))
}.
Arguments options {V} _.
Arguments jobs {V} _.

Record Loaded (V : Type) := {
  loadedJobs : list (Obj V);
  loadedOptions : Obj V
}.
Arguments loadedJobs {V} _.
Arguments loadedOptions {V} _.

Definition orEmpty {A} (x : option (list A)) : list A :=
  match x with
  | Some l => l
  | None => []
  end.

Definition loadConfig {V} (config : ConfigFile V) : Loaded V :=
  let opts := orEmpty (options config) in
  {| loadedJobs := map (fun j => spread (spread [] opts) j) (orEmpty (jobs config));
     loadedOptions := orEmpty (options config) |}.

Definition keysOf {V} (obj : Obj V) : list string := map fst obj.

End Config.

Section ConfigMerge.
Import Config.
Local Open Scope list_scope.

Variable V : Type.

Lemma getField_set_same (key : string) (value : V) (obj : Obj V) :
  getField key (setField key value obj) = Some value.
Proof.
  induction obj as [| [k v] rest IH]; simpl.
  - rewrite String.eqb_refl. reflexivity.
  - destruct (String.eqb key k) eqn:E; simpl; rewrite ?String.eqb_refl, ?E; auto.
Qed.

Lemma getField_set_other (key other : string) (value : V) (obj : Obj V) :
  other <> key -> getField other (setField key value obj) = getField other obj.
Proof.
  intros Hne. induction obj as [| [k v] rest IH]; simpl.
  - destruct (String.eqb_spec other key); [contradiction | reflexivity].
  - destruct (String.eqb_spec key k) as [-> | Hk]; simpl.
    + destruct (String.eqb_spec other k); [contradiction | reflexivity].
    + rewrite IH. reflexivity.
Qed.

Lemma getField_absent (key : string) (obj : Obj V) :
  ~ In key (keysOf obj) -> getField key obj = None.
Proof.
  induction obj as [| [k v] rest IH]; simpl; [reflexivity |].
  intros H. destruct (String.eqb_spec key k) as [-> | _]; [exfalso; auto |].
  apply IH. intros Hin. apply H. right. exact Hin.
Qed.

Lemma keysOf_set (key : string) (value : V) (obj : Obj V) :
  keysOf (setField key value obj)
  = if in_dec string_dec key (keysOf obj) then keysOf obj else keysOf obj ++ [key].
Proof.
  induction obj as [| [k v] rest IH]; simpl; [reflexivity |].
  destruct (String.eqb_spec key k) as [E | Hk]; simpl.
  - subst k. destruct (string_dec key key) as [E | N]; [reflexivity | contradiction].
  - rewrite IH. destruct (string_dec k key) as [E | N]; [symmetry in E; contradiction |].
    destruct (in_dec string_dec key (keysOf rest)); reflexivity.
Qed.

Lemma NoDup_set (key : string) (value : V) (obj : Obj V) :
  NoDup (keysOf obj) -> NoDup (keysOf (setField key value obj)).
Proof.
  intros H. rewrite keysOf_set.
  destruct (in_dec string_dec key (keysOf obj)) as [_ | Hn]; [exact H |].
  apply NoDup_app; [exact H | repeat constructor; intros [] |].
  intros x Hx [<- | []]. contradiction.
Qed.

Lemma spread_lookup (source : Obj V) : forall (target : Obj V) (key : string),
  NoDup (keysOf source) ->
  getField key (spread target source)
  = match getField key source with
    | Some v => Some v
    | None => getField key target
    end.
Proof.
  induction source as [| [k v] rest IH]; intros target key Hnd; [reflexivity |].
  inversion Hnd as [| ? ? Hk Hrest]; subst.
  unfold spread in *. simpl fold_left. rewrite (IH _ key Hrest). simpl.
  destruct (String.eqb_spec key k) as [-> | Hne].
  - rewrite (getField_absent k rest Hk). apply getField_set_same.
  - rewrite (getField_set_other k key v target Hne). reflexivity.
Qed.

Lemma spread_NoDup (source : Obj V) : forall (target : Obj V),
  NoDup (keysOf target) -> NoDup (keysOf (spread target source)).
Proof.
  induction source as [| [k v] rest IH]; intros target H; [exact H |].
  unfold spread in *. simpl. apply IH, NoDup_set, H.
Qed.

(** Every job of a loaded configuration is the job of the file at the same
    place with the global options filled in: a property the job sets keeps
    the job's value, a property only the options set takes the options'
    value, and a property neither sets stays absent; no property appears
    twice, and no job is added or dropped. *)
Theorem loadConfig_merges_options (config : ConfigFile V) :
  NoDup (keysOf (orEmpty (options config))) ->
  (forall j, In j (orEmpty (jobs config)) -> NoDup (keysOf j)) ->
  List.length (loadedJobs (loadConfig config)) = List.length (orEmpty (jobs config))
  /\ forall i j,
       nth_error (orEmpty (jobs config)) i = Some j ->
       exists merged,
         nth_error (loadedJobs (loadConfig config)) i = Some merged
         /\ NoDup (keysOf merged)
         /\ forall key,
              getField key merged
              = match getField key j with
                | Some v => Some v
                | None => getField key (orEmpty (options config))
                end.
Proof.
  intros Hopts Hjobs. unfold loadConfig. simpl. split; [apply length_map |].
  intros i j Hi. exists (spread (spread [] (orEmpty (options config))) j).
  split; [rewrite nth_error_map, Hi; reflexivity |].
  assert (Hj : NoDup (keysOf j)) by (apply Hjobs; eapply nth_error_In; exact Hi).
  split.
  - apply spread_NoDup, spread_NoDup. constructor.
  - intros key. rewrite (spread_lookup j _ key Hj).
    destruct (getField key j); [reflexivity |].
    rewrite (spread_lookup _ [] key Hopts).
    destruct (getField key (orEmpty (options config))); reflexivity.
Qed.

End ConfigMerge.

(** Global options wpm = 45 and sequential, one job with its own wpm = 50:
    the job keeps 50 and inherits "sequential". *)
Definition sampleConfig : Config.ConfigFile string :=
  {| Config.options := Some [("sequential", "true"); ("wpm", "45")];
     Config.jobs := Some [[("essay", "a.txt"); ("wpm", "50")]] |}.

Lemma loadConfig_merges_options_witness :
  exists merged,
    nth_error (Config.loadedJobs (Config.loadConfig sampleConfig)) 0 = Some merged
    /\ Config.getField "wpm" merged = Some "50"
    /\ Config.getField "sequential" merged = Some "true".
Proof.
  destruct (loadConfig_merges_options string sampleConfig) as [_ H].
  - simpl. repeat constructor; simpl; intros [E | [E | []]] || intros [E | []] || intros [];
      discriminate E.
  - intros j [<- | []]. simpl.
    repeat constructor; simpl; intros [E | [E | []]] || intros [E | []] || intros [];
      discriminate E.
  - destruct (H 0 [("essay", "a.txt"); ("wpm", "50")] eq_refl) as (merged & Hm & _ & Hget).
    exists merged. split; [exact Hm |]. split; rewrite Hget; reflexivity.
Defined.
